(** * Table reconstruction and response recovery: a shallow embedding

    The development follows the two cores of the repository:
    - [PDFProcessor]: grouping positioned text items into rows, the
      table-row test, candidate detection and table materialisation;
    - [OpenRouterAPI]: response normalisation, the cascade of parsing
      strategies, chunk splitting and the merge of per-chunk results.

    Conventions of the embedding.
    - A JavaScript string is a [list ascii]: one element per code unit,
      the alphabet being the 256 code units below U+0100.
    - A JavaScript number is an exact rational ([Q]); the results of a
      division are in [jsnum], which adds the values a division by zero
      produces.  Rounding to binary64 is not part of the model.
    - A value of type [any] is a [value] (the JSON data model plus
      [undefined]); a thrown exception is the [Throw] case of [result]. *)

From Stdlib Require Import String Ascii Bool Arith ZArith QArith Qabs Lia List.
From Stdlib Require Import Sorting.Sorted Numbers.DecimalString.
From Stdlib Require Import Sorting.Permutation.
From Stdlib Require DecimalNat DecimalFacts.
From Equations Require Import Equations.
Import ListNotations.

Set Implicit Arguments.
Unset Strict Implicit.
Close Scope Q_scope.
Set Warnings "-register-all".
Set Warnings "-abstract-large-number".

(** ** JavaScript numbers *)

Module JSNum.

(** The outcome of a binary64 division, rounding left out. *)
Inductive jsnum : Type :=
| Fin (q : Q)
| PosInf
| NegInf
| NaN.

Definition Qltb (a b : Q) : bool := negb (Qle_bool b a).

(** [a / b] of two finite numbers. *)
Definition jsdiv (a b : Q) : jsnum :=
  if Qeq_bool b 0%Q then
    if Qeq_bool a 0%Q then NaN
    else if Qltb 0%Q a then PosInf else NegInf
  else Fin (a / b)%Q.

(** [x < c] against a finite constant: false on NaN. *)
Definition js_lt (x : jsnum) (c : Q) : bool :=
  match x with
  | Fin q => Qltb q c
  | NegInf => true
  | PosInf | NaN => false
  end.

(** [x >= c] against a finite constant: false on NaN. *)
Definition js_ge (x : jsnum) (c : Q) : bool :=
  match x with
  | Fin q => Qle_bool c q
  | PosInf => true
  | NegInf | NaN => false
  end.

Definition of_nat (n : nat) : Q := inject_Z (Z.of_nat n).

(** [Math.min(...xs)] and [Math.max(...xs)]: an infinity on the empty
    list. *)
Definition Qmin' (a b : Q) : Q := if Qle_bool a b then a else b.
Definition Qmax' (a b : Q) : Q := if Qle_bool a b then b else a.

Definition Math_min (xs : list Q) : jsnum :=
  match xs with
  | [] => PosInf
  | x :: t => Fin (fold_left Qmin' t x)
  end.

Definition Math_max (xs : list Q) : jsnum :=
  match xs with
  | [] => NegInf
  | x :: t => Fin (fold_left Qmax' t x)
  end.

(** [a - b]. *)
Definition js_sub (a b : jsnum) : jsnum :=
  match a, b with
  | NaN, _ | _, NaN => NaN
  | Fin x, Fin y => Fin (x - y)%Q
  | PosInf, PosInf | NegInf, NegInf => NaN
  | PosInf, _ | _, NegInf => PosInf
  | NegInf, _ | _, PosInf => NegInf
  end.

End JSNum.
Import JSNum.

(** ** JavaScript strings *)

Module JSString.

Definition str := list ascii.

(** A literal. *)
Definition lit (s : string) : str := list_ascii_of_string s.
Arguments lit : simpl never.

Definition code (c : ascii) : nat := nat_of_ascii c.

(** The double quote. *)
Definition DQ : ascii := ascii_of_nat 34.

(** White space and line terminators, as [\s] and [trim] see them
    (below U+0100: TAB, LF, VT, FF, CR, SP and NBSP). *)
Definition is_space (c : ascii) : bool :=
  let n := code c in
  ((9 <=? n) && (n <=? 13)) || (n =? 32) || (n =? 160).

Fixpoint trimStart (s : str) : str :=
  match s with
  | c :: s' => if is_space c then trimStart s' else s
  | [] => []
  end.

Definition trimEnd (s : str) : str := rev (trimStart (rev s)).

Definition trim (s : str) : str := trimEnd (trimStart s).

Fixpoint str_eqb (a b : str) : bool :=
  match a, b with
  | [], [] => true
  | x :: a', y :: b' => Ascii.eqb x y && str_eqb a' b'
  | _, _ => false
  end.

Fixpoint startsWith (s p : str) : bool :=
  match p, s with
  | [], _ => true
  | x :: p', y :: s' => Ascii.eqb x y && startsWith s' p'
  | _ :: _, [] => false
  end.

Definition endsWith (s p : str) : bool := startsWith (rev s) (rev p).

(** [s.substring(0, n)] for [0 <= n]. *)
Definition substring0 (n : nat) (s : str) : str := firstn n s.

(** [items.join(sep)] on strings. *)
Fixpoint join (sep : str) (items : list str) : str :=
  match items with
  | [] => []
  | [x] => x
  | x :: t => x ++ sep ++ join sep t
  end.

(** Decimal rendering of a natural number, as a template literal does. *)
Definition nat_to_str (n : nat) : str :=
  lit (NilZero.string_of_uint (Nat.to_uint n)).

(** A text written with apostrophes where it has double quotes. *)
Definition quoted (s : string) : str :=
  map (fun c => if Ascii.eqb c "'" then DQ else c) (lit s).

End JSString.
Import JSString.

(** ** Regular expressions, as the engine matches them *)

Module Regex.

(** The operators the patterns of the source use.  [Star true r] is
    [r*], [Star false r] is [r*?]; alternatives and repetitions are
    tried in the order of a backtracking matcher. *)
Inductive re : Type :=
| Eps
| Chr (p : ascii -> bool)
| Seq (a b : re)
| Alt (a b : re)
| Star (greedy : bool) (a : re)
| Group (i : nat) (a : re)
| Bol
| Eol.

(** [r+], [r+?] and [r?]. *)
Definition Plus (greedy : bool) (r : re) : re := Seq r (Star greedy r).
Definition Opt (r : re) : re := Alt r Eps.

(** Character classes. *)
Definition any : ascii -> bool := fun _ => true.
Definition ch (c : ascii) : ascii -> bool := Ascii.eqb c.
Definition one_of (s : string) : ascii -> bool :=
  fun c => existsb (Ascii.eqb c) (lit s).
Definition none_of (s : string) : ascii -> bool :=
  fun c => negb (one_of s c).
Definition LF : ascii := ascii_of_nat 10.
Definition CR : ascii := ascii_of_nat 13.
(** [.]: any character but a line terminator. *)
Definition dot (c : ascii) : bool := negb (Ascii.eqb c LF || Ascii.eqb c CR).
Definition is_word (c : ascii) : bool :=
  let n := code c in
  ((48 <=? n) && (n <=? 57)) || ((65 <=? n) && (n <=? 90))
  || ((97 <=? n) && (n <=? 122)) || (n =? 95).

(** A letter under the [i] flag; other characters stand for themselves. *)
Definition fold_case (c : ascii) : nat :=
  let n := code c in
  if (97 <=? n) && (n <=? 122) then n - 32 else n.
Definition is_i (c : ascii) : ascii -> bool :=
  fun d =>
    let n := code c in
    if ((65 <=? n) && (n <=? 90)) || ((97 <=? n) && (n <=? 122))
    then fold_case c =? fold_case d
    else Ascii.eqb c d.

(** A literal word, and one under the [i] flag. *)
Fixpoint word_of (cls : ascii -> ascii -> bool) (s : str) : re :=
  match s with
  | [] => Eps
  | [c] => Chr (cls c)
  | c :: t => Seq (Chr (cls c)) (word_of cls t)
  end.
Definition text (s : string) : re := word_of ch (lit s).
Definition text_i (s : string) : re := word_of is_i (lit s).

(** The captures of a match: the latest binding of a group first. *)
Definition caps := list (nat * str).

Fixpoint cap (i : nat) (c : caps) : option str :=
  match c with
  | [] => None
  | (j, s) :: t => if i =? j then Some s else cap i t
  end.

Section Matcher.
Variable R : Type.
(** The length of the whole input: [^] holds where that much is left. *)
Variable size : nat.

(** The iterations of a repetition whose body is matched by [body]:
    a greedy one tries one more iteration before it goes on with
    [k], a lazy one goes on with [k] first.  An iteration that
    consumes nothing is refused; [fuel] is the length of the input,
    which is how many iterations there can be. *)
Fixpoint star_iter
    (body : str -> caps -> (str -> caps -> option R) -> option R)
    (greedy : bool) (k : str -> caps -> option R)
    (fuel : nat) (s : str) (c : caps) {struct fuel} : option R :=
  match fuel with
  | 0 => k s c
  | S fuel' =>
      let again (_ : unit) :=
        body s c
          (fun s' c' =>
             if length s' <? length s
             then star_iter body greedy k fuel' s' c'
             else None) in
      if greedy then
        match again tt with
        | Some x => Some x
        | None => k s c
        end
      else
        match k s c with
        | Some x => Some x
        | None => again tt
        end
  end.

(** [mtch r s c k]: match [r] at the head of [s], then go on with
    [k] on what is left; the first success in backtracking order. *)
Fixpoint mtch (r : re) (s : str) (c : caps)
    (k : str -> caps -> option R) {struct r} : option R :=
  match r with
  | Eps => k s c
  | Chr p =>
      match s with
      | x :: s' => if p x then k s' c else None
      | [] => None
      end
  | Seq a b => mtch a s c (fun s' c' => mtch b s' c' k)
  | Alt a b =>
      match mtch a s c k with
      | Some x => Some x
      | None => mtch b s c k
      end
  | Star greedy a => star_iter (mtch a) greedy k (length s) s c
  | Group i a =>
      mtch a s c
        (fun s' c' => k s' ((i, firstn (length s - length s') s) :: c'))
  | Bol => if length s =? size then k s c else None
  | Eol => match s with [] => k s c | _ => None end
  end.
End Matcher.

(** A match: the matched text, the captures, what follows. *)
Record found : Type := mkFound {
  matched : str;
  groups : caps;
  after : str
}.

(** One attempt at the head of [s] (a sticky match): the number of
    characters matched, and the captures. *)
Definition match_len (r : re) (size : nat) (s : str) : option (nat * caps) :=
  match mtch size r s [] (fun s' c => Some (s', c)) with
  | Some (s', c) => Some (length s - length s', c)
  | None => None
  end.

Definition found_at (s : str) (n : nat) (c : caps) : found :=
  mkFound (firstn n s) c (skipn n s).

Definition exec_at (r : re) (size : nat) (s : str) : option found :=
  match match_len r size s with
  | Some (n, c) => Some (found_at s n c)
  | None => None
  end.

(** [r.exec(s)] without the [g] flag: the leftmost match, with the text
    before it. *)
Fixpoint search_from (r : re) (size : nat) (before : str) (s : str)
  : option (str * found) :=
  match exec_at r size s with
  | Some m => Some (rev before, m)
  | None =>
      match s with
      | [] => None
      | x :: t => search_from r size (x :: before) t
      end
  end.

Definition search (r : re) (s : str) : option (str * found) :=
  search_from r (length s) [] s.

(** [s.match(r)] without the [g] flag. *)
Definition match_first (r : re) (s : str) : option found :=
  match search r s with
  | Some (_, m) => Some m
  | None => None
  end.

(** [s.replace(r, replacement)] without the [g] flag; [replacement]
    expands the template on a match. *)
Definition replace_first (r : re) (replacement : found -> str) (s : str)
  : str :=
  match search r s with
  | Some (before, m) => before ++ replacement m ++ after m
  | None => s
  end.

(** The scan of a [g] pattern from left to right: after a match the
    scan goes on where the match ended, one character further when the
    match is empty.  [emit] receives each match, [keep] each character
    outside the matches. *)
Section Scan.
Variable A : Type.
Variable r : re.
Variable size : nat.
Variable emit : found -> list A.
Variable keep : ascii -> list A.

Equations? scan (s : str) : list A by wf (length s) lt :=
scan [] :=
  match exec_at r size [] with
  | Some m => emit m
  | None => []
  end;
scan (x :: t) :=
  match match_len r size (x :: t) with
  | Some (0, c) => emit (found_at (x :: t) 0 c) ++ keep x ++ scan t
  | Some (S n, c) => emit (found_at (x :: t) (S n) c) ++ scan (skipn n t)
  | None => keep x ++ scan t
  end.
Proof.
  all: simpl; try lia. rewrite length_skipn. lia.
Qed.
End Scan.

(** [s.replace(r, replacement)] with the [g] flag. *)
Definition replace_all (r : re) (replacement : found -> str) (s : str) : str :=
  scan r (length s) replacement (fun x => [x]) s.

(** [s.match(r)] with the [g] flag: the matched texts ([null] when the
    list is empty). *)
Definition match_all (r : re) (s : str) : list str :=
  scan r (length s) (fun m => [matched m]) (fun _ => []) s.

(** [s.split(r)], for a pattern without groups.  [piece] holds, in
    reverse, the characters since the last separator; a match that
    ends where the piece starts is passed over. *)
Section Split.
Variable r : re.
Variable size : nat.

Definition split_measure (piece s : str) : nat :=
  2 * length s + match piece with [] => 0 | _ => 1 end.

Equations? split_loop (piece s : str) : list str
  by wf (split_measure piece s) lt :=
split_loop piece [] := [rev piece];
split_loop [] (x :: t) :=
  match match_len r size (x :: t) with
  | Some (0, _) => split_loop [x] t
  | Some (S n, _) => [] :: split_loop [] (skipn n t)
  | None => split_loop [x] t
  end;
split_loop (p :: piece) (x :: t) :=
  match match_len r size (x :: t) with
  | Some (0, _) => rev (p :: piece) :: split_loop [] (x :: t)
  | Some (S n, _) => rev (p :: piece) :: split_loop [] (skipn n t)
  | None => split_loop (x :: p :: piece) t
  end.
Proof.
  all: unfold split_measure; simpl; try rewrite length_skipn; lia.
Qed.
End Split.

Definition split (r : re) (s : str) : list str :=
  match s with
  | [] =>
      match exec_at r 0 [] with
      | Some _ => []
      | None => [[]]
      end
  | _ => split_loop r (length s) [] s
  end.

End Regex.
Import Regex.

(** ** PDFProcessor: table reconstruction *)

Module PDFProcessor.

(** A text item of the document reader: [str], the origin
    [transform[4]], [transform[5]], and the optional extents. *)
Record TextItem : Type := mkItem {
  item_str : str;
  item_x : Q;
  item_y : Q;
  item_width : option Q;
  item_height : option Q
}.

Definition Row := list TextItem.

Record TableCell : Type := mkCell {
  cell_text : str;
  cell_x : Q;
  cell_y : Q;
  cell_width : Q;
  cell_height : Q;
  cell_row : nat;
  cell_col : nat
}.

Record Table : Type := mkTable {
  table_id : str;
  pageNumber : nat;
  table_x : jsnum;
  table_y : jsnum;
  table_width : jsnum;
  table_height : jsnum;
  table_rows : nat;
  table_columns : nat;
  cells : list TableCell;
  rawText : str
}.

Record Candidate : Type := mkCandidate {
  cand_rows : list Row;
  startIndex : nat;
  endIndex : nat
}.

Definition TABLE_DETECTION_THRESHOLD : Q := (9 # 10)%Q.
Definition MIN_TABLE_ROWS : nat := 3.
Definition MIN_TABLE_COLS : nat := 3.

(** [x || 0] on an optional number. *)
Definition or_zero (w : option Q) : Q :=
  match w with
  | Some q => if Qeq_bool q 0 then 0%Q else q
  | None => 0%Q
  end.

(** *** isTableRow *)

(** The loop [for (i = 1; i < xs.length; i++) gaps.push(xs[i] - xs[i-1])]. *)
Fixpoint gaps_of (xs : list Q) : list Q :=
  match xs with
  | a :: (b :: _) as t => (b - a)%Q :: gaps_of t
  | _ => []
  end.

Definition sum (gaps : list Q) : Q := fold_left Qplus gaps 0%Q.

Definition row_gaps (row : Row) : list Q := gaps_of (map item_x row).

(** [gaps.reduce(...) / gaps.length], read where [gaps] is not empty. *)
Definition avgGap (gaps : list Q) : Q :=
  (sum gaps / of_nat (length gaps))%Q.

(** The filter predicate [Math.abs(gap - avgGap) / avgGap < 0.5]. *)
Definition gap_consistent (avg gap : Q) : bool :=
  js_lt (jsdiv (Qabs (gap - avg)%Q) avg) (1 # 2)%Q.

Definition isTableRow (row : Row) : bool :=
  if length row <? MIN_TABLE_COLS then false
  else
    let gaps := row_gaps row in
    if length gaps =? 0 then false
    else
      let avg := avgGap gaps in
      let consistentGaps := length (filter (gap_consistent avg) gaps) in
      js_ge (jsdiv (of_nat consistentGaps) (of_nat (length gaps)))
            TABLE_DETECTION_THRESHOLD.

(** *** groupTextItemsIntoRows *)

Definition yTolerance : Q := 3%Q.

(** The search of one [forEach] round: the item joins the first open
    row whose first item lies within the tolerance, or opens a row. *)
Fixpoint place (item : TextItem) (rows : list Row) : list Row :=
  match rows with
  | [] => [[item]]
  | row :: rest =>
      match row with
      | r0 :: _ =>
          if Qle_bool (Qabs (item_y item - item_y r0)%Q) yTolerance
          then (row ++ [item]) :: rest
          else row :: place item rest
      | [] => row :: place item rest
      end
  end.

(** [Array.prototype.sort] with a comparator: a stable sort, [le a b]
    standing for [compare(a, b) <= 0]. *)
Section Sort.
Variable A : Type.
Variable le : A -> A -> bool.

Fixpoint insert_sorted (x : A) (l : list A) : list A :=
  match l with
  | [] => [x]
  | y :: t => if le x y then x :: l else y :: insert_sorted x t
  end.

Definition sort (l : list A) : list A := fold_right insert_sorted [] l.
End Sort.

(** [row[0].transform[5]]; rows built by [place] are never empty. *)
Definition row_y (row : Row) : Q :=
  match row with
  | r0 :: _ => item_y r0
  | [] => 0%Q
  end.

(** [(a, b) => b[0].transform[5] - a[0].transform[5]]. *)
Definition rows_le (a b : Row) : bool :=
  Qle_bool (row_y b - row_y a)%Q 0%Q.

(** [(a, b) => a.transform[4] - b.transform[4]]. *)
Definition items_le (a b : TextItem) : bool :=
  Qle_bool (item_x a - item_x b)%Q 0%Q.

Definition groupTextItemsIntoRows (textItems : list TextItem) : list Row :=
  let rows := fold_left (fun rows item => place item rows) textItems [] in
  map (sort items_le) (sort rows_le rows).

(** *** detectTableStructures *)

Section While.
Variable A : Type.
Variable p : A -> bool.

Fixpoint takeWhile (l : list A) : list A :=
  match l with
  | x :: t => if p x then x :: takeWhile t else []
  | [] => []
  end.

Fixpoint dropWhile (l : list A) : list A :=
  match l with
  | x :: t => if p x then dropWhile t else l
  | [] => []
  end.

Lemma dropWhile_length (l : list A) : length (dropWhile l) <= length l.
Proof.
  induction l as [|x t IH]; simpl; [lia|].
  destruct (p x); simpl; lia.
Qed.
End While.

(** The outer loop from index [i], [rows] being [rows[i..]] of the
    source.  A run opened at [i] takes [rows[i]], then the inner
    [while] takes [rows[i+1..j-1]]; the loop goes on at [j]. *)
Equations? detect_from (i : nat) (rows : list Row) : list Candidate
  by wf (length rows) lt :=
detect_from i [] := [];
detect_from i [_] := [];
detect_from i (currentRow :: nextRow :: rest) :=
  if isTableRow currentRow && isTableRow nextRow then
    let run := takeWhile isTableRow (nextRow :: rest) in
    let tableRows := currentRow :: run in
    let j := i + 1 + length run in
    (if MIN_TABLE_ROWS <=? length tableRows
     then [mkCandidate tableRows i (j - 1)] else [])
    ++ detect_from j (dropWhile isTableRow (nextRow :: rest))
  else detect_from (S i) (nextRow :: rest).
Proof.
  all: try (pose proof (dropWhile_length isTableRow (nextRow :: rest)) as H;
            simpl in *; lia).
Qed.

Definition detectTableStructures (rows : list Row) : list Candidate :=
  detect_from 0 rows.

(** *** createTableFromCandidate *)

Fixpoint row_cells (rowIndex colIndex : nat) (row : Row) : list TableCell :=
  match row with
  | [] => []
  | item :: t =>
      mkCell (item_str item) (item_x item) (item_y item)
             (or_zero (item_width item)) (or_zero (item_height item))
             rowIndex colIndex
      :: row_cells rowIndex (S colIndex) t
  end.

Fixpoint all_cells (rowIndex : nat) (rows : list Row) : list TableCell :=
  match rows with
  | [] => []
  | row :: t => row_cells rowIndex 0 row ++ all_cells (S rowIndex) t
  end.

Definition maxCols (rows : list Row) : nat :=
  fold_left (fun m row => Nat.max m (length row)) rows 0.

Definition tab : str := [ascii_of_nat 9].
Definition newline : str := [ascii_of_nat 10].

Definition createTableFromCandidate
    (candidate : Candidate) (pageNumber index : nat) : option Table :=
  let rows := cand_rows candidate in
  if length rows =? 0 then None
  else
    let allItems := concat rows in
    let xPositions := map item_x allItems in
    let yPositions := map item_y allItems in
    let minX := Math_min xPositions in
    let maxX :=
      Math_max (map (fun item => (item_x item + or_zero (item_width item))%Q)
                    allItems) in
    let minY := Math_min yPositions in
    let maxY := Math_max yPositions in
    Some {|
      table_id :=
        lit "table_" ++ nat_to_str pageNumber ++ lit "_" ++ nat_to_str index;
      pageNumber := pageNumber;
      table_x := minX;
      table_y := minY;
      table_width := js_sub maxX minX;
      table_height := js_sub maxY minY;
      table_rows := length rows;
      table_columns := maxCols rows;
      cells := all_cells 0 rows;
      rawText := join newline (map (fun row => join tab (map item_str row)) rows)
    |}.

(** *** extractTablesFromPage *)

(** [item.str && item.str.trim().length > 0]. *)
Definition has_text (item : TextItem) : bool :=
  negb (length (item_str item) =? 0)
  && (0 <? length (trim (item_str item))).

Fixpoint tables_of (pageNumber index : nat) (cands : list Candidate)
  : list Table :=
  match cands with
  | [] => []
  | candidate :: t =>
      match createTableFromCandidate candidate pageNumber index with
      | Some table =>
          if (MIN_TABLE_ROWS <=? table_rows table)
             && (MIN_TABLE_COLS <=? table_columns table)
          then table :: tables_of pageNumber (S index) t
          else tables_of pageNumber (S index) t
      | None => tables_of pageNumber (S index) t
      end
  end.

Definition extractTablesFromPage (items : list TextItem) (pageNumber : nat)
  : list Table :=
  let textItems := filter has_text items in
  if length textItems =? 0 then []
  else
    let rows := groupTextItemsIntoRows textItems in
    let tableCandidates := detectTableStructures rows in
    tables_of pageNumber 0 tableCandidates.

End PDFProcessor.
(** ** JavaScript values and exceptions *)

Module JSValue.

(** A value of type [any]: what [JSON.parse] builds, and [undefined].
    The properties of an object are kept in enumeration order, a key
    occurring once. *)
Inductive value : Type :=
| Undefined
| Null
| Bool (b : bool)
| Num (q : Q)
| Str (s : str)
| Arr (items : list value)
| Obj (props : list (str * value)).

(** A thrown exception with its [message]. *)
Inductive exn : Type :=
| TypeError (message : str)
| Error (message : str).

Definition message (e : exn) : str :=
  match e with
  | TypeError m | Error m => m
  end.

(** The outcome of code that may throw. *)
Inductive result (A : Type) : Type :=
| Ok (a : A)
| Throw (e : exn).

Arguments Ok {A} a.
Arguments Throw {A} e.

Definition bind {A B : Type} (r : result A) (k : A -> result B) : result B :=
  match r with
  | Ok a => k a
  | Throw e => Throw e
  end.

Notation "x <- r ;; k" := (bind r (fun x => k))
  (at level 61, r at next level, right associativity).

(** [try { body } catch (e) { handler(e) }]. *)
Definition try_catch {A : Type} (body : result A) (handler : exn -> result A)
  : result A :=
  match body with
  | Ok a => Ok a
  | Throw e => handler e
  end.

(** ToBoolean. *)
Definition truthy (v : value) : bool :=
  match v with
  | Undefined | Null => false
  | Bool b => b
  | Num q => negb (Qeq_bool q 0)
  | Str s => negb (length s =? 0)
  | Arr _ | Obj _ => true
  end.

Definition nullish (v : value) : bool :=
  match v with
  | Undefined | Null => true
  | _ => false
  end.

Definition isArray (v : value) : bool :=
  match v with
  | Arr _ => true
  | _ => false
  end.

Definition is_string (v : value) : bool :=
  match v with
  | Str _ => true
  | _ => false
  end.

(** [a || b] and [a ?? b]. *)
Definition or_else (a b : value) : value := if truthy a then a else b.
Definition coalesce (a b : value) : value := if nullish a then b else a.

(** [v === 'text']. *)
Definition strict_eq_str (v : value) (s : str) : bool :=
  match v with
  | Str t => str_eqb t s
  | _ => false
  end.

(** [v === n]. *)
Definition strict_eq_num (v : value) (n : Q) : bool :=
  match v with
  | Num q => Qeq_bool q n
  | _ => false
  end.

Fixpoint lookup (key : str) (props : list (str * value)) : value :=
  match props with
  | [] => Undefined
  | (k, v) :: t => if str_eqb k key then v else lookup key t
  end.

(** The index a canonical array-index key denotes. *)
Definition digit_of (c : ascii) : option nat :=
  let n := code c in
  if (48 <=? n) && (n <=? 57) then Some (n - 48) else None.

Fixpoint index_digits (acc : nat) (s : str) : option nat :=
  match s with
  | [] => Some acc
  | c :: t =>
      match digit_of c with
      | Some d => index_digits (10 * acc + d) t
      | None => None
      end
  end.

Definition index_of_key (key : str) : option nat :=
  match key with
  | [] => None
  | [c] => digit_of c
  | c :: t =>
      match digit_of c with
      | Some 0 => None
      | Some d => index_digits d t
      | None => None
      end
  end.

(** [v[key]] on a value that is neither [null] nor [undefined], for the
    keys the source reads: own properties of objects, the elements and
    [length] of arrays and strings.  None of those keys names a property
    inherited from a prototype. *)
Definition get_own (v : value) (key : str) : value :=
  match v with
  | Obj props => lookup key props
  | Arr items =>
      if str_eqb key (lit "length") then Num (of_nat (length items))
      else match index_of_key key with
           | Some i => nth i items Undefined
           | None => Undefined
           end
  | Str s =>
      if str_eqb key (lit "length") then Num (of_nat (length s))
      else match index_of_key key with
           | Some i => match nth_error s i with
                       | Some c => Str [c]
                       | None => Undefined
                       end
           | None => Undefined
           end
  | _ => Undefined
  end.

Definition quote1 : str := lit "'".

(** [v.key]: a TypeError on [null] and [undefined] (worded as V8 does). *)
Definition get (v : value) (key : str) : result value :=
  match v with
  | Undefined =>
      Throw (TypeError (lit "Cannot read properties of undefined (reading '"
                        ++ key ++ lit "')"))
  | Null =>
      Throw (TypeError (lit "Cannot read properties of null (reading '"
                        ++ key ++ lit "')"))
  | _ => Ok (get_own v key)
  end.

(** [v?.key]. *)
Definition get_opt (v : value) (key : str) : value :=
  if nullish v then Undefined else get_own v key.

(** The value under which a [Set] files a key (SameValueZero).  An
    object or array is the same as itself only; two occurrences in
    parsed data are two objects. *)
Definition same_value_zero (a b : value) : bool :=
  match a, b with
  | Undefined, Undefined => true
  | Null, Null => true
  | Bool x, Bool y => Bool.eqb x y
  | Num x, Num y => Qeq_bool x y
  | Str x, Str y => str_eqb x y
  | _, _ => false
  end.

(** [s.includes(sub)]. *)
Fixpoint includes (s sub : str) : bool :=
  startsWith s sub ||
  match s with
  | [] => false
  | _ :: t => includes t sub
  end.

End JSValue.
Import JSValue.
(** ** JSON.parse *)

Module JSON.

(** JSON white space. *)
Definition is_ws (c : ascii) : bool :=
  let n := code c in
  (n =? 32) || (n =? 9) || (n =? 10) || (n =? 13).

Fixpoint skip_ws (s : str) : str :=
  match s with
  | c :: t => if is_ws c then skip_ws t else s
  | [] => []
  end.

Fixpoint take_digits (s : str) : list nat * str :=
  match s with
  | c :: t =>
      match digit_of c with
      | Some d => let (ds, r) := take_digits t in (d :: ds, r)
      | None => ([], s)
      end
  | [] => ([], [])
  end.

Definition digits_value (ds : list nat) : Z :=
  fold_left (fun acc d => (10 * acc + Z.of_nat d)%Z) ds 0%Z.

(** The value of [m * 10^e]. *)
Definition scale (m e : Z) : Q :=
  if (0 <=? e)%Z then inject_Z (m * 10 ^ e)
  else (m # Z.to_pos (10 ^ (- e)))%Q.

(** [int frac? exp?] after an optional minus sign. *)
Definition parse_number (s : str) : option (Q * str) :=
  let (negative, s1) :=
    match s with
    | "-"%char :: t => (true, t)
    | _ => (false, s)
    end in
  let (ints, s2) := take_digits s1 in
  match ints with
  | [] => None
  | 0 :: _ :: _ => None
  | _ =>
      let frac :=
        match s2 with
        | "."%char :: t =>
            let (fs, r) := take_digits t in
            match fs with
            | [] => None
            | _ => Some (fs, r)
            end
        | _ => Some ([], s2)
        end in
      match frac with
      | None => None
      | Some (fracs, s3) =>
          let expo :=
            match s3 with
            | c :: t =>
                if Ascii.eqb c "e" || Ascii.eqb c "E" then
                  let (esign, t') :=
                    match t with
                    | "-"%char :: u => (true, u)
                    | "+"%char :: u => (false, u)
                    | _ => (false, t)
                    end in
                  let (es, r) := take_digits t' in
                  match es with
                  | [] => None
                  | _ =>
                      let e := digits_value es in
                      Some (if esign then (- e)%Z else e, r)
                  end
                else Some (0%Z, s3)
            | [] => Some (0%Z, s3)
            end in
          match expo with
          | None => None
          | Some (e, s4) =>
              let m := digits_value (ints ++ fracs) in
              let q := scale m (e - Z.of_nat (length fracs)) in
              Some (if negative then (- q)%Q else q, s4)
          end
      end
  end.

Definition hex_of (c : ascii) : option nat :=
  let n := code c in
  if (48 <=? n) && (n <=? 57) then Some (n - 48)
  else if (65 <=? n) && (n <=? 70) then Some (n - 55)
  else if (97 <=? n) && (n <=? 102) then Some (n - 87)
  else None.

(** The characters of a string after its opening quote.  A [\u] escape
    of a code unit outside the alphabet of the model is refused. *)
Definition escape_of (e : ascii) : option ascii :=
  if Ascii.eqb e DQ then Some DQ
  else if Ascii.eqb e "\" then Some "\"%char
  else if Ascii.eqb e "/" then Some "/"%char
  else if Ascii.eqb e "b" then Some (ascii_of_nat 8)
  else if Ascii.eqb e "f" then Some (ascii_of_nat 12)
  else if Ascii.eqb e "n" then Some (ascii_of_nat 10)
  else if Ascii.eqb e "r" then Some (ascii_of_nat 13)
  else if Ascii.eqb e "t" then Some (ascii_of_nat 9)
  else None.

Definition cons_char (c : ascii) (r : option (str * str))
  : option (str * str) :=
  match r with
  | Some (cs, rest) => Some (c :: cs, rest)
  | None => None
  end.

Fixpoint parse_chars (s : str) : option (str * str) :=
  match s with
  | [] => None
  | c :: t =>
      if Ascii.eqb c DQ then Some ([], t)
      else if Ascii.eqb c "\" then
        match t with
        | [] => None
        | e :: t1 =>
            if Ascii.eqb e "u" then
              match t1 with
              | h1 :: h2 :: h3 :: h4 :: t2 =>
                  match hex_of h1, hex_of h2, hex_of h3, hex_of h4 with
                  | Some 0, Some 0, Some a, Some b =>
                      cons_char (ascii_of_nat (16 * a + b)) (parse_chars t2)
                  | _, _, _, _ => None
                  end
              | _ => None
              end
            else
              match escape_of e with
              | Some x => cons_char x (parse_chars t1)
              | None => None
              end
        end
      else if code c <? 32 then None
      else cons_char c (parse_chars t)
  end.

(** The property [key] set to [v]: in place when the object has it,
    else where the enumeration order puts a new key (array indices in
    ascending order first, then the other keys as they came). *)
Fixpoint obj_has (key : str) (props : list (str * value)) : bool :=
  match props with
  | [] => false
  | (k, _) :: t => str_eqb k key || obj_has key t
  end.

Fixpoint obj_replace (key : str) (v : value) (props : list (str * value))
  : list (str * value) :=
  match props with
  | [] => []
  | (k, w) :: t =>
      if str_eqb k key then (k, v) :: t else (k, w) :: obj_replace key v t
  end.

Fixpoint obj_insert_index (i : nat) (key : str) (v : value)
    (props : list (str * value)) : list (str * value) :=
  match props with
  | [] => [(key, v)]
  | (k, w) :: t =>
      match index_of_key k with
      | Some j =>
          if i <? j then (key, v) :: props
          else (k, w) :: obj_insert_index i key v t
      | None => (key, v) :: props
      end
  end.

Definition obj_set (key : str) (v : value) (props : list (str * value))
  : list (str * value) :=
  if obj_has key props then obj_replace key v props
  else match index_of_key key with
       | Some i => obj_insert_index i key v props
       | None => props ++ [(key, v)]
       end.

(** A JSON value at the head of [s], after white space.  [fuel] bounds
    the nesting and the number of elements: every nested call comes
    after a character was read, so the length of the text, plus one, is
    never used up. *)
Fixpoint parse_value (fuel : nat) (s : str) : option (value * str) :=
  match fuel with
  | 0 => None
  | S fuel' =>
      match skip_ws s with
      | [] => None
      | c :: t =>
          if Ascii.eqb c "{" then
            match skip_ws t with
            | "}"%char :: r => Some (Obj [], r)
            | _ =>
                (fix members (n : nat) (s : str) (props : list (str * value))
                   {struct n} : option (value * str) :=
                   match n with
                   | 0 => None
                   | S n' =>
                       match skip_ws s with
                       | q :: s1 =>
                           if Ascii.eqb q DQ then
                             match parse_chars s1 with
                             | Some (key, s2) =>
                                 match skip_ws s2 with
                                 | ":"%char :: s3 =>
                                     match parse_value fuel' s3 with
                                     | Some (v, s4) =>
                                         let props' := obj_set key v props in
                                         match skip_ws s4 with
                                         | ","%char :: s5 =>
                                             members n' s5 props'
                                         | "}"%char :: s5 =>
                                             Some (Obj props', s5)
                                         | _ => None
                                         end
                                     | None => None
                                     end
                                 | _ => None
                                 end
                             | None => None
                             end
                           else None
                       | [] => None
                       end
                   end) fuel' t []
            end
          else if Ascii.eqb c "[" then
            match skip_ws t with
            | "]"%char :: r => Some (Arr [], r)
            | _ =>
                (fix elements (n : nat) (s : str) (items : list value)
                   {struct n} : option (value * str) :=
                   match n with
                   | 0 => None
                   | S n' =>
                       match parse_value fuel' s with
                       | Some (v, s1) =>
                           match skip_ws s1 with
                           | ","%char :: s2 => elements n' s2 (v :: items)
                           | "]"%char :: s2 =>
                               Some (Arr (rev (v :: items)), s2)
                           | _ => None
                           end
                       | None => None
                       end
                   end) fuel' t []
            end
          else if Ascii.eqb c DQ then
            match parse_chars t with
            | Some (cs, r) => Some (Str cs, r)
            | None => None
            end
          else
            let s' := c :: t in
            if startsWith s' (lit "true") then Some (Bool true, skipn 4 s')
            else if startsWith s' (lit "false")
            then Some (Bool false, skipn 5 s')
            else if startsWith s' (lit "null") then Some (Null, skipn 4 s')
            else match parse_number s' with
                 | Some (q, r) => Some (Num q, r)
                 | None => None
                 end
      end
  end.

(** [JSON.parse(text)]; [None] stands for the SyntaxError it throws. *)
Definition parse (text : str) : option value :=
  match parse_value (S (length text)) text with
  | Some (v, rest) =>
      match skip_ws rest with
      | [] => Some v
      | _ => None
      end
  | None => None
  end.

End JSON.
(** ** OpenRouterAPI: the structured result, its merge *)

Module OpenRouterAPI.

Section API.

(** [Number.prototype.toString] of the engine, on the numbers of the
    model. *)
Variable number_toString : Q -> str.

(** ToString, as a template literal and [join] apply it. *)
Fixpoint to_string (v : value) : str :=
  match v with
  | Undefined => lit "undefined"
  | Null => lit "null"
  | Bool true => lit "true"
  | Bool false => lit "false"
  | Num q => number_toString q
  | Str s => s
  | Arr items =>
      (fix elements (l : list value) : str :=
         match l with
         | [] => []
         | [x] => if nullish x then [] else to_string x
         | x :: t =>
             (if nullish x then [] else to_string x) ++ lit "," ++ elements t
         end) items
  | Obj _ => lit "[object Object]"
  end.

(** An entry of [findings]. *)
Record Finding : Type := mkFinding {
  finding_id : str;
  attributeName : value;
  description : value;
  finding_value : value;
  pageNumbers : value;
  confidence : value;
  category : str;
  dataType : str;
  critical : bool
}.

(** What [transformSOC1Result] returns. *)
Record Analysis : Type := mkAnalysis {
  findings : list Finding;
  categories : list str;
  rawResult : value
}.

(** [items.forEach((item, index) => findings.push(f(item, index)))],
    from [index] on. *)
Fixpoint forEach_push (f : value -> nat -> result Finding)
    (items : list value) (index : nat) : result (list Finding) :=
  match items with
  | [] => Ok []
  | item :: t =>
      finding <- f item index ;;
      rest <- forEach_push f t (S index) ;;
      Ok (finding :: rest)
  end.

Definition one_page : value := Arr [Num 1%Q].

Definition controlFailure_finding (control : value) (index : nat)
  : result Finding :=
  id <- get control (lit "id") ;;
  description <- get control (lit "description") ;;
  effectiveness <- get control (lit "effectiveness") ;;
  pageNumbers <- get control (lit "pageNumbers") ;;
  confidenceScore <- get control (lit "confidenceScore") ;;
  Ok {|
    finding_id := lit "control-failure-" ++ nat_to_str index;
    attributeName :=
      or_else id (Str (lit "Control Failure " ++ nat_to_str (index + 1)));
    description :=
      or_else description
              (Str (lit "Control failure description not provided"));
    finding_value := or_else effectiveness (Str (lit "Not specified"));
    pageNumbers := or_else pageNumbers one_page;
    confidence := or_else confidenceScore (Num (8 # 10)%Q);
    category := lit "Control Failures";
    dataType := lit "string";
    critical := strict_eq_str effectiveness (lit "ineffective")
  |}.

Definition exclusion_finding (exclusion : value) (index : nat)
  : result Finding :=
  id <- get exclusion (lit "id") ;;
  description <- get exclusion (lit "description") ;;
  reason <- get exclusion (lit "reason") ;;
  pageNumbers <- get exclusion (lit "pageNumbers") ;;
  confidenceScore <- get exclusion (lit "confidenceScore") ;;
  Ok {|
    finding_id := lit "exclusion-" ++ nat_to_str index;
    attributeName :=
      or_else id (Str (lit "Exclusion " ++ nat_to_str (index + 1)));
    description :=
      or_else description (Str (lit "Exclusion description not provided"));
    finding_value := or_else reason (Str (lit "No reason provided"));
    pageNumbers := or_else pageNumbers one_page;
    confidence := or_else confidenceScore (Num (9 # 10)%Q);
    category := lit "Exclusions";
    dataType := lit "string";
    critical := false
  |}.

Definition carveOut_finding (carveOut : value) (index : nat)
  : result Finding :=
  id <- get carveOut (lit "id") ;;
  description <- get carveOut (lit "description") ;;
  provider <- get carveOut (lit "provider") ;;
  reason <- get carveOut (lit "reason") ;;
  pageNumbers <- get carveOut (lit "pageNumbers") ;;
  confidenceScore <- get carveOut (lit "confidenceScore") ;;
  Ok {|
    finding_id := lit "carveout-" ++ nat_to_str index;
    attributeName :=
      or_else id (Str (lit "Carve-Out " ++ nat_to_str (index + 1)));
    description :=
      or_else description (Str (lit "Carve-out description not provided"));
    finding_value :=
      Str (to_string (or_else provider (Str (lit "Unknown Provider")))
           ++ lit " - "
           ++ to_string (or_else reason (Str (lit "No reason provided"))));
    pageNumbers := or_else pageNumbers one_page;
    confidence := or_else confidenceScore (Num (9 # 10)%Q);
    category := lit "Carve-Outs";
    dataType := lit "string";
    critical := false
  |}.

Definition summary_finding (summary : value) : Finding :=
  let field key :=
    (key, or_else (get_own summary key) (Str (lit "Not specified"))) in
  {|
    finding_id := lit "executive-summary";
    attributeName := Str (lit "Executive Summary");
    description := Str (lit "SOC1 Report Executive Summary");
    finding_value :=
      Obj [field (lit "reportPeriod"); field (lit "serviceOrganization");
           field (lit "auditor"); field (lit "opinion")];
    pageNumbers := one_page;
    confidence := Num 1%Q;
    category := lit "Executive Summary";
    dataType := lit "object";
    critical := false
  |}.

(** [if (list && Array.isArray(list)) list.forEach(...)]. *)
Definition findings_of (f : value -> nat -> result Finding) (arr : value)
  : result (list Finding) :=
  match arr with
  | Arr items => forEach_push f items 0
  | _ => Ok []
  end.

Definition all_categories : list str :=
  [lit "Control Failures"; lit "Exclusions"; lit "Carve-Outs";
   lit "Executive Summary"].

Definition transformSOC1Result (aiResult : value) : result Analysis :=
  controlFailures <- get aiResult (lit "controlFailures") ;;
  f1 <- findings_of controlFailure_finding controlFailures ;;
  exclusions <- get aiResult (lit "exclusions") ;;
  f2 <- findings_of exclusion_finding exclusions ;;
  carveOuts <- get aiResult (lit "carveOuts") ;;
  f3 <- findings_of carveOut_finding carveOuts ;;
  executiveSummary <- get aiResult (lit "executiveSummary") ;;
  let f4 :=
    if truthy executiveSummary then [summary_finding executiveSummary]
    else [] in
  Ok {|
    findings := f1 ++ f2 ++ f3 ++ f4;
    categories := all_categories;
    rawResult := aiResult
  |}.

(** *** createFallbackResult *)

Definition unable : value := Str (lit "Unable to extract - see raw content").

Definition createFallbackResult (content : str) : value :=
  let truncatedContent :=
    if 1000 <? length content
    then substring0 1000 content ++ lit "..." else content in
  Obj [
    (lit "executiveSummary",
     Obj [(lit "reportPeriod", unable);
          (lit "serviceOrganization", unable);
          (lit "auditor", unable);
          (lit "opinion", unable)]);
    (lit "controlFailures",
     Arr [Obj [
       (lit "id", Str (lit "fallback-control-failure-1"));
       (lit "description",
        Str (lit "Raw AI response could not be parsed as JSON. Response length: "
             ++ nat_to_str (length content)
             ++ lit " characters. Check console for full response."));
       (lit "type", Str (lit "unknown"));
       (lit "effectiveness", Str (lit "not_tested"));
       (lit "exceptions", Arr [Str (lit "JSON parsing failed")]);
       (lit "pageNumbers", Arr [Num 1%Q]);
       (lit "confidenceScore", Num (1 # 10)%Q)]]);
    (lit "exclusions",
     Arr [Obj [
       (lit "id", Str (lit "fallback-exclusion-1"));
       (lit "description",
        Str (lit "AI response parsing failed. Raw content preview: "
             ++ truncatedContent));
       (lit "reason",
        Str (lit "The local model may not be following the expected JSON format. Check console logs for the full response."));
       (lit "pageNumbers", Arr [Num 1%Q]);
       (lit "confidenceScore", Num (1 # 10)%Q)]]);
    (lit "carveOuts",
     Arr [Obj [
       (lit "id", Str (lit "fallback-carveout-1"));
       (lit "description",
        Str (lit "Unable to extract carve-outs due to JSON parsing error"));
       (lit "provider", Str (lit "Unknown"));
       (lit "reason",
        Str (lit "Local model response format issue. Check console for actual response."));
       (lit "pageNumbers", Arr [Num 1%Q]);
       (lit "confidenceScore", Num (1 # 10)%Q)]])
  ].

(** *** removeDuplicates and combineChunkResults *)

(** [items.filter(item => ...)] with the [Set] of identifiers seen so
    far: [item[idField]] throws on [null] and [undefined]. *)
Fixpoint removeDuplicates_from (seen : list value) (items : list value)
    (idField : str) : result (list value) :=
  match items with
  | [] => Ok []
  | item :: t =>
      id <- get item idField ;;
      if existsb (same_value_zero id) seen
      then removeDuplicates_from seen t idField
      else
        rest <- removeDuplicates_from (id :: seen) t idField ;;
        Ok (item :: rest)
  end.

Definition removeDuplicates (items : list value) (idField : str)
  : result (list value) :=
  removeDuplicates_from [] items idField.

(** The accumulator [combined]. *)
Record Combined : Type := mkCombined {
  c_executiveSummary : value;
  c_controlFailures : list value;
  c_exclusions : list value;
  c_carveOuts : list value
}.

(** [if (list && Array.isArray(list)) target.push(...list)]. *)
Definition push_all (target : list value) (arr : value) : list value :=
  match arr with
  | Arr items => target ++ items
  | _ => target
  end.

(** One round of the loop over the chunk results; [result] is an
    object, so [!result] is false. *)
Definition combine_step (combined : Combined) (result : Analysis)
  : Combined :=
  let raw := rawResult result in
  if negb (truthy raw) then combined
  else
    let summary := get_own raw (lit "executiveSummary") in
    {|
      c_executiveSummary :=
        if truthy summary && negb (truthy (c_executiveSummary combined))
        then summary else c_executiveSummary combined;
      c_controlFailures :=
        push_all (c_controlFailures combined)
                 (get_own raw (lit "controlFailures"));
      c_exclusions :=
        push_all (c_exclusions combined) (get_own raw (lit "exclusions"));
      c_carveOuts :=
        push_all (c_carveOuts combined) (get_own raw (lit "carveOuts"))
    |}.

Definition combined_value (summary : value) (cf ex co : list value) : value :=
  Obj [(lit "executiveSummary", summary);
       (lit "controlFailures", Arr cf);
       (lit "exclusions", Arr ex);
       (lit "carveOuts", Arr co)].

Definition no_valid_results : exn :=
  Error (lit "No valid results from any document sections").

Definition combineChunkResults (chunkResults : list Analysis)
  : result Analysis :=
  if length chunkResults =? 0 then Throw no_valid_results
  else
    let combined :=
      fold_left combine_step chunkResults (mkCombined Null [] [] []) in
    uniqueControlFailures <-
      removeDuplicates (c_controlFailures combined) (lit "id") ;;
    uniqueExclusions <- removeDuplicates (c_exclusions combined) (lit "id") ;;
    uniqueCarveOuts <- removeDuplicates (c_carveOuts combined) (lit "id") ;;
    transformSOC1Result
      (combined_value (c_executiveSummary combined) uniqueControlFailures
                      uniqueExclusions uniqueCarveOuts).

(** *** splitTextIntoChunks *)

Definition cat (rs : list re) : re := fold_right Seq Eps rs.

(** A line feed, white space, a line feed. *)
Definition re_paragraph : re :=
  cat [Chr (ch LF); Star true (Chr is_space); Chr (ch LF)].

(** One or more of a full stop, an exclamation or a question mark,
    then one or more white space characters. *)
Definition re_sentence : re :=
  cat [Plus true (Chr (one_of ".!?")); Plus true (Chr is_space)].

(** The accumulation loop, the same for paragraphs (joined by a blank
    line) and for sentences (joined by a full stop and a space):
    [chunks] and [current] are the two variables of the loop. *)
Fixpoint accumulate (maxChars : nat) (sep : str) (pieces : list str)
    (chunks : list str) (current : str) : list str * str :=
  match pieces with
  | [] => (chunks, current)
  | piece :: t =>
      if (maxChars <? length current + length piece)
         && (0 <? length current)
      then accumulate maxChars sep t (chunks ++ [trim current]) piece
      else
        accumulate maxChars sep t chunks
          (current ++ (if 0 <? length current then sep else []) ++ piece)
  end.

(** The loop and the [if (current.trim()) chunks.push(current.trim())]
    after it. *)
Definition pack (maxChars : nat) (sep : str) (pieces : list str)
    (chunks : list str) : list str :=
  let (chunks', current) := accumulate maxChars sep pieces chunks [] in
  if 0 <? length (trim current) then chunks' ++ [trim current] else chunks'.

Definition paragraph_sep : str := [LF; LF].
Definition sentence_sep : str := lit ". ".

(** One round of the second loop, [finalChunks] being the accumulator. *)
Definition resplit (maxChars : nat) (finalChunks : list str) (chunk : str)
  : list str :=
  if maxChars <? length chunk
  then pack maxChars sentence_sep (split re_sentence chunk) finalChunks
  else finalChunks ++ [chunk].

Definition splitTextIntoChunks (text : str) (maxTokens : nat) : list str :=
  let maxChars := maxTokens * 4 in
  let paragraphs := split re_paragraph text in
  let chunks := pack maxChars paragraph_sep paragraphs [] in
  fold_left (resplit maxChars) chunks [].

(** *** extractFromNaturalLanguage *)

Definition not_dot_nl (c : ascii) : bool :=
  negb (Ascii.eqb c "." || Ascii.eqb c LF).

Definition colon_or_space (c : ascii) : bool :=
  Ascii.eqb c ":" || is_space c.

(** The label under the [i] flag, colons and white space, then a group
    of one or more characters other than a full stop and a line feed. *)
Definition labelled (label : string) : re :=
  cat [text_i label; Star true (Chr colon_or_space);
       Group 1 (Plus true (Chr not_dot_nl))].

(** The keyword, lazily characters other than a full stop, then a group
    of one or more characters other than a full stop and a line feed. *)
Definition sentence_with (keyword : re) : re :=
  cat [keyword; Star false (Chr (none_of "."));
       Group 1 (Plus true (Chr not_dot_nl))].

Definition serviceOrgPatterns : list re :=
  [labelled "service organization"; labelled "organization";
   labelled "company"; labelled "entity"].

Definition auditorPatterns : list re :=
  [labelled "auditor"; labelled "audit firm"; labelled "cpa firm";
   labelled "examiner"].

Definition periodPatterns : list re :=
  [labelled "report period"; labelled "period"; labelled "as of";
   labelled "through"].

Definition opinionPatterns : list re :=
  [labelled "opinion"; text_i "unqualified"; text_i "qualified";
   text_i "adverse"; text_i "disclaimer"].

Definition not_specified : str := lit "Not specified".

(** The loop over the patterns of a field: the first pattern whose
    group, trimmed, has more than two characters sets the field. *)
Fixpoint first_labelled (patterns : list re) (content : str) (field : str)
  : str :=
  match patterns with
  | [] => field
  | pattern :: t =>
      match match_first pattern content with
      | Some m =>
          match cap 1 (groups m) with
          | Some g =>
              if 2 <? length (trim g) then trim g
              else first_labelled t content field
          | None => first_labelled t content field
          end
      | None => first_labelled t content field
      end
  end.

(** The loop over the opinion patterns: the first pattern that matches
    sets the field, from its group when it has one. *)
Fixpoint first_opinion (patterns : list re) (content : str) (field : str)
  : str :=
  match patterns with
  | [] => field
  | pattern :: t =>
      match match_first pattern content with
      | Some m =>
          match cap 1 (groups m) with
          | Some (c :: g) => trim (c :: g)
          | _ => trim (matched m)
          end
      | None => first_opinion t content field
      end
  end.

(** [matches.forEach((match, index) => list.push(entry(match, index)))]. *)
Fixpoint entries (entry : str -> nat -> value) (matches : list str)
    (index : nat) : list value :=
  match matches with
  | [] => []
  | m :: t => entry m index :: entries entry t (S index)
  end.

Definition extracted_controlFailure (m : str) (index : nat) : value :=
  Obj [(lit "id",
        Str (lit "extracted-control-failure-" ++ nat_to_str (index + 1)));
       (lit "description", Str (trim m));
       (lit "type", Str (lit "unknown"));
       (lit "effectiveness", Str (lit "not_tested"));
       (lit "exceptions", Arr [Str (lit "Extracted from natural language")]);
       (lit "pageNumbers", Arr [Num 1%Q]);
       (lit "confidenceScore", Num (7 # 10)%Q)].

Definition extracted_exclusion (m : str) (index : nat) : value :=
  Obj [(lit "id", Str (lit "extracted-exclusion-" ++ nat_to_str (index + 1)));
       (lit "description", Str (trim m));
       (lit "reason", Str (lit "Extracted from natural language response"));
       (lit "pageNumbers", Arr [Num 1%Q]);
       (lit "confidenceScore", Num (7 # 10)%Q)].

Definition extracted_carveOut (m : str) (index : nat) : value :=
  Obj [(lit "id", Str (lit "extracted-carveout-" ++ nat_to_str (index + 1)));
       (lit "description", Str (trim m));
       (lit "provider", Str (lit "Unknown"));
       (lit "reason", Str (lit "Extracted from natural language response"));
       (lit "pageNumbers", Arr [Num 1%Q]);
       (lit "confidenceScore", Num (7 # 10)%Q)].

(** The record, or [null] when nothing was found. *)
Definition extractFromNaturalLanguage (content : str) : value :=
  let serviceOrganization :=
    first_labelled serviceOrgPatterns content not_specified in
  let auditor := first_labelled auditorPatterns content not_specified in
  let reportPeriod := first_labelled periodPatterns content not_specified in
  let opinion := first_opinion opinionPatterns content not_specified in
  let controlFailures :=
    entries extracted_controlFailure
      (match_all (sentence_with (text_i "control failure")) content) 0 in
  let exclusions :=
    entries extracted_exclusion
      (match_all (sentence_with (text_i "exclusion")) content) 0 in
  let carveOuts :=
    entries extracted_carveOut
      (match_all
         (sentence_with (cat [text_i "carve"; Chr dot; text_i "out"]))
         content) 0 in
  let hasContent :=
    negb (str_eqb serviceOrganization not_specified)
    || negb (str_eqb auditor not_specified)
    || (0 <? length controlFailures)
    || (0 <? length exclusions)
    || (0 <? length carveOuts) in
  if hasContent then
    Obj [(lit "executiveSummary",
          Obj [(lit "reportPeriod", Str reportPeriod);
               (lit "serviceOrganization", Str serviceOrganization);
               (lit "auditor", Str auditor);
               (lit "opinion", Str opinion)]);
         (lit "controlFailures", Arr controlFailures);
         (lit "exclusions", Arr exclusions);
         (lit "carveOuts", Arr carveOuts)]
  else Null.

(** *** The parsing strategies of analyzeSingleChunk *)

(** From an opening brace to the last closing brace. *)
Definition re_braces : re :=
  cat [Chr (ch "{"); Star true (Chr any); Chr (ch "}")].

(** A fenced block: three backquotes, an optional [json], white space,
    a group from an opening brace lazily to a closing brace, white
    space, three backquotes. *)
Definition re_fenced : re :=
  cat [text "```"; Opt (text "json"); Star true (Chr is_space);
       Group 1 (cat [Chr (ch "{"); Star false (Chr any); Chr (ch "}")]);
       Star true (Chr is_space); text "```"].

(** What precedes the first opening brace; what follows the last
    closing brace. *)
Definition re_head : re := cat [Bol; Star true (Chr (none_of "{"))].
Definition re_tail : re := cat [Star true (Chr (none_of "}")); Eol].

(** A comma, white space, a closing brace (or bracket). *)
Definition re_comma_brace : re :=
  cat [Chr (ch ","); Star true (Chr is_space); Chr (ch "}")].
Definition re_comma_bracket : re :=
  cat [Chr (ch ","); Star true (Chr is_space); Chr (ch "]")].

(** An opening brace or a comma with the white space after it, then a
    word and a colon: two groups. *)
Definition re_bare_key : re :=
  cat [Group 1 (cat [Chr (one_of "{,"); Star true (Chr is_space)]);
       Group 2 (Plus true (Chr is_word)); Chr (ch ":")].

(** A colon and white space, then a group that starts with a character
    other than a quote, a comma, an opening brace or bracket and white
    space and goes on, lazily, with characters other than a comma and a
    closing brace or bracket, then one of those three as a second group. *)
Definition re_bare_value : re :=
  cat [Chr (ch ":"); Star true (Chr is_space);
       Group 1 (cat [Chr (fun c => none_of ",{[" c && negb (Ascii.eqb c DQ)
                                 && negb (is_space c));
                     Star false (Chr (none_of ",}]"))]);
       Group 2 (Chr (one_of ",}]"))].

(** [$n] of a replacement template. *)
Definition group (n : nat) (m : found) : str :=
  match cap n (groups m) with
  | Some g => g
  | None => []
  end.

Definition erase (_ : found) : str := [].

(** [if (!result) { try { result = attempt } catch (e) { } }], the
    attempt being [None] when nothing is assigned. *)
Definition or_try (result : value) (attempt : option value) : value :=
  if truthy result then result
  else match attempt with
       | Some v => v
       | None => result
       end.

Definition strategy1 (content : str) : option value :=
  match match_first re_braces content with
  | Some jsonMatch => JSON.parse (matched jsonMatch)
  | None => None
  end.

Definition strategy2 (content : str) : option value := JSON.parse content.

Definition strategy3 (content : str) : option value :=
  match match_first re_fenced content with
  | Some codeBlockMatch => JSON.parse (group 1 codeBlockMatch)
  | None => None
  end.

Definition braced (cleanedContent : str) : bool :=
  startsWith cleanedContent (lit "{") && endsWith cleanedContent (lit "}").

Definition strategy4 (content : str) : option value :=
  let cleanedContent :=
    trim (replace_first re_tail erase (replace_first re_head erase content)) in
  if braced cleanedContent then JSON.parse cleanedContent else None.

Definition strategy5 (content : str) : option value :=
  let cleanedContent :=
    trim
      (replace_all re_comma_bracket (fun _ => lit "]")
         (replace_all re_comma_brace (fun _ => lit "}")
            (replace_all re_paragraph (fun _ => [LF])
               (replace_first re_tail erase
                  (replace_first re_head erase content))))) in
  let cleanedContent :=
    replace_all re_bare_value
      (fun m => lit ": " ++ [DQ] ++ group 1 m ++ [DQ] ++ group 2 m)
      (replace_all re_bare_key
         (fun m => group 1 m ++ [DQ] ++ group 2 m ++ [DQ] ++ lit ":")
         cleanedContent) in
  if braced cleanedContent then JSON.parse cleanedContent else None.

(** The value of [result] after the strategies. *)
Definition parse_strategies (useLocalModel : bool) (content : str) : value :=
  let result := or_try Null (strategy1 content) in
  let result := or_try result (strategy2 content) in
  let result := or_try result (strategy3 content) in
  let result := or_try result (strategy4 content) in
  if useLocalModel then or_try result (strategy5 content) else result.

(** The body of the inner [try]: from the normalised content to the
    value returned. *)
Definition parse_content (useLocalModel : bool) (content : str)
  : result Analysis :=
  let result := parse_strategies useLocalModel content in
  if truthy result then transformSOC1Result result
  else
    let result := extractFromNaturalLanguage content in
    if truthy result then transformSOC1Result result
    else transformSOC1Result (createFallbackResult content).

(** The inner [try] with its [catch (parseError)]. *)
Definition parse_response (useLocalModel : bool) (content : str)
  : result Analysis :=
  try_catch (parse_content useLocalModel content)
    (fun parseError =>
       Throw (Error (lit "AI response could not be parsed as valid JSON: "
                     ++ message parseError))).

(** *** safeStringify and normalizeContent *)

Definition maxDepth : nat := 3.

Definition hex_digit (n : nat) : ascii :=
  if n <? 10 then ascii_of_nat (48 + n) else ascii_of_nat (87 + n).

(** QuoteJSONString. *)
Definition quote_char (c : ascii) : str :=
  let n := code c in
  if n =? 8 then lit "\b"
  else if n =? 9 then lit "\t"
  else if n =? 10 then lit "\n"
  else if n =? 12 then lit "\f"
  else if n =? 13 then lit "\r"
  else if n =? 34 then ["\"%char; DQ]
  else if n =? 92 then lit "\\"
  else if n <? 32 then lit "\u00" ++ [hex_digit (n / 16); hex_digit (n mod 16)]
  else [c].

Definition quote (s : str) : str := [DQ] ++ flat_map quote_char s ++ [DQ].

Definition depth_marker : str := lit "[Max Depth Reached]".
Definition array_marker : str :=
  lit "[Array Truncated - showing first 100 items]".

(** What the replacer makes of a string when [depth] objects were
    visited before it. *)
Definition replaced_string (s : str) (depth : nat) : str :=
  if maxDepth <? depth then depth_marker
  else if 1000 <? length s
       then substring0 1000 s ++ lit "...[Truncated]" else s.

(** The members of a non-empty object or array, laid out with the
    indentation [inner] inside and [outer] outside. *)
Definition layout (open close : str) (outer inner : str) (parts : list str)
  : str :=
  match parts with
  | [] => open ++ close
  | _ =>
      open ++ [LF] ++ inner ++ join (lit "," ++ [LF] ++ inner) parts
      ++ [LF] ++ outer ++ close
  end.

(** [JSON.stringify(obj, replacer, 2)] with the replacer of
    [safeStringify], at the property value [v]: the text of the
    property ([None] when it is left out) and the counter [depth] of
    the replacer after it.  The values are trees, so the set [seen] of
    the replacer never holds the object it is asked for.  An array of
    more than 100 elements is replaced by its first 100 elements and
    the marker, which the traversal meets at index 100. *)
Fixpoint serialize (indent : str) (v : value) (depth : nat)
  : option str * nat :=
  if maxDepth <? depth then (Some (quote depth_marker), depth)
  else
    match v with
    | Undefined => (None, depth)
    | Null => (Some (lit "null"), depth)
    | Bool true => (Some (lit "true"), depth)
    | Bool false => (Some (lit "false"), depth)
    | Num q => (Some (number_toString q), depth)
    | Str s => (Some (quote (replaced_string s depth)), depth)
    | Arr items =>
        let inner := indent ++ lit "  " in
        let truncated := 100 <? length items in
        let (parts, depth') :=
          (fix elements (l : list value) (i : nat) (d : nat) {struct l}
             : list str * nat :=
             match l with
             | [] => ([], d)
             | x :: t =>
                 if truncated && (i =? 100)
                 then ([quote (replaced_string array_marker d)], d)
                 else
                   let (sx, d1) := serialize inner x d in
                   let (rest, d2) := elements t (S i) d1 in
                   (match sx with
                    | Some text => text
                    | None => lit "null"
                    end :: rest, d2)
             end) items 0 (S depth) in
        (Some (layout (lit "[") (lit "]") indent inner parts), depth')
    | Obj props =>
        let inner := indent ++ lit "  " in
        let (parts, depth') :=
          (fix members (l : list (str * value)) (d : nat) {struct l}
             : list str * nat :=
             match l with
             | [] => ([], d)
             | (key, x) :: t =>
                 let (sx, d1) := serialize inner x d in
                 let (rest, d2) := members t d1 in
                 (match sx with
                  | Some text => (quote key ++ lit ": " ++ text) :: rest
                  | None => rest
                  end, d2)
             end) props (S depth) in
        (Some (layout (lit "{") (lit "}") indent inner parts), depth')
    end.

(** [None] is the [undefined] that [JSON.stringify] answers on
    [undefined]. *)
Definition safeStringify (obj : value) : option str :=
  fst (serialize [] obj 0).

(** [typeof v === 'string' && v.trim()]. *)
Definition nonblank_string (v : value) : option str :=
  match v with
  | Str s => if 0 <? length (trim s) then Some s else None
  | _ => None
  end.

(** [typeof part === 'string' ? part : part?.text ?? ''], then the
    conversion [join] applies to it. *)
Definition part_text (part : value) : str :=
  match part with
  | Str s => s
  | _ =>
      let text := coalesce (get_opt part (lit "text")) (Str []) in
      if nullish text then [] else to_string text
  end.

(** [Object.keys(v).length]. *)
Definition keys_count (v : value) : nat :=
  match v with
  | Obj props => length props
  | Arr items => length items
  | Str s => length s
  | _ => 0
  end.

Definition normalizeContent (payload : value) : option str :=
  let choices := get_opt payload (lit "choices") in
  let choice := coalesce (get_opt choices (lit "0")) (Obj []) in
  let message := coalesce (get_own choice (lit "message")) (Obj []) in
  match nonblank_string (get_own message (lit "content")) with
  | Some content => Some content
  | None =>
      match nonblank_string (get_own choice (lit "content")) with
      | Some content => Some content
      | None =>
          let joined :=
            match get_own message (lit "content") with
            | Arr parts => concat (map part_text parts)
            | _ => []
            end in
          if 0 <? length (trim joined) then Some joined
          else if truthy message && (0 <? keys_count message)
          then safeStringify message
          else safeStringify payload
      end
  end.

(** *** analyzeSingleChunk, analyzeMultipleChunks, analyzeSOC1Report *)

Variable useLocalModel : bool.

(** The exchange with the model for a text and a model identifier: the
    decoded body of the response, or what the request block throws. *)
Variable request : str -> str -> result value.

(** The outer [catch (error)] of analyzeSingleChunk. *)
Definition classify (error : exn) : exn :=
  let m := message error in
  if includes m (lit "fetch") || includes m (lit "network")
     || includes m (lit "timeout") || includes m (lit "connection")
     || includes m (lit "Failed to fetch")
  then Error (lit "Network connection failed. Please check your internet connection and try again.")
  else if includes m (lit "token") || includes m (lit "length")
          || includes m (lit "context") || includes m (lit "too large")
  then Error (lit "The PDF document is too large for analysis. Please try with a shorter document or split it into smaller sections.")
  else error.

Definition unparsed (parseError : exn) : exn :=
  Error (lit "AI response could not be parsed as valid JSON: "
         ++ message parseError).

Definition analyzeSingleChunk (pdfText modelId : str) : result Analysis :=
  try_catch
    (data <- request pdfText modelId ;;
     choices <- get data (lit "choices") ;;
     if negb (truthy choices)
        || strict_eq_num (get_own choices (lit "length")) 0%Q
     then Throw (Error (lit "No response from AI model"))
     else
       match normalizeContent data with
       | Some content => parse_response useLocalModel content
       | None =>
           Throw (unparsed (TypeError
             (lit "Cannot read properties of undefined (reading 'match')")))
       end)
    (fun error => Throw (classify error)).

(** The loop over the chunks: the results of the chunks that succeed,
    in order, and the warnings logged for the others. *)
Fixpoint analyze_chunks (chunks : list str) (modelId : str) (i : nat)
  : list Analysis * list (nat * exn) :=
  match chunks with
  | [] => ([], [])
  | chunk :: t =>
      let (chunkResults, warnings) := analyze_chunks t modelId (S i) in
      match analyzeSingleChunk chunk modelId with
      | Ok chunkResult => (chunkResult :: chunkResults, warnings)
      | Throw error => (chunkResults, (i + 1, error) :: warnings)
      end
  end.

Definition maxTokensPerChunk : nat := 25000.

Definition analyzeMultipleChunks (pdfText modelId : str)
  : result Analysis * list (nat * exn) :=
  let chunks := splitTextIntoChunks pdfText maxTokensPerChunk in
  let (chunkResults, warnings) := analyze_chunks chunks modelId 0 in
  (combineChunkResults chunkResults, warnings).

(** [Math.ceil(pdfText.length / 4)]. *)
Definition estimatedTokens (pdfText : str) : nat := (length pdfText + 3) / 4.

Definition analyzeSOC1Report (pdfText modelId : str) : result Analysis :=
  if estimatedTokens pdfText <=? maxTokensPerChunk
  then analyzeSingleChunk pdfText modelId
  else fst (analyzeMultipleChunks pdfText modelId).

End API.

(** [Number.prototype.toString] on the integers, for closed examples. *)
Definition print_integer (q : Q) : str :=
  lit (NilZero.string_of_int (Z.to_int (Qnum q / Zpos (Qden q)))).

End OpenRouterAPI.

(** ** PDFProcessor: the tables as text, and the pages of a document *)

Module PDFDocument.
Import PDFProcessor.

(** [table.cells.find(c => c.row === row && c.col === col)]. *)
Definition find_cell (table : Table) (row col : nat) : option TableCell :=
  find (fun c => (cell_row c =? row) && (cell_col c =? col)) (cells table).

(** The two nested loops over [table.rows] and [table.columns]. *)
Definition convertTableToArray (table : Table) : list (list str) :=
  map (fun row =>
         map (fun col =>
                match find_cell table row col with
                | Some cell => cell_text cell
                | None => []
                end)
             (seq 0 (table_columns table)))
      (seq 0 (table_rows table)).

(** One round of the inner loop of [convertTableToHTML]. *)
Definition html_cell (table : Table) (row col : nat) : str :=
  let cellText :=
    match find_cell table row col with
    | Some cell => trim (cell_text cell)
    | None => []
    end in
  let tag := if row =? 0 then lit "th" else lit "td" in
  lit "    <" ++ tag ++ lit ">" ++ cellText ++ lit "</" ++ tag ++ lit ">"
  ++ newline.

(** One round of the outer loop. *)
Definition html_row (table : Table) (row : nat) : str :=
  lit "  <tr>" ++ newline
  ++ concat (map (html_cell table row) (seq 0 (table_columns table)))
  ++ lit "  </tr>" ++ newline.

Definition convertTableToHTML (table : Table) : str :=
  lit "<table>" ++ newline
  ++ concat (map (html_row table) (seq 0 (table_rows table)))
  ++ lit "</table>".

(** The filter of [getTablesAsStructuredData]. *)
Definition relevant (table : Table) : bool :=
  (2 <=? table_rows table) && (2 <=? table_columns table)
  && (50 <? length (rawText table)).

(** One round of its [forEach]. *)
Definition table_block (table : Table) : str :=
  newline ++ lit "Table " ++ table_id table ++ lit " (Page "
  ++ nat_to_str (pageNumber table) ++ lit "):" ++ newline
  ++ convertTableToHTML table ++ newline.

Definition tables_heading : str :=
  newline ++ newline ++ lit "=== DETECTED TABLES ===" ++ newline.

Definition getTablesAsStructuredData (tables : list Table) : str :=
  if length tables =? 0 then []
  else
    let relevantTables := filter relevant tables in
    if length relevantTables =? 0 then []
    else
      tables_heading ++ concat (map table_block relevantTables) ++ newline.

(** *** processPDF *)

(** What the document reader gives: for each page its text items, or
    the error that reading the page raised; and the metadata, or the
    error of [getMetadata]. *)
Record Document : Type := mkDocument {
  doc_pages : list (result (list TextItem));
  doc_metadata : result value
}.

Record PDFInfo : Type := mkInfo {
  totalPages : nat;
  text : str;
  tables : list Table;
  metadata : value
}.

Definition page_heading (pageNum : nat) : str :=
  newline ++ lit "--- Page " ++ nat_to_str pageNum ++ lit " ---" ++ newline.

(** The loop over the pages from [pageNum] on, [fullText] and
    [allTables] being its two variables. *)
Fixpoint read_pages (pages : list (result (list TextItem))) (pageNum : nat)
    (fullText : str) (allTables : list Table) : str * list Table :=
  match pages with
  | [] => (fullText, allTables)
  | Ok items :: rest =>
      let pageText := join (lit " ") (map item_str items) in
      let pageTables := extractTablesFromPage items pageNum in
      read_pages rest (S pageNum)
        (fullText ++ page_heading pageNum ++ pageText ++ newline)
        (allTables ++ pageTables)
  | Throw _ :: rest =>
      read_pages rest (S pageNum)
        (fullText ++ page_heading pageNum
         ++ lit "[Error reading page content]" ++ newline)
        allTables
  end.

Definition worker_blocked : str :=
  lit "PDF processing is blocked by browser security settings. Please try one of these solutions:"
  ++ newline ++ newline
  ++ lit "1. Refresh the page and try again" ++ newline
  ++ lit "2. Use a different browser (Chrome, Firefox, Safari)" ++ newline
  ++ lit "3. Disable CORS in your browser (for development only)" ++ newline
  ++ lit "4. Use the application in a different environment" ++ newline
  ++ newline
  ++ lit "This is a known limitation when loading PDF.js workers from external CDNs.".

(** The outer [catch (error)] of [processPDF]. *)
Definition processing_error (error : exn) : exn :=
  let m := message error in
  if includes m (lit "worker") then Error worker_blocked
  else if includes m (lit "Invalid PDF")
  then Error (lit "The uploaded file is not a valid PDF or is corrupted.")
  else if includes m (lit "password")
  then Error (lit "This PDF is password-protected and cannot be processed.")
  else Error (lit "Failed to process PDF: " ++ m).

(** [loaded] is what [getDocument(...).promise] gives. *)
Definition processPDF (loaded : result Document) : result PDFInfo :=
  match loaded with
  | Throw error => Throw (processing_error error)
  | Ok pdf =>
      let (fullText, allTables) := read_pages (doc_pages pdf) 1 [] [] in
      Ok {|
        totalPages := length (doc_pages pdf);
        text := trim fullText;
        tables := allTables;
        metadata :=
          match doc_metadata pdf with
          | Ok info => info
          | Throw _ => Null
          end
      |}
  end.

End PDFDocument.

(** ** config.ts: the configuration of the client *)

Module Config.

(** A property of a [Partial<APIConfig>]: absent, or present with a
    value that may be [undefined]. *)
Inductive field (T : Type) : Type :=
| Absent
| Present (v : option T).
Arguments Absent {T}.

Record PartialConfig : Type := mkPartial {
  p_useLocalModel : field bool;
  p_apiKey : field str;
  p_localEndpointUrl : field str;
  p_localModelName : field str
}.

(** An [APIConfig] as it is at run time: a property holds its value or
    [undefined]. *)
Record APIConfig : Type := mkConfig {
  useLocalModel : option bool;
  apiKey : option str;
  localEndpointUrl : option str;
  localModelName : option str
}.

Definition DEFAULT_CONFIG : APIConfig := {|
  useLocalModel := Some true;
  apiKey := Some [];
  localEndpointUrl := Some (lit "http://localhost:11434/v1");
  localModelName := Some (lit "llama3.1:8b")
|}.

(** The four variables of [import.meta.env] that the module reads, each
    a string or [undefined]. *)
Record Env : Type := mkEnv {
  VITE_USE_LOCAL_MODEL : option str;
  VITE_API_KEY : option str;
  VITE_LOCAL_ENDPOINT_URL : option str;
  VITE_LOCAL_MODEL_NAME : option str
}.

(** [if (v) config.key = v]. *)
Definition when_set (v : option str) : field str :=
  match v with
  | Some s => if length s =? 0 then Absent else Present (Some s)
  | None => Absent
  end.

Definition getConfigFromEnv (env : Env) : PartialConfig := {|
  p_useLocalModel :=
    match VITE_USE_LOCAL_MODEL env with
    | Some s => Present (Some (str_eqb s (lit "true") || str_eqb s (lit "1")))
    | None => Absent
    end;
  p_apiKey := when_set (VITE_API_KEY env);
  p_localEndpointUrl := when_set (VITE_LOCAL_ENDPOINT_URL env);
  p_localModelName := when_set (VITE_LOCAL_MODEL_NAME env)
|}.

(** One property of [{ ...base, ...source }]. *)
Definition spread_field {T : Type} (base : option T) (source : field T)
  : option T :=
  match source with
  | Absent => base
  | Present v => v
  end.

Definition spread (base : APIConfig) (source : PartialConfig) : APIConfig := {|
  useLocalModel := spread_field (useLocalModel base) (p_useLocalModel source);
  apiKey := spread_field (apiKey base) (p_apiKey source);
  localEndpointUrl :=
    spread_field (localEndpointUrl base) (p_localEndpointUrl source);
  localModelName := spread_field (localModelName base) (p_localModelName source)
|}.

Definition no_overrides : PartialConfig := mkPartial Absent Absent Absent Absent.

Definition getAPIConfig (env : Env) (overrides : PartialConfig) : APIConfig :=
  let envConfig := getConfigFromEnv env in
  spread (spread DEFAULT_CONFIG envConfig) overrides.

(** Truthiness of a flag and of a string that may be [undefined]. *)
Definition flag (v : option bool) : bool :=
  match v with
  | Some b => b
  | None => false
  end.

Definition given (v : option str) : bool :=
  match v with
  | Some s => negb (length s =? 0)
  | None => false
  end.

(** [v || ''] on a string that may be [undefined]. *)
Definition or_empty (v : option str) : str :=
  match v with
  | Some s => s
  | None => []
  end.

Record Validation : Type := mkValidation {
  isValid : bool;
  errors : list str
}.

Section Validate.

(** Whether [new URL(text)] returns, rather than throws. *)
Variable URL_parses : str -> bool.

Definition push_if (condition : bool) (error : str) (errors : list str)
  : list str :=
  if condition then errors ++ [error] else errors.

Definition validateConfig (config : APIConfig) : Validation :=
  let errors :=
    push_if (negb (given (apiKey config)) && negb (flag (useLocalModel config)))
            (lit "API key is required for OpenRouter") [] in
  let errors :=
    if flag (useLocalModel config) then
      let errors :=
        push_if (negb (given (localEndpointUrl config)))
                (lit "Local endpoint URL is required when using local models")
                errors in
      let errors :=
        push_if (negb (given (localModelName config)))
                (lit "Local model name is required when using local models")
                errors in
      push_if (negb (URL_parses (or_empty (localEndpointUrl config))))
              (lit "Invalid local endpoint URL format") errors
    else errors in
  {| isValid := length errors =? 0; errors := errors |}.

End Validate.

Definition getDefaultModel (useLocalModel : bool) : str :=
  if useLocalModel then
    match localModelName DEFAULT_CONFIG with
    | Some name => if length name =? 0 then lit "llama3.1:8b" else name
    | None => lit "llama3.1:8b"
    end
  else lit "google/gemini-2.0-flash-exp:free".

End Config.

(** ** OpenRouterAPI: the response of the service *)

Module Http.
Import OpenRouterAPI.

(** What [fetch] resolves to, as far as the client reads it: [ok],
    [status], [statusText], and the outcome of [response.json()]. *)
Record Response : Type := mkResponse {
  ok : bool;
  status : nat;
  statusText : str;
  json : result value
}.

Section Respond.
Variable number_toString : Q -> str.

(** [errorMessage.includes(text)], [errorMessage] being any value that
    is truthy or the empty string. *)
Definition includes_of (errorMessage : value) (text : str) : result bool :=
  match errorMessage with
  | Str s => Ok (includes s text)
  | Arr items => Ok (existsb (same_value_zero (Str text)) items)
  | _ => Throw (TypeError (lit "errorMessage.includes is not a function"))
  end.

(** [a || b] on two calls that may throw. *)
Definition or_includes (errorMessage : value) (texts : list str)
  : result bool :=
  fold_left
    (fun found text =>
       f <- found ;;
       if (f : bool) then Ok true else includes_of errorMessage text)
    texts (Ok false).

Definition too_large : exn :=
  Error (lit "The PDF document is too large for analysis. Please try with a shorter document or split it into smaller sections.").
Definition rate_limited : exn :=
  Error (lit "API rate limit exceeded. Please wait a moment and try again.").
Definition unavailable : exn :=
  Error (lit "The AI service is temporarily unavailable. Please try again later.").

(** [errorData.error?.message]. *)
Definition error_message (errorData : value) : result value :=
  error <- get errorData (lit "error") ;;
  Ok (get_opt error (lit "message")).

(** The block [if (!response.ok) { ... }]. *)
Definition reject (response : Response) : result value :=
  let errorData :=
    match json response with
    | Ok data => data
    | Throw _ => Obj []
    end in
  checked <-
    (if status response =? 400 then
       message <- error_message errorData ;;
       let errorMessage := or_else message (Str []) in
       long <- or_includes errorMessage
                 [lit "token"; lit "length"; lit "context"; lit "too long";
                  lit "exceeded"] ;;
       if (long : bool) then Throw too_large
       else
         rate <- or_includes errorMessage [lit "rate"; lit "limit"] ;;
         if (rate : bool) then Throw rate_limited else Ok tt
     else Ok tt) ;;
  if 500 <=? status response then Throw unavailable
  else
    message <- error_message errorData ;;
    Throw (Error (lit "API request failed: " ++ nat_to_str (status response)
                  ++ lit " - "
                  ++ to_string number_toString
                       (or_else message (Str (statusText response))))).

(** From the response to the decoded body. *)
Definition respond (response : Response) : result value :=
  if ok response then json response else reject response.

(** The exchange with the service: [fetch] for a text and a model, then
    the reading of the response. *)
Definition request_of (fetch : str -> str -> result Response)
    (pdfText modelId : str) : result value :=
  response <- fetch pdfText modelId ;;
  respond response.

End Respond.

End Http.

(** * Properties of the table reconstruction *)

Module TableProofs.
Import PDFProcessor.

(** Rows as the data model has them: items in ascending x order. *)
Definition sorted_by_x (row : Row) : Prop :=
  Sorted (fun a b => (item_x a <= item_x b)%Q) row.








Lemma of_nat_pos (n : nat) : 0 < n -> (0 < of_nat n)%Q.
Proof.
  intro H. unfold of_nat, Qlt. simpl. lia.
Qed.








Lemma fold_Qplus_nonneg (l : list Q) (acc : Q) :
  (0 <= acc)%Q -> Forall (fun g => (0 <= g)%Q) l ->
  (0 <= fold_left Qplus l acc)%Q.
Proof.
  revert acc. induction l as [|g t IH]; intros acc Ha Hl; simpl; [exact Ha|].
  inversion Hl; subst. apply IH; [|assumption].
  rewrite <- (Qplus_0_r 0). apply Qplus_le_compat; assumption.
Qed.

Lemma sorted_gaps_nonneg (row : Row) :
  sorted_by_x row -> Forall (fun g => (0 <= g)%Q) (row_gaps row).
Proof.
  unfold sorted_by_x, row_gaps.
  induction row as [|a [|b t] IH]; intro H; simpl; try constructor.
  - inversion H as [|? ? Hs Hh]; subst. inversion Hh; subst.
    unfold Qminus. rewrite <- Qle_minus_iff. assumption.
  - apply IH. inversion H; assumption.
Qed.

Lemma sorted_avgGap_nonneg (row : Row) :
  sorted_by_x row -> (0 <= avgGap (row_gaps row))%Q.
Proof.
  intro H. unfold avgGap, sum.
  pose proof (fold_Qplus_nonneg (Qle_refl 0) (sorted_gaps_nonneg H)) as Hs.
  destruct (length (row_gaps row)) as [|n] eqn:E.
  - unfold of_nat. simpl. unfold Qdiv. simpl. rewrite Qmult_0_r. apply Qle_refl.
  - apply Qle_shift_div_l.
    + apply of_nat_pos. lia.
    + rewrite Qmult_0_l. exact Hs.
Qed.


Lemma isTableRow_short (row : Row) :
  length row < MIN_TABLE_COLS -> isTableRow row = false.
Proof.
  intro H. unfold isTableRow. apply Nat.ltb_lt in H. rewrite H. reflexivity.
Qed.



Definition qualifying (r : Row) : Prop := isTableRow r = true.

(** [pre] is empty or its last row does not qualify. *)
Definition ends_unqualified (pre : list Row) : Prop :=
  forall pre' r, pre = pre' ++ [r] -> isTableRow r = false.

(** [post] is empty or its first row does not qualify. *)
Definition starts_unqualified (post : list Row) : Prop :=
  forall r post', post = r :: post' -> isTableRow r = false.

(** The candidate is a run of qualifying rows of [rows] that cannot be
    extended on either side, with the indices of its first and last row. *)
Definition maximal_run (rows : list Row) (c : Candidate) : Prop :=
  exists pre post,
    rows = pre ++ cand_rows c ++ post /\
    Forall qualifying (cand_rows c) /\
    ends_unqualified pre /\
    starts_unqualified post /\
    startIndex c = length pre /\
    endIndex c = length pre + length (cand_rows c) - 1.

Definition before (c1 c2 : Candidate) : Prop := endIndex c1 < startIndex c2.

Section WhileFacts.
Variable A : Type.
Variable p : A -> bool.

Lemma takeWhile_dropWhile (l : list A) : takeWhile p l ++ dropWhile p l = l.
Proof.
  induction l as [|x t IH]; simpl; [reflexivity|].
  destruct (p x); simpl; [rewrite IH|]; reflexivity.
Qed.

Lemma takeWhile_all (l : list A) : Forall (fun x => p x = true) (takeWhile p l).
Proof.
  induction l as [|x t IH]; simpl; [constructor|].
  destruct (p x) eqn:E; constructor; assumption.
Qed.

Lemma dropWhile_head (l : list A) x t : dropWhile p l = x :: t -> p x = false.
Proof.
  induction l as [|y l' IH]; simpl; [discriminate|].
  destruct (p y) eqn:E; [exact IH|].
  intro H. injection H as -> _. exact E.
Qed.

(** A prefix of satisfying elements followed by a rest that is empty or
    starts with a failing one is what the [while] loop takes. *)
Lemma run_unique (run post : list A) :
  Forall (fun x => p x = true) run ->
  (forall x t, post = x :: t -> p x = false) ->
  takeWhile p (run ++ post) = run /\ dropWhile p (run ++ post) = post.
Proof.
  intros Hr Hp. induction Hr as [|x run Hx Hr IH]; simpl.
  - destruct post as [|y t]; [split; reflexivity|].
    simpl. rewrite (Hp y t eq_refl). split; reflexivity.
  - rewrite Hx. destruct IH as [-> ->]. split; reflexivity.
Qed.
End WhileFacts.

Lemma app_split_le (A : Type) (l1 l2 l3 l4 : list A) :
  l1 ++ l2 = l3 ++ l4 -> length l1 <= length l3 ->
  exists m, l3 = l1 ++ m /\ l2 = m ++ l4.
Proof.
  revert l3. induction l1 as [|x l1 IH]; intros l3 H Hl; simpl in *.
  - exists l3. split; [reflexivity | exact H].
  - destruct l3 as [|y l3]; simpl in *; [lia|].
    injection H as -> H. destruct (IH l3 H) as [m [-> ->]]; [lia|].
    exists m. split; reflexivity.
Qed.

Lemma candidate_eta (c : Candidate) :
  c = mkCandidate (cand_rows c) (startIndex c) (endIndex c).
Proof. destruct c; reflexivity. Qed.

Lemma Forall_last_qualifying (m : list Row) m' r :
  Forall qualifying m -> m = m' ++ [r] -> isTableRow r = true.
Proof.
  intros H ->. apply Forall_app in H. destruct H as [_ H].
  inversion H; assumption.
Qed.

Lemma detect_from_spec (n : nat) :
  forall suf, length suf <= n ->
  forall pre, ends_unqualified pre \/ starts_unqualified suf ->
  forall c,
    In c (detect_from (length pre) suf) <->
    (maximal_run (pre ++ suf) c /\
     MIN_TABLE_ROWS <= length (cand_rows c) /\
     length pre <= startIndex c).
Proof.
  unfold MIN_TABLE_ROWS.
  induction n as [|n IH]; intros suf Hn pre Hinv c.
  - destruct suf; [|simpl in Hn; lia]. simp detect_from. simpl.
    split; [tauto|]. intros [[pc [postc [E [_ [_ [_ [Hs _]]]]]]] [Hl Hi]].
    apply (f_equal (@length _)) in E. rewrite !length_app in E. simpl in E. lia.
  - destruct suf as [|cur [|next rest]].
    + apply IH; [simpl; lia | exact Hinv].
    + simp detect_from. simpl. split; [tauto|].
      intros [[pc [postc [E [_ [_ [_ [Hs _]]]]]]] [Hl Hi]].
      apply (f_equal (@length _)) in E. rewrite !length_app in E. simpl in E. lia.
    + simp detect_from. unfold MIN_TABLE_ROWS.
      destruct (isTableRow cur && isTableRow next) eqn:Eq.
      * (* a run opens at [cur] *)
        apply andb_prop in Eq. destruct Eq as [Ecur Enext].
        cbv zeta.
        set (T := cur :: takeWhile isTableRow (next :: rest)).
        set (D := dropWhile isTableRow (next :: rest)).
        assert (HTD : cur :: next :: rest = T ++ D)
          by (unfold T, D; rewrite <- app_comm_cons, takeWhile_dropWhile;
              reflexivity).
        assert (HT : Forall qualifying T)
          by (constructor; [exact Ecur | apply takeWhile_all]).
        assert (HD : starts_unqualified D)
          by (intros r t Hr; exact (dropWhile_head Hr)).
        assert (Hpre : ends_unqualified pre).
        { destruct Hinv as [H|H]; [exact H|].
          rewrite (H cur (next :: rest) eq_refl) in Ecur. discriminate. }
        assert (Hj : length pre + 1 + length (takeWhile isTableRow (next :: rest))
                     = length (pre ++ T))
          by (rewrite length_app; unfold T; simpl; lia).
        rewrite Hj.
        assert (HlenD : length D <= n).
        { pose proof (dropWhile_length isTableRow (next :: rest)) as H.
          fold D in H. simpl in Hn, H. lia. }
        specialize (IH D HlenD (pre ++ T) (or_intror HD) c).
        rewrite <- app_assoc, <- HTD in IH.
        rewrite in_app_iff, IH. clear IH.
        split.
        -- intros [Hc | [Hm [Hl Hi]]].
           ++ destruct (3 <=? length T) eqn:E3; [|destruct Hc].
              destruct Hc as [<-|[]]. apply Nat.leb_le in E3.
              cbn [cand_rows startIndex endIndex].
              split; [|split; [exact E3 | lia]].
              exists pre, D. cbn [cand_rows startIndex endIndex].
              rewrite <- HTD.
              repeat split; try assumption. rewrite length_app. lia.
           ++ split; [exact Hm|]. split; [exact Hl|].
              rewrite length_app in Hi. lia.
        -- intros [Hm [Hl Hi]].
           destruct Hm as [pc [postc [E [Hq [Hpc [Hpost [Hs He]]]]]]].
           rewrite Hs in Hi.
           destruct (app_split_le E Hi) as [m [Em Esuf]].
           destruct m as [|m0 m].
           ++ left. rewrite app_nil_r in Em. subst pc. simpl in Esuf.
              rewrite HTD in Esuf.
              assert (HTt : T = takeWhile isTableRow (T ++ D) /\
                            D = dropWhile isTableRow (T ++ D)).
              { destruct (run_unique (p := isTableRow) HT HD) as [H1 H2].
                split; symmetry; assumption. }
              destruct (run_unique (p := isTableRow) Hq Hpost) as [H1 H2].
              rewrite <- Esuf in H1, H2.
              destruct HTt as [HT1 HT2]. rewrite <- HT1 in H1. rewrite <- HT2 in H2.
              assert (E3 : (3 <=? length T) = true)
                by (apply Nat.leb_le; rewrite H1; exact Hl).
              rewrite E3. left. rewrite (candidate_eta c).
              rewrite <- H1, Hs, He, <- H1. f_equal. rewrite length_app. lia.
           ++ right. 
              destruct (le_lt_dec (length T) (length (m0 :: m))) as [Hle|Hlt].
              ** rewrite HTD in Esuf.
                 destruct (app_split_le Esuf Hle) as [m' [Em' ED]].
                 split; [|split; [exact Hl|]].
                 --- exists pc, postc. repeat split; assumption.
                 --- rewrite Hs, Em, Em', !length_app. lia.
              ** exfalso. rewrite HTD in Esuf. symmetry in Esuf.
                 destruct (app_split_le Esuf (Nat.lt_le_incl _ _ Hlt))
                   as [m' [Em' _]].
                 assert (Hqm : Forall qualifying (m0 :: m))
                   by (rewrite Em' in HT; apply Forall_app in HT; tauto).
                 destruct (exists_last (l := m0 :: m)) as [m'' [r Er]];
                   [discriminate|].
                 pose proof (Forall_last_qualifying Hqm Er) as Hr.
                 rewrite (Hpc (pre ++ m'') r) in Hr; [discriminate|].
                 rewrite Em, Er, app_assoc. reflexivity.
      * (* no run opens at [cur] *)
        assert (Hinv' : ends_unqualified (pre ++ [cur]) \/
                        starts_unqualified (next :: rest)).
        { apply andb_false_iff in Eq. destruct Eq as [E|E].
          - left. intros p' r Hr. apply app_inj_tail in Hr.
            destruct Hr as [_ <-]. exact E.
          - right. intros r t Hr. injection Hr as <- _. exact E. }
        assert (Hlen : length (next :: rest) <= n) by (simpl in *; lia).
        specialize (IH (next :: rest) Hlen (pre ++ [cur]) Hinv' c).
        rewrite length_app, Nat.add_1_r in IH. rewrite IH. clear IH.
        rewrite <- app_assoc. simpl app.
        split; intros [Hm [Hl Hi]]; (split; [exact Hm|]); (split; [exact Hl|]);
          [lia|].
        destruct Hm as [pc [postc [E [Hq [Hpc [Hpost [Hs He]]]]]]].
        rewrite Hs in *.
        destruct (app_split_le E Hi) as [m [Em Esuf]].
        destruct m as [|m0 m]; [|rewrite Em, length_app; simpl; lia].
        exfalso. simpl in Esuf.
        destruct (cand_rows c) as [|r1 [|r2 rs]]; simpl in Hl; try lia.
        simpl in Esuf. injection Esuf as <- <- _.
        inversion Hq as [|? ? Hq1 Hq']; subst. inversion Hq' as [|? ? Hq2 _]; subst.
        unfold qualifying in *. rewrite Hq1, Hq2 in Eq. discriminate.
Qed.

Lemma detect_from_sorted (n : nat) :
  forall suf, length suf <= n ->
  forall i,
    StronglySorted before (detect_from i suf) /\
    Forall (fun c => i <= startIndex c) (detect_from i suf).
Proof.
  induction n as [|n IH]; intros suf Hn i.
  - destruct suf; [|simpl in Hn; lia]. simp detect_from.
    split; constructor.
  - destruct suf as [|cur [|next rest]]; simp detect_from;
      try (split; constructor).
    destruct (isTableRow cur && isTableRow next).
    + cbv zeta.
      set (run := takeWhile isTableRow (next :: rest)).
      assert (HlenD : length (dropWhile isTableRow (next :: rest)) <= n).
      { pose proof (dropWhile_length isTableRow (next :: rest)) as H.
        change (length (cur :: next :: rest))
          with (S (length (next :: rest))) in Hn. lia. }
      destruct (IH _ HlenD (i + 1 + length run)) as [Hs Hb].
      destruct (MIN_TABLE_ROWS <=? length (cur :: run)).
      * split.
        -- cbn [app]. constructor; [exact Hs|].
           eapply Forall_impl; [|exact Hb].
           intros c Hc. unfold before. cbn [endIndex] in *. lia.
        -- cbn [app]. constructor; [cbn [startIndex]; lia|].
           eapply Forall_impl; [|exact Hb]. intros c Hc. cbn beta in Hc. lia.
      * split; [exact Hs|].
        eapply Forall_impl; [|exact Hb]. intros c Hc. cbn beta in Hc. lia.
    + assert (Hlen : length (next :: rest) <= n) by (simpl in *; lia).
      destruct (IH _ Hlen (S i)) as [Hs Hb]. split; [exact Hs|].
      eapply Forall_impl; [|exact Hb]. intros c Hc. simpl in Hc. lia.
Qed.

(** What [extractTablesFromPage] keeps of the candidates. *)
Lemma tables_of_spec (pageNumber : nat) (cands : list Candidate) :
  forall index t,
    In t (tables_of pageNumber index cands) <->
    exists k c,
      nth_error cands k = Some c /\
      createTableFromCandidate c pageNumber (index + k) = Some t /\
      MIN_TABLE_ROWS <= table_rows t /\
      MIN_TABLE_COLS <= table_columns t.
Proof.
  induction cands as [|c0 cands IH]; intros index t.
  - simpl. split; [tauto|]. intros [k [c [H _]]]. destruct k; discriminate.
  - assert (Hrest :
      In t (tables_of pageNumber (S index) cands) <->
      exists k c,
        nth_error (c0 :: cands) (S k) = Some c /\
        createTableFromCandidate c pageNumber (index + S k) = Some t /\
        MIN_TABLE_ROWS <= table_rows t /\ MIN_TABLE_COLS <= table_columns t).
    { rewrite IH. split; intros [k [c H]]; exists k, c;
        rewrite Nat.add_succ_r in *; exact H. }
    assert (Hhead :
      forall P : Prop,
        (P <-> createTableFromCandidate c0 pageNumber index = Some t /\
               MIN_TABLE_ROWS <= table_rows t /\
               MIN_TABLE_COLS <= table_columns t) ->
        (P \/ In t (tables_of pageNumber (S index) cands) <->
         exists k c,
           nth_error (c0 :: cands) k = Some c /\
           createTableFromCandidate c pageNumber (index + k) = Some t /\
           MIN_TABLE_ROWS <= table_rows t /\ MIN_TABLE_COLS <= table_columns t)).
    { intros P HP. rewrite Hrest, HP. split.
      - intros [H | [k [c H]]].
        + exists 0, c0. rewrite Nat.add_0_r. simpl. tauto.
        + exists (S k), c. exact H.
      - intros [[|k] [c H]].
        + left. simpl in H. rewrite Nat.add_0_r in H.
          destruct H as [Hc H]. injection Hc as <-. exact H.
        + right. exists k, c. exact H. }
    cbn [tables_of].
    destruct (createTableFromCandidate c0 pageNumber index) as [t0|].
    + destruct ((MIN_TABLE_ROWS <=? table_rows t0)
                && (MIN_TABLE_COLS <=? table_columns t0)) eqn:Eacc.
      * cbn [In]. apply Hhead.
        apply andb_prop in Eacc. destruct Eacc as [H1 H2].
        apply Nat.leb_le in H1, H2.
        split; [intros <-; tauto | intros [H _]; congruence].
      * rewrite <- (Hhead False); [tauto|].
        split; [tauto|]. intros [H [H1 H2]]. injection H as ->.
        apply Nat.leb_le in H1, H2. rewrite H1, H2 in Eacc. discriminate.
    + rewrite <- (Hhead False); [tauto|].
      split; [tauto|]. intros [H _]. discriminate.
Qed.

(** C6. The candidates are exactly the runs of qualifying rows that
    cannot be extended on either side (a run opens where two
    consecutive rows qualify and goes on while the rows qualify) and
    that have at least [MIN_TABLE_ROWS] = 3 rows; each candidate ends
    before the next one starts, so no two overlap; and a table is kept
    exactly when it has at least 3 rows and at least 3 columns, any
    other being dropped without an error. *)
Theorem detectTableStructures_runs (rows : list Row) :
  (forall c,
     In c (detectTableStructures rows) <->
     maximal_run rows c /\ MIN_TABLE_ROWS <= length (cand_rows c)) /\
  StronglySorted before (detectTableStructures rows) /\
  (forall pageNumber t,
     In t (tables_of pageNumber 0 (detectTableStructures rows)) <->
     exists k c,
       nth_error (detectTableStructures rows) k = Some c /\
       createTableFromCandidate c pageNumber k = Some t /\
       MIN_TABLE_ROWS <= table_rows t /\
       MIN_TABLE_COLS <= table_columns t) /\
  (forall items pageNumber t,
     In t (extractTablesFromPage items pageNumber) ->
     MIN_TABLE_ROWS <= table_rows t /\ MIN_TABLE_COLS <= table_columns t).
Proof.
  split; [|split; [|split]];
    [| | | intros items pageNumber t; unfold extractTablesFromPage;
           destruct (length (filter has_text items) =? 0);
           [intros []|]; cbv zeta; intro H;
           apply (tables_of_spec pageNumber _ 0) in H;
           destruct H as [k [c [_ [_ H]]]]; exact H];
    unfold detectTableStructures.
  - intro c.
    rewrite (@detect_from_spec (length rows) rows (le_n _) []
               (or_introl (fun p' r H => match app_cons_not_nil _ _ _ H with end))).
    simpl. split; [tauto|]. intros [H1 H2]. repeat split; try assumption. lia.
  - exact (proj1 (@detect_from_sorted (length rows) rows (le_n _) 0)).
  - intros pageNumber t. apply (tables_of_spec pageNumber _ 0).
Qed.

Definition address (cell : TableCell) : nat * nat :=
  (cell_row cell, cell_col cell).

Lemma row_cells_address (r : nat) (row : Row) :
  forall c0 cell,
    In cell (row_cells r c0 row) ->
    cell_row cell = r /\ c0 <= cell_col cell < c0 + length row.
Proof.
  induction row as [|item t IH]; intros c0 cell H; simpl in H; [destruct H|].
  destruct H as [<-|H]; simpl; [lia|].
  apply IH in H. lia.
Qed.

Lemma row_cells_NoDup (r : nat) (row : Row) :
  forall c0, NoDup (map address (row_cells r c0 row)).
Proof.
  induction row as [|item t IH]; intro c0; simpl; constructor; [|apply IH].
  intro H. apply in_map_iff in H. destruct H as [cell [Ha Hin]].
  apply row_cells_address in Hin. unfold address in Ha. simpl in Ha.
  injection Ha as _ Hc. lia.
Qed.

Lemma maxCols_from (rows : list Row) :
  forall m,
    m <= fold_left (fun m row => Nat.max m (length row)) rows m /\
    forall row, In row rows ->
      length row <= fold_left (fun m row => Nat.max m (length row)) rows m.
Proof.
  induction rows as [|r t IH]; intro m; simpl; [split; [lia | tauto]|].
  destruct (IH (Nat.max m (length r))) as [H1 H2]. split; [lia|].
  intros row [<-|H]; [lia | apply H2; exact H].
Qed.

Lemma maxCols_upper (rows : list Row) (row : Row) :
  In row rows -> length row <= maxCols rows.
Proof. intro H. exact (proj2 (maxCols_from rows 0) row H). Qed.

Lemma maxCols_attained_from (rows : list Row) :
  forall m,
    fold_left (fun m row => Nat.max m (length row)) rows m = m \/
    exists row, In row rows /\
      fold_left (fun m row => Nat.max m (length row)) rows m = length row.
Proof.
  induction rows as [|r t IH]; intro m; simpl; [left; reflexivity|].
  destruct (IH (Nat.max m (length r))) as [H|[row [Hin H]]].
  - destruct (Nat.max_spec m (length r)) as [[_ E]|[_ E]]; rewrite H, E.
    + right. exists r. split; [left; reflexivity | reflexivity].
    + left. reflexivity.
  - right. exists row. split; [right; exact Hin | exact H].
Qed.


(** [columns] is the length of the longest member row. *)
Lemma maxCols_longest (rows : list Row) :
  rows <> [] ->
  (forall row, In row rows -> length row <= maxCols rows) /\
  exists row, In row rows /\ length row = maxCols rows.
Proof.
  intro Hne. split; [intros row H; apply maxCols_upper; exact H|].
  destruct (maxCols_attained_from rows 0) as [H|[row [Hin H]]].
  - destruct rows as [|r t]; [contradiction|]. 
    exists r. split; [left; reflexivity|].
    pose proof (@maxCols_upper (r :: t) r (or_introl eq_refl)) as Hu.
    unfold maxCols in *. lia.
  - exists row. split; [exact Hin | symmetry; exact H].
Qed.

Lemma all_cells_address (rows : list Row) :
  forall r0 cell,
    In cell (all_cells r0 rows) ->
    r0 <= cell_row cell < r0 + length rows /\
    exists row, In row rows /\ cell_col cell < length row.
Proof.
  induction rows as [|row t IH]; intros r0 cell H; simpl in H; [destruct H|].
  apply in_app_iff in H. destruct H as [H|H].
  - apply row_cells_address in H. simpl. split; [lia|].
    exists row. split; [left; reflexivity | lia].
  - apply IH in H. destruct H as [Hr [row' [Hin Hc]]]. simpl. split; [lia|].
    exists row'. split; [right; exact Hin | exact Hc].
Qed.

Lemma all_cells_NoDup (rows : list Row) :
  forall r0, NoDup (map address (all_cells r0 rows)).
Proof.
  induction rows as [|row t IH]; intro r0; simpl; [constructor|].
  rewrite map_app. apply NoDup_app; [apply row_cells_NoDup | apply IH |].
  intros a H1 H2.
  apply in_map_iff in H1. destruct H1 as [c1 [E1 H1]].
  apply in_map_iff in H2. destruct H2 as [c2 [E2 H2]].
  apply row_cells_address in H1. apply all_cells_address in H2.
  rewrite <- E2 in E1. unfold address in E1. injection E1 as Er _. lia.
Qed.

(** C8. In a table made from a candidate the cell addresses (row,
    column) are pairwise distinct, each lies below the numbers of rows
    and columns of the table, the rows are those of the candidate and
    the number of columns is the length of its longest row. *)
Theorem createTableFromCandidate_cells
    (candidate : Candidate) (pageNumber index : nat) (table : Table) :
  createTableFromCandidate candidate pageNumber index = Some table ->
  NoDup (map address (cells table)) /\
  (forall cell, In cell (cells table) ->
     cell_row cell < table_rows table /\
     cell_col cell < table_columns table) /\
  table_rows table = length (cand_rows candidate) /\
  (forall row, In row (cand_rows candidate) ->
     length row <= table_columns table) /\
  (exists row, In row (cand_rows candidate) /\
     length row = table_columns table).
Proof.
  unfold createTableFromCandidate.
  destruct (length (cand_rows candidate) =? 0) eqn:E; [discriminate|].
  intro H. injection H as <-. cbn [cells table_rows table_columns].
  apply Nat.eqb_neq in E.
  assert (Hne : cand_rows candidate <> [])
    by (intro H0; rewrite H0 in E; apply E; reflexivity).
  destruct (maxCols_longest Hne) as [Hup Hex].
  repeat split.
  - apply all_cells_NoDup.
  - apply all_cells_address in H. lia.
  - apply all_cells_address in H. destruct H as [_ [row [Hin Hc]]].
    apply Hup in Hin. lia.
  - exact Hup.
  - exact Hex.
Qed.

(** *** The rows of the grouper *)

Lemma items_le_iff (a b : TextItem) :
  items_le a b = true <-> (item_x a <= item_x b)%Q.
Proof.
  unfold items_le. rewrite Qle_bool_iff.
  rewrite (Qle_minus_iff (item_x a - item_x b) 0).
  rewrite (Qle_minus_iff (item_x a) (item_x b)).
  setoid_replace (0 + - (item_x a - item_x b))%Q
    with (item_x b + - item_x a)%Q by ring.
  reflexivity.
Qed.

Lemma insert_sorted_items (x : TextItem) (l : list TextItem) :
  sorted_by_x l -> sorted_by_x (insert_sorted items_le x l).
Proof.
  unfold sorted_by_x. induction l as [|y t IH]; intro H; simpl.
  - repeat constructor.
  - destruct (items_le x y) eqn:E.
    + constructor; [exact H|]. constructor. apply items_le_iff. exact E.
    + inversion H as [|? ? Hs Hh]; subst.
      constructor; [exact (IH Hs)|].
      assert (Hyx : (item_x y <= item_x x)%Q).
      { apply Qlt_le_weak. apply Qnot_le_lt. intro Hle.
        apply items_le_iff in Hle. congruence. }
      destruct t as [|z t]; simpl.
      * constructor. exact Hyx.
      * destruct (items_le x z); constructor; [exact Hyx|].
        inversion Hh; assumption.
Qed.

Lemma sort_items_sorted (l : list TextItem) : sorted_by_x (sort items_le l).
Proof.
  induction l as [|x t IH]; simpl; [constructor|].
  apply insert_sorted_items. exact IH.
Qed.

(** Every row of the grouper is in ascending x order, so the mean of
    its gaps is not negative. *)
Theorem groupTextItemsIntoRows_sorted (textItems : list TextItem) (row : Row) :
  In row (groupTextItemsIntoRows textItems) ->
  sorted_by_x row /\ (0 <= avgGap (row_gaps row))%Q.
Proof.
  unfold groupTextItemsIntoRows. intro H. apply in_map_iff in H.
  destruct H as [r [<- _]].
  split; [apply sort_items_sorted | apply sorted_avgGap_nonneg, sort_items_sorted].
Qed.

(** *** Rows of evenly spaced items *)

Definition item_at (x : Z) : TextItem :=
  mkItem (lit "x") (inject_Z x) 0%Q None None.






Definition even_row : Row := [item_at 0; item_at 10; item_at 20; item_at 30].




Definition scattered_items : list TextItem :=
  [item_at 30; item_at 10; item_at 20].

Lemma groupTextItemsIntoRows_sorted_witness :
  sorted_by_x [item_at 10; item_at 20; item_at 30] /\
  (0 <= avgGap (row_gaps [item_at 10; item_at 20; item_at 30]))%Q.
Proof.
  apply (@groupTextItemsIntoRows_sorted scattered_items).
  left. reflexivity.
Defined.

Definition even_candidate : Candidate :=
  mkCandidate [even_row; even_row; even_row] 0 2.

Definition even_table : Table :=
  match createTableFromCandidate even_candidate 1 0 with
  | Some table => table
  | None => mkTable [] 0 NaN NaN NaN NaN 0 0 [] []
  end.

Lemma createTableFromCandidate_cells_witness :
  NoDup (map address (cells even_table)) /\
  (forall cell, In cell (cells even_table) ->
     cell_row cell < table_rows even_table /\
     cell_col cell < table_columns even_table) /\
  table_rows even_table = length (cand_rows even_candidate) /\
  (forall row, In row (cand_rows even_candidate) ->
     length row <= table_columns even_table) /\
  (exists row, In row (cand_rows even_candidate) /\
     length row = table_columns even_table).
Proof.
  apply (@createTableFromCandidate_cells even_candidate 1 0 even_table).
  reflexivity.
Defined.

(** *** A page with a grid of three rows and four columns *)

Definition cell_at (x y : Z) : TextItem :=
  mkItem (lit "x") (inject_Z x) (inject_Z y) None None.

(** The items in no particular order, as a page gives them. *)
Definition grid_items : list TextItem :=
  [cell_at 0 60; cell_at 30 100; cell_at 10 100; cell_at 0 100;
   cell_at 20 100; cell_at 0 80; cell_at 10 80; cell_at 20 80;
   cell_at 30 80; cell_at 10 60; cell_at 20 60; cell_at 30 60].

Definition grid_table : Table :=
  match extractTablesFromPage grid_items 1 with
  | table :: _ => table
  | [] => mkTable [] 0 NaN NaN NaN NaN 0 0 [] []
  end.

Lemma detectTableStructures_runs_witness :
  MIN_TABLE_ROWS <= table_rows grid_table /\
  MIN_TABLE_COLS <= table_columns grid_table.
Proof.
  apply (proj2 (proj2 (proj2
           (detectTableStructures_runs (groupTextItemsIntoRows grid_items))))
           grid_items 1 grid_table).
  vm_compute. left. reflexivity.
Defined.

(** The page gives one table, of three rows and four columns, between
    the least and the greatest coordinates of its items. *)
Lemma extractTablesFromPage_grid :
  extractTablesFromPage grid_items 1 = [grid_table] /\
  table_id grid_table = lit "table_1_0" /\
  table_rows grid_table = 3 /\ table_columns grid_table = 4 /\
  table_x grid_table = Fin 0 /\ table_y grid_table = Fin (inject_Z 60) /\
  table_width grid_table = Fin (inject_Z 30) /\
  table_height grid_table = Fin (inject_Z 40) /\
  map address (cells grid_table)
  = [(0, 0); (0, 1); (0, 2); (0, 3); (1, 0); (1, 1); (1, 2); (1, 3);
     (2, 0); (2, 1); (2, 2); (2, 3)].
Proof. repeat split; vm_compute; reflexivity. Qed.

End TableProofs.

(** * Properties of the merge and of the multi-chunk pipeline *)

Module MergeProofs.
Import OpenRouterAPI.

Section MergeSpec.

Variable number_toString : Q -> str.

Definition key_id : str := lit "id".
Definition key_summary : str := lit "executiveSummary".
Definition key_controlFailures : str := lit "controlFailures".
Definition key_exclusions : str := lit "exclusions".
Definition key_carveOuts : str := lit "carveOuts".

(** The declared identifier of a finding. *)
Definition declared_id (item : value) : value := get_own item key_id.

(** The finding list a chunk result holds under [key]. *)
Definition category_of (key : str) (r : Analysis) : list value :=
  match get_own (rawResult r) key with
  | Arr items => items
  | _ => []
  end.

Definition summary_of (r : Analysis) : value :=
  get_own (rawResult r) key_summary.


(** The findings that no earlier finding of the list shares its
    identifier with, [earlier] being the findings already passed. *)
Fixpoint keep_first_from (earlier items : list value) : list value :=
  match items with
  | [] => []
  | item :: t =>
      if existsb (fun e => same_value_zero (declared_id item) (declared_id e))
                 earlier
      then keep_first_from (earlier ++ [item]) t
      else item :: keep_first_from (earlier ++ [item]) t
  end.

Definition keep_first (items : list value) : list value :=
  keep_first_from [] items.

(** A chunk result that analyzeSingleChunk returned. *)
Definition successful (r : Analysis) : Prop :=
  exists raw,
    truthy raw = true /\ transformSOC1Result number_toString raw = Ok r.


Definition present (item : value) : Prop := nullish item = false.

Lemma get_present (v : value) (key : str) :
  present v -> get v key = Ok (get_own v key).
Proof. unfold present. destruct v; simpl; congruence. Qed.

Lemma get_throws_nullish (v : value) (key : str) (e : exn) :
  get v key = Throw e -> nullish v = true.
Proof. destruct v; simpl; congruence. Qed.


Lemma bind_Ok (A B : Type) (r : result A) (k : A -> result B) (b : B) :
  bind r k = Ok b -> exists a, r = Ok a /\ k a = Ok b.
Proof. destruct r as [a|e]; simpl; [eauto | discriminate]. Qed.

(** **** Findings are made of the entries that are present *)

Definition total_on_present (f : value -> nat -> result Finding) : Prop :=
  forall item index,
    (present item -> exists finding, f item index = Ok finding) /\
    (forall finding, f item index = Ok finding -> present item).

Ltac present_get :=
  repeat match goal with
         | H : present ?v |- context [get ?v ?k] =>
             rewrite (get_present k H)
         end.

Lemma controlFailure_total : total_on_present controlFailure_finding.
Proof.
  intros item index. split.
  - intro H. unfold controlFailure_finding. present_get. cbn [bind]. eauto.
  - intros finding H. unfold controlFailure_finding in H.
    apply bind_Ok in H. destruct H as [a [H _]].
    destruct item; simpl in H; try discriminate; reflexivity.
Qed.

Lemma exclusion_total : total_on_present exclusion_finding.
Proof.
  intros item index. split.
  - intro H. unfold exclusion_finding. present_get. cbn [bind]. eauto.
  - intros finding H. unfold exclusion_finding in H.
    apply bind_Ok in H. destruct H as [a [H _]].
    destruct item; simpl in H; try discriminate; reflexivity.
Qed.

Lemma carveOut_total : total_on_present (carveOut_finding number_toString).
Proof.
  intros item index. split.
  - intro H. unfold carveOut_finding. present_get. cbn [bind]. eauto.
  - intros finding H. unfold carveOut_finding in H.
    apply bind_Ok in H. destruct H as [a [H _]].
    destruct item; simpl in H; try discriminate; reflexivity.
Qed.

Lemma forEach_push_Ok (f : value -> nat -> result Finding) (items : list value) :
  total_on_present f ->
  forall index,
    (Forall present items -> exists fs, forEach_push f items index = Ok fs) /\
    (forall fs, forEach_push f items index = Ok fs -> Forall present items).
Proof.
  intro Hf. induction items as [|item t IH]; intro index; simpl.
  - split; [eauto | constructor].
  - destruct (Hf item index) as [H1 H2]. destruct (IH (S index)) as [IH1 IH2].
    split.
    + intro H. inversion H as [|? ? Hi Ht]; subst.
      destruct (H1 Hi) as [finding ->]. destruct (IH1 Ht) as [fs ->].
      simpl. eauto.
    + intros fs H. apply bind_Ok in H. destruct H as [finding [Hi H]].
      apply bind_Ok in H. destruct H as [rest [Ht _]].
      constructor; [exact (H2 _ Hi) | exact (IH2 _ Ht)].
Qed.

(** The entries of a list value, when it is an array. *)
Definition entries_of (v : value) : list value :=
  match v with
  | Arr items => items
  | _ => []
  end.

Lemma findings_of_Ok (f : value -> nat -> result Finding) (v : value) :
  total_on_present f ->
  (Forall present (entries_of v) -> exists fs, findings_of f v = Ok fs) /\
  (forall fs, findings_of f v = Ok fs -> Forall present (entries_of v)).
Proof.
  intro Hf. destruct v; simpl; try (split; [eauto | constructor]).
  exact (forEach_push_Ok items Hf 0).
Qed.

(** [transformSOC1Result] returns exactly on the values, other than
    [null] and [undefined], whose three finding lists hold no [null]
    nor [undefined] entry. *)
Lemma transform_Ok_iff (raw : value) :
  (exists r, transformSOC1Result number_toString raw = Ok r) <->
  present raw /\
  Forall present (entries_of (get_own raw key_controlFailures)) /\
  Forall present (entries_of (get_own raw key_exclusions)) /\
  Forall present (entries_of (get_own raw key_carveOuts)).
Proof.
  unfold transformSOC1Result. split.
  - intros [r H].
    assert (Hp : present raw).
    { apply bind_Ok in H. destruct H as [a [H _]].
      destruct raw; simpl in H; try discriminate; reflexivity. }
    rewrite !(get_present _ Hp) in H. cbn [bind] in H.
    apply bind_Ok in H. destruct H as [f1 [H1 H]].
    apply bind_Ok in H. destruct H as [f2 [H2 H]].
    apply bind_Ok in H. destruct H as [f3 [H3 H]].
    split; [exact Hp|].
    split; [exact (proj2 (findings_of_Ok _ controlFailure_total) _ H1)|].
    split; [exact (proj2 (findings_of_Ok _ exclusion_total) _ H2)|].
    exact (proj2 (findings_of_Ok _ carveOut_total) _ H3).
  - intros [Hp [H1 [H2 H3]]].
    rewrite !(get_present _ Hp). cbn [bind].
    destruct (proj1 (findings_of_Ok _ controlFailure_total) H1) as [f1 E1].
    destruct (proj1 (findings_of_Ok _ exclusion_total) H2) as [f2 E2].
    destruct (proj1 (findings_of_Ok _ carveOut_total) H3) as [f3 E3].
    unfold key_controlFailures, key_exclusions, key_carveOuts in *.
    rewrite E1, E2, E3. cbn [bind]. eauto.
Qed.

Lemma transform_rawResult (raw : value) (r : Analysis) :
  transformSOC1Result number_toString raw = Ok r -> rawResult r = raw.
Proof.
  unfold transformSOC1Result. intro H.
  repeat (apply bind_Ok in H; destruct H as [? [_ H]]).
  injection H as <-. reflexivity.
Qed.


(** **** removeDuplicates keeps the first occurrences *)

Lemma str_eqb_eq (a b : str) : str_eqb a b = true <-> a = b.
Proof.
  revert b. induction a as [|x a IH]; intros [|y b]; simpl;
    try (split; [discriminate | discriminate]); [tauto|].
  rewrite andb_true_iff, Ascii.eqb_eq, IH.
  split; [intros [-> ->]; reflexivity | intro H; injection H; auto].
Qed.

Lemma same_value_zero_sym (a b : value) :
  same_value_zero a b = same_value_zero b a.
Proof.
  destruct a, b; simpl; try reflexivity.
  - destruct b, b0; reflexivity.
  - destruct (Qeq_bool q q0) eqn:E, (Qeq_bool q0 q) eqn:E'; try reflexivity.
    + apply Qeq_bool_iff in E. symmetry in E. apply Qeq_bool_iff in E.
      congruence.
    + apply Qeq_bool_iff in E'. symmetry in E'. apply Qeq_bool_iff in E'.
      congruence.
  - destruct (str_eqb s s0) eqn:E, (str_eqb s0 s) eqn:E'; try reflexivity.
    + apply str_eqb_eq in E. subst. 
      assert (H : str_eqb s0 s0 = true) by (apply str_eqb_eq; reflexivity).
      congruence.
    + apply str_eqb_eq in E'. subst.
      assert (H : str_eqb s s = true) by (apply str_eqb_eq; reflexivity).
      congruence.
Qed.

Lemma same_value_zero_trans (a b c : value) :
  same_value_zero a b = true -> same_value_zero b c = true ->
  same_value_zero a c = true.
Proof.
  destruct a, b; simpl; try discriminate; destruct c; simpl;
    try discriminate; try reflexivity.
  - destruct b, b0, b1; simpl; congruence.
  - intros H1 H2. apply Qeq_bool_iff in H1, H2. apply Qeq_bool_iff.
    rewrite H1. exact H2.
  - intros H1 H2. apply str_eqb_eq in H1, H2. apply str_eqb_eq. congruence.
Qed.

Lemma removeDuplicates_from_keep (items : list value) :
  Forall present items ->
  forall seen earlier,
    (forall v,
       existsb (same_value_zero v) seen =
       existsb (fun e => same_value_zero v (declared_id e)) earlier) ->
    removeDuplicates_from seen items key_id
    = Ok (keep_first_from earlier items).
Proof.
  induction 1 as [|item t Hi Ht IH]; intros seen earlier Hinv; simpl;
    [reflexivity|].
  rewrite (get_present _ Hi). cbn [bind]. fold (declared_id item).
  rewrite Hinv.
  destruct (existsb (fun e => same_value_zero (declared_id item) (declared_id e))
                    earlier) eqn:E.
  - apply IH. intro v. rewrite existsb_app, Hinv. simpl.
    rewrite orb_false_r.
    destruct (same_value_zero v (declared_id item)) eqn:Ev;
      [|rewrite orb_false_r; reflexivity].
    rewrite orb_true_r. apply existsb_exists in E.
    destruct E as [e [He Hs]]. apply existsb_exists. exists e.
    split; [exact He | exact (same_value_zero_trans Ev Hs)].
  - rewrite (IH (declared_id item :: seen) (earlier ++ [item])).
    + reflexivity.
    + intro v. rewrite existsb_app. simpl. rewrite Hinv, orb_false_r.
      apply orb_comm.
Qed.

Lemma removeDuplicates_keep (items : list value) :
  Forall present items ->
  removeDuplicates items key_id = Ok (keep_first items).
Proof.
  intro H. apply removeDuplicates_from_keep; [exact H | reflexivity].
Qed.

Lemma keep_first_from_incl (items : list value) :
  forall earlier x, In x (keep_first_from earlier items) -> In x items.
Proof.
  induction items as [|item t IH]; intros earlier x H; simpl in *; [exact H|].
  destruct (existsb _ earlier).
  - right. exact (IH _ _ H).
  - destruct H as [H|H]; [left; exact H | right; exact (IH _ _ H)].
Qed.

Lemma keep_first_present (items : list value) :
  Forall present items -> Forall present (keep_first items).
Proof.
  intro H. apply Forall_forall. intros x Hx.
  apply keep_first_from_incl in Hx. rewrite Forall_forall in H. auto.
Qed.




(** **** The loop of combineChunkResults *)

Fixpoint first_truthy (start : value) (summaries : list value) : value :=
  match summaries with
  | [] => start
  | s :: t =>
      if truthy s && negb (truthy start) then first_truthy s t
      else first_truthy start t
  end.

Lemma fold_combine (results : list Analysis) :
  Forall (fun r => truthy (rawResult r) = true) results ->
  forall acc,
    fold_left combine_step results acc =
    {| c_executiveSummary :=
         first_truthy (c_executiveSummary acc) (map summary_of results);
       c_controlFailures :=
         c_controlFailures acc
         ++ concat (map (category_of key_controlFailures) results);
       c_exclusions :=
         c_exclusions acc ++ concat (map (category_of key_exclusions) results);
       c_carveOuts :=
         c_carveOuts acc ++ concat (map (category_of key_carveOuts) results)
    |}.
Proof.
  induction 1 as [|r t Hr Ht IH]; intro acc; simpl.
  - rewrite !app_nil_r. destruct acc; reflexivity.
  - rewrite IH. unfold combine_step at 1 2 3 4. rewrite Hr. cbn [negb].
    cbn [c_executiveSummary c_controlFailures c_exclusions c_carveOuts].
    unfold summary_of, category_of, push_all,
      key_summary, key_controlFailures, key_exclusions, key_carveOuts.
    f_equal.
    + destruct (truthy (get_own (rawResult r) (lit "executiveSummary"))
                && negb (truthy (c_executiveSummary acc))); reflexivity.
    + destruct (get_own (rawResult r) (lit "controlFailures"));
        cbn [app]; rewrite <- ?app_assoc; reflexivity.
    + destruct (get_own (rawResult r) (lit "exclusions"));
        cbn [app]; rewrite <- ?app_assoc; reflexivity.
    + destruct (get_own (rawResult r) (lit "carveOuts"));
        cbn [app]; rewrite <- ?app_assoc; reflexivity.
Qed.


Lemma successful_truthy (r : Analysis) :
  successful r -> truthy (rawResult r) = true.
Proof.
  intros [raw [Ht H]]. rewrite (transform_rawResult H). exact Ht.
Qed.

Lemma successful_present (key : str) (r : Analysis) :
  key = key_controlFailures \/ key = key_exclusions \/ key = key_carveOuts ->
  successful r -> Forall present (category_of key r).
Proof.
  intros Hk [raw [Ht H]]. unfold category_of.
  rewrite (transform_rawResult H).
  destruct (proj1 (transform_Ok_iff raw) (ex_intro _ r H))
    as [_ [H1 [H2 H3]]].
  destruct Hk as [ -> | [ -> | -> ] ]; assumption.
Qed.

Lemma concat_present (key : str) (results : list Analysis) :
  key = key_controlFailures \/ key = key_exclusions \/ key = key_carveOuts ->
  Forall successful results ->
  Forall present (concat (map (category_of key) results)).
Proof.
  intros Hk H. induction H as [|r t Hr Ht IH]; simpl; [constructor|].
  apply Forall_app. split; [exact (successful_present Hk Hr) | exact IH].
Qed.

(** The merge of the results of the chunks that succeeded. *)
Definition merged_record (summary : value) (results : list Analysis) : value :=
  combined_value summary
    (keep_first (concat (map (category_of key_controlFailures) results)))
    (keep_first (concat (map (category_of key_exclusions) results)))
    (keep_first (concat (map (category_of key_carveOuts) results))).

Lemma combine_successful (results : list Analysis) :
  results <> [] ->
  Forall successful results ->
  exists merged,
    combineChunkResults number_toString results = Ok merged /\
    rawResult merged =
    merged_record (first_truthy Null (map summary_of results)) results.
Proof.
  intros Hne Hs. unfold combineChunkResults.
  destruct results as [|r0 t]; [contradiction|].
  change (length (r0 :: t) =? 0) with false. cbv iota.
  rewrite fold_combine
    by (eapply Forall_impl; [|exact Hs]; intros r; apply successful_truthy).
  cbn [c_executiveSummary c_controlFailures c_exclusions c_carveOuts app].
  fold key_id.
  rewrite !removeDuplicates_keep by (apply concat_present; auto).
  cbn [bind].
  match goal with
  | |- exists merged, transformSOC1Result _ ?v = _ /\ _ =>
      destruct (proj2 (transform_Ok_iff v)) as [merged Hm]
  end.
  - split; [reflexivity|].
    repeat split; apply keep_first_present, concat_present; auto.
  - exists merged. split; [exact Hm|]. exact (transform_rawResult Hm).
Qed.



(** **** The multi-chunk pipeline *)

Variable useLocalModel : bool.
Variable request : str -> str -> result value.

Let analyze := analyzeSingleChunk number_toString useLocalModel request.

Lemma try_catch_throw_Ok (A : Type) (body : result A) (h : exn -> exn) (a : A) :
  try_catch body (fun e => Throw (h e)) = Ok a -> body = Ok a.
Proof. destruct body; simpl; [tauto | discriminate]. Qed.

Lemma parse_content_successful (content : str) (r : Analysis) :
  parse_content number_toString useLocalModel content = Ok r -> successful r.
Proof.
  unfold parse_content.
  destruct (truthy (parse_strategies useLocalModel content)) eqn:E1.
  - intro H. exists (parse_strategies useLocalModel content). tauto.
  - destruct (truthy (extractFromNaturalLanguage content)) eqn:E2.
    + intro H. exists (extractFromNaturalLanguage content). tauto.
    + intro H. exists (createFallbackResult content). split; [reflexivity|].
      exact H.
Qed.

Lemma analyzeSingleChunk_successful (pdfText modelId : str) (r : Analysis) :
  analyze pdfText modelId = Ok r -> successful r.
Proof.
  unfold analyze, analyzeSingleChunk. intro H.
  apply try_catch_throw_Ok in H.
  apply bind_Ok in H. destruct H as [data [_ H]].
  apply bind_Ok in H. destruct H as [choices [_ H]].
  destruct (negb (truthy choices) || _); [discriminate|].
  destruct (normalizeContent number_toString data) as [content|];
    [|discriminate].
  unfold parse_response in H. apply try_catch_throw_Ok in H.
  exact (parse_content_successful H).
Qed.

Definition failed (modelId chunk : str) : Prop :=
  exists error, analyze chunk modelId = Throw error.

Lemma analyze_chunks_spec (modelId : str) (chunks : list str) :
  forall i,
    let (chunkResults, warnings) :=
      analyze_chunks number_toString useLocalModel request chunks modelId i in
    Forall successful chunkResults /\
    (chunkResults = [] <-> Forall (failed modelId) chunks) /\
    length chunkResults + length warnings = length chunks /\
    (forall k error,
       In (k, error) warnings <->
       exists j chunk,
         k = i + j + 1 /\ nth_error chunks j = Some chunk /\
         analyze chunk modelId = Throw error).
Proof.
  induction chunks as [|chunk t IH]; intro i; simpl.
  - repeat split; try constructor; try tauto.
    intros [j [c [_ [H _]]]]. destruct j; discriminate.
  - specialize (IH (S i)).
    destruct (analyze_chunks number_toString useLocalModel request t modelId
                (S i)) as [chunkResults warnings].
    destruct IH as [Hs [Hall [Hlen Hw]]].
    fold analyze.
    destruct (analyze chunk modelId) as [r|error] eqn:E.
    + split; [constructor; [exact (analyzeSingleChunk_successful E) | exact Hs]|].
      split; [|split; [simpl; lia|]].
      * split; [discriminate|]. intro H. inversion H as [|? ? [err Hf] _]; subst.
        unfold analyze in *. congruence.
      * intros k err. rewrite Hw. split.
        -- intros [j [c [-> [Hn Hc]]]]. exists (S j), c.
           split; [lia | split; assumption].
        -- intros [[|j] [c [-> [Hn Hc]]]].
           ++ simpl in Hn. injection Hn as <-. congruence.
           ++ exists j, c. split; [lia | split; assumption].
    + split; [exact Hs|]. split; [|split; [simpl; lia|]].
      * rewrite Hall. split.
        -- intro H. constructor; [exists error; exact E | exact H].
        -- intro H. inversion H; assumption.
      * intros k err. simpl. rewrite Hw. split.
        -- intros [H | [j [c [-> [Hn Hc]]]]].
           ++ injection H as <- <-. exists 0, chunk.
              split; [lia | split; [reflexivity | exact E]].
           ++ exists (S j), c. split; [lia | split; assumption].
        -- intros [[|j] [c [-> [Hn Hc]]]].
           ++ left. simpl in Hn. injection Hn as <-.
              rewrite E in Hc. injection Hc as <-. f_equal. lia.
           ++ right. exists j, c. split; [lia | split; assumption].
Qed.

(** C3. Merging no result raises the "no valid results" error, and
    that is the only error of the multi-chunk pipeline: it fails exactly
    when every chunk fails, each failed chunk being logged (with its
    1-based number and error) and left out of the merge. *)
Theorem analyzeMultipleChunks_fatal (pdfText modelId : str) :
  combineChunkResults number_toString [] = Throw no_valid_results /\
  (forall error,
     fst (analyzeMultipleChunks number_toString useLocalModel request
            pdfText modelId) = Throw error <->
     error = no_valid_results /\
     Forall (failed modelId)
            (splitTextIntoChunks pdfText maxTokensPerChunk)) /\
  (forall k error,
     In (k, error)
        (snd (analyzeMultipleChunks number_toString useLocalModel request
                pdfText modelId)) <->
     exists chunk,
       nth_error (splitTextIntoChunks pdfText maxTokensPerChunk) (k - 1)
       = Some chunk /\
       1 <= k /\ analyze chunk modelId = Throw error).
Proof.
  split; [reflexivity|].
  unfold analyzeMultipleChunks.
  pose proof (analyze_chunks_spec modelId
                (splitTextIntoChunks pdfText maxTokensPerChunk) 0) as H.
  destruct (analyze_chunks number_toString useLocalModel request
              (splitTextIntoChunks pdfText maxTokensPerChunk) modelId 0)
    as [chunkResults warnings].
  destruct H as [Hs [Hall [_ Hw]]]. cbn [fst snd]. split.
  - intro error. destruct chunkResults as [|r0 rs].
    + simpl. split.
      * intro H. injection H as <-. split; [reflexivity|]. apply Hall.
        reflexivity.
      * intros [-> _]. reflexivity.
    + destruct (@combine_successful (r0 :: rs)) as [merged [Hm _]];
        [discriminate | exact Hs|].
      rewrite Hm. split; [discriminate|]. intros [_ H].
      apply Hall in H. discriminate.
  - intros k error. rewrite Hw. split.
    + intros [j [c [-> [Hn Hc]]]]. exists c.
      replace (0 + j + 1 - 1) with j by lia. repeat split; try assumption. lia.
    + intros [c [Hn [Hk Hc]]]. exists (k - 1), c.
      split; [lia | split; assumption].
Qed.

End MergeSpec.

(** *** Two chunks that share an identifier *)

Definition first_chunk_record : value :=
  Obj [(lit "exclusions",
        Arr [Obj [(lit "id", Str (lit "EX-1"));
                  (lit "description", Str (lit "first"))]])].

Definition second_chunk_record : value :=
  Obj [(lit "executiveSummary",
        Obj [(lit "overallAssessment", Str (lit "Qualified"))]);
       (lit "exclusions",
        Arr [Obj [(lit "id", Str (lit "EX-1"));
                  (lit "description", Str (lit "second"))];
             Obj [(lit "id", Str (lit "EX-2"))]])].

Definition analysis_of (raw : value) : Analysis :=
  match transformSOC1Result print_integer raw with
  | Ok r => r
  | Throw _ => mkAnalysis [] [] raw
  end.

Definition two_chunks : list Analysis :=
  [analysis_of first_chunk_record; analysis_of second_chunk_record].


(** The two-chunk example evaluated. *)
Lemma combineChunkResults_EX1 :
  exists merged,
    combineChunkResults print_integer two_chunks = Ok merged /\
    get_own (rawResult merged) key_exclusions
    = Arr [Obj [(lit "id", Str (lit "EX-1"));
                (lit "description", Str (lit "first"))];
           Obj [(lit "id", Str (lit "EX-2"))]] /\
    get_own (rawResult merged) key_summary
    = Obj [(lit "overallAssessment", Str (lit "Qualified"))].
Proof.
  eexists. split; [vm_compute; reflexivity|]. split; vm_compute; reflexivity.
Qed.

End MergeProofs.

(** * The regular expressions of the parser and of the splitter *)

Module RegexProofs.
Import OpenRouterAPI.

(** **** What a match consumes *)

(** The least number of characters a match of [r] has. *)
Fixpoint min_len (r : re) : nat :=
  match r with
  | Chr _ => 1
  | Seq a b => min_len a + min_len b
  | Alt a b => Nat.min (min_len a) (min_len b)
  | Group _ a => min_len a
  | Eps | Star _ _ | Bol | Eol => 0
  end.

(** Every character of a match of [r] is in one of its classes. *)
Fixpoint alphabet (r : re) (c : ascii) : bool :=
  match r with
  | Chr p => p c
  | Seq a b | Alt a b => alphabet a c || alphabet b c
  | Star _ a | Group _ a => alphabet a c
  | Eps | Bol | Eol => false
  end.

(** [k] is reached on what follows a prefix [m] of [s] that [r] can
    consume. *)
Definition reaches (R : Type) (r : re) (s : str)
    (k : str -> caps -> option R) (x : R) : Prop :=
  exists m s' c',
    s = m ++ s' /\ min_len r <= length m /\
    Forall (fun a => alphabet r a = true) m /\ k s' c' = Some x.

Section Soundness.
Variable R : Type.
Variable size : nat.

Lemma star_iter_sound (a : re) (greedy : bool) :
  (forall s c (k : str -> caps -> option R) x,
      mtch size a s c k = Some x -> reaches a s k x) ->
  forall fuel s c (k : str -> caps -> option R) x,
    star_iter (mtch size a) greedy k fuel s c = Some x ->
    reaches (Star greedy a) s k x.
Proof.
  intros IHa. induction fuel as [|fuel IH]; intros s c k x H; simpl in H.
  - exists [], s, c. simpl. repeat split; [lia | constructor | exact H].
  - assert (Hk : k s c = Some x -> reaches (Star greedy a) s k x).
    { intro Hx. exists [], s, c. simpl.
      repeat split; [lia | constructor | exact Hx]. }
    assert (Hagain :
      mtch size a s c
        (fun s' c' =>
           if length s' <? length s
           then star_iter (mtch size a) greedy k fuel s' c' else None)
      = Some x -> reaches (Star greedy a) s k x).
    { intro Hx. apply IHa in Hx.
      destruct Hx as [m [s' [c' [Es [_ [Hm Hx]]]]]].
      destruct (length s' <? length s); [|discriminate].
      apply IH in Hx. destruct Hx as [m2 [s2 [c2 [Es2 [_ [Hm2 Hx]]]]]].
      exists (m ++ m2), s2, c2. simpl.
      repeat split; [|lia| |exact Hx].
      - rewrite Es, Es2, app_assoc. reflexivity.
      - apply Forall_app. split; assumption. }
    destruct greedy.
    + destruct (mtch size a s c _) eqn:E.
      * injection H as ->. apply Hagain. reflexivity.
      * apply Hk. exact H.
    + destruct (k s c) eqn:E.
      * injection H as ->. apply Hk. reflexivity.
      * apply Hagain. exact H.
Qed.

Lemma Forall_weaken (p q : ascii -> bool) (m : str) :
  (forall a, p a = true -> q a = true) ->
  Forall (fun a => p a = true) m -> Forall (fun a => q a = true) m.
Proof. intros H F. eapply Forall_impl; [|exact F]. exact H. Qed.

Lemma mtch_sound (r : re) :
  forall s c (k : str -> caps -> option R) x,
    mtch size r s c k = Some x -> reaches r s k x.
Proof.
  induction r as [|p|a IHa b IHb|a IHa b IHb|g a IHa|i a IHa| |];
    intros s c k x H; simpl in H.
  - exists [], s, c. simpl. repeat split; [lia | constructor | exact H].
  - destruct s as [|y s']; [discriminate|].
    destruct (p y) eqn:E; [|discriminate].
    exists [y], s', c. simpl.
    repeat split; [lia | constructor; [exact E | constructor] | exact H].
  - apply IHa in H. destruct H as [m1 [s1 [c1 [E1 [L1 [F1 H]]]]]].
    apply IHb in H. destruct H as [m2 [s2 [c2 [E2 [L2 [F2 H]]]]]].
    exists (m1 ++ m2), s2, c2. simpl.
    repeat split; [| rewrite length_app; lia | | exact H].
    + rewrite E1, E2, app_assoc. reflexivity.
    + apply Forall_app. split.
      * eapply Forall_weaken; [|exact F1]. intros y ->. reflexivity.
      * eapply Forall_weaken; [|exact F2]. intros y ->. apply orb_true_r.
  - destruct (mtch size a s c k) eqn:E.
    + injection H as ->. apply IHa in E.
      destruct E as [m [s' [c' [E1 [L1 [F1 H]]]]]].
      exists m, s', c'. simpl. repeat split; [exact E1 | lia | | exact H].
      eapply Forall_weaken; [|exact F1]. intros y ->. reflexivity.
    + apply IHb in H. destruct H as [m [s' [c' [E1 [L1 [F1 H]]]]]].
      exists m, s', c'. simpl. repeat split; [exact E1 | lia | | exact H].
      eapply Forall_weaken; [|exact F1]. intros y ->. apply orb_true_r.
  - exact (star_iter_sound IHa H).
  - apply IHa in H. destruct H as [m [s' [c' [E1 [L1 [F1 H]]]]]].
    exists m, s', ((i, firstn (length s - length s') s) :: c'). simpl.
    repeat split; assumption.
  - destruct (length s =? size); [|discriminate].
    exists [], s, c. simpl. repeat split; [lia | constructor | exact H].
  - destruct s; [|discriminate].
    exists [], [], c. simpl. repeat split; [lia | constructor | exact H].
Qed.
End Soundness.

(** A match at the head of [s] is a prefix of [s] made of characters of
    the pattern, at least [min_len r] of them. *)
Lemma match_len_sound (r : re) (size : nat) (s : str) (n : nat) (c : caps) :
  match_len r size s = Some (n, c) ->
  min_len r <= n /\ n <= length s /\
  Forall (fun a => alphabet r a = true) (firstn n s).
Proof.
  unfold match_len. intro H.
  destruct (mtch size r s [] (fun s' c0 => Some (s', c0))) as [[s' c']|] eqn:E;
    [|discriminate].
  injection H as <- <-.
  apply mtch_sound in E. destruct E as [m [s2 [c2 [Es [L [F H]]]]]].
  injection H as <- <-.
  rewrite Es, length_app.
  replace (length m + length s2 - length s2) with (length m) by lia.
  rewrite firstn_app, firstn_all, Nat.sub_diag. simpl. rewrite app_nil_r.
  repeat split; [exact L | lia | exact F].
Qed.

(** **** The greedy repetition of a class runs to the last place where
    the rest of the pattern matches *)

Section GreedyClass.
Variable R : Type.
Variable size : nat.
Variable p : ascii -> bool.
Variable k : str -> caps -> option R.
Variable c : caps.





End GreedyClass.

(** **** Strategy 1 on a JSON text inside prose *)


Definition open_brace : ascii := "{".
Definition close_brace : ascii := "}".





Lemma Forall_forallb (A : Type) (f : A -> bool) (l : list A) :
  forallb (fun a => negb (f a)) l = true -> Forall (fun a => f a = false) l.
Proof.
  intro H. apply Forall_forall. intros a Ha.
  apply (proj1 (forallb_forall _ l) H) in Ha.
  destruct (f a); [discriminate | reflexivity].
Qed.

End RegexProofs.

(** * The parsing stage *)

Module ParseProofs.
Import OpenRouterAPI MergeProofs RegexProofs.

Section RoundTrip.

Variable number_toString : Q -> str.
Variable useLocalModel : bool.





End RoundTrip.

Definition result_fields : str := quoted "'exclusions':[{'id':'EX-1'}]".
Definition prose_before : str := lit "Here is the analysis: ".
Definition prose_after : str := lit " Let me know if more is needed.".


(** *** Where the parsing stage throws, and the stub record *)

Section Parse.
Variable number_toString : Q -> str.
Variable useLocalModel : bool.






End Parse.

Definition null_entry_text : str := quoted "{'controlFailures':[null]}".

(** C1. On the text of a record whose list of control failures holds
    [null], [JSON.parse] succeeds and the parsing stage throws: reading
    the identifier of the [null] entry raises a [TypeError], which the
    handler of the stage turns into the error of an unparsable
    response. *)
Theorem parse_response_null_entry
    (number_toString : Q -> str) (useLocalModel : bool) :
  JSON.parse null_entry_text
  = Some (Obj [(lit "controlFailures", Arr [Null])]) /\
  parse_response number_toString useLocalModel null_entry_text
  = Throw (Error (lit "AI response could not be parsed as valid JSON: Cannot read properties of null (reading 'id')")).
Proof.
  split; [vm_compute; reflexivity|].
  destruct useLocalModel; vm_compute; reflexivity.
Qed.



(** Prose that holds no brace and none of the phrases of the
    natural-language extraction gives the stub record. *)
Lemma parse_response_prose (number_toString : Q -> str) (useLocalModel : bool) :
  exists r,
    parse_response number_toString useLocalModel
      (lit "The weather was fine all week") = Ok r /\
    rawResult r = createFallbackResult (lit "The weather was fine all week").
Proof.
  destruct useLocalModel; eexists; split; vm_compute; reflexivity.
Qed.

End ParseProofs.

(** * Normalisation of the response envelope *)

Module NormalizeProofs.
Import OpenRouterAPI.

Definition envelope_text : str :=
  quoted "{'choices':[{'message':{'a':{},'b':{},'c':{},'note':'hello'}}]}".

Definition envelope : value :=
  Obj [(lit "choices",
        Arr [Obj [(lit "message",
                   Obj [(lit "a", Obj []); (lit "b", Obj []);
                        (lit "c", Obj []); (lit "note", Str (lit "hello"))])]])].

(** C7. On an envelope whose message holds three empty objects and
    then a string, all at nesting depth 1, the dump of the message
    replaces the string by the depth marker: the counter of the
    replacer counts the objects visited and is never decremented. *)
Theorem normalizeContent_sibling_objects (number_toString : Q -> str) :
  JSON.parse envelope_text = Some envelope /\
  normalizeContent number_toString envelope
  = Some (quoted "{
  'a': {},
  'b': {},
  'c': {},
  'note': '[Max Depth Reached]'
}").
Proof. split; vm_compute; reflexivity. Qed.

End NormalizeProofs.

(** * Splitting a text into chunks *)

Module ChunkProofs.
Import OpenRouterAPI RegexProofs.

(** **** trim *)

Lemma trimStart_length (s : str) : length (trimStart s) <= length s.
Proof.
  induction s as [|c s IH]; simpl; [lia|]. destruct (is_space c); simpl; lia.
Qed.

Lemma trim_length (s : str) : length (trim s) <= length s.
Proof.
  unfold trim, trimEnd. rewrite length_rev.
  pose proof (trimStart_length (rev (trimStart s))) as H1.
  pose proof (trimStart_length s) as H2.
  rewrite length_rev in H1. lia.
Qed.

Section Kept.
(** A class of characters that white space is not part of. *)
Variable P : ascii -> bool.
Hypothesis P_space : forall c, is_space c = true -> P c = false.

Lemma filter_trimStart (s : str) : filter P (trimStart s) = filter P s.
Proof.
  induction s as [|c s IH]; simpl; [reflexivity|].
  destruct (is_space c) eqn:E; [|reflexivity].
  rewrite (P_space E). exact IH.
Qed.

Lemma filter_rev (s : str) : filter P (rev s) = rev (filter P s).
Proof.
  induction s as [|c s IH]; simpl; [reflexivity|].
  rewrite filter_app, IH. simpl. destruct (P c); simpl;
    [reflexivity | rewrite app_nil_r; reflexivity].
Qed.

Lemma filter_trim (s : str) : filter P (trim s) = filter P s.
Proof.
  unfold trim, trimEnd.
  rewrite filter_rev, filter_trimStart, filter_rev, rev_involutive.
  apply filter_trimStart.
Qed.

Lemma filter_none (s : str) :
  Forall (fun c => P c = false) s -> filter P s = [].
Proof.
  induction 1 as [|c s Hc Hs IH]; simpl; [reflexivity|].
  rewrite Hc. exact IH.
Qed.

(** **** split keeps what is not a separator *)

Variable r : re.
Variable size : nat.
Hypothesis P_sep : forall c, alphabet r c = true -> P c = false.

Lemma filter_matched (s : str) (n : nat) (c : caps) :
  match_len r size s = Some (n, c) -> filter P (firstn n s) = [].
Proof.
  intro H. apply match_len_sound in H. destruct H as [_ [_ H]].
  apply filter_none. eapply Forall_impl; [|exact H]. exact P_sep.
Qed.

Lemma split_loop_kept (n : nat) :
  forall piece s,
    split_measure piece s <= n ->
    filter P (concat (split_loop r size piece s)) = filter P (rev piece ++ s).
Proof.
  induction n as [|n IH]; intros piece s Hn.
  - destruct s; [|unfold split_measure in Hn; simpl in Hn; lia].
    simp split_loop. simpl. rewrite !app_nil_r. reflexivity.
  - destruct s as [|x t].
    + simp split_loop. simpl. rewrite !app_nil_r. reflexivity.
    + assert (Hcut : forall m c,
        match_len r size (x :: t) = Some (S m, c) ->
        filter P (skipn m t) = filter P (x :: t)).
      { intros m c Hm.
        transitivity
          (filter P (firstn (S m) (x :: t) ++ skipn (S m) (x :: t)));
          [|rewrite firstn_skipn; reflexivity].
        rewrite filter_app, (filter_matched Hm). reflexivity. }
      destruct piece as [|p piece]; simp split_loop;
        destruct (match_len r size (x :: t)) as [[[|m] c]|] eqn:E.
      * rewrite IH by (unfold split_measure in *; simpl in *; lia).
        reflexivity.
      * cbn [concat app rev].
        rewrite IH by (unfold split_measure in *; simpl in *;
                       rewrite length_skipn; lia).
        cbn [rev app]. exact (Hcut _ _ eq_refl).
      * rewrite IH by (unfold split_measure in *; simpl in *; lia).
        reflexivity.
      * cbn [concat]. rewrite filter_app.
        rewrite IH by (unfold split_measure in *; simpl in *; lia).
        cbn [rev app]. rewrite <- filter_app. reflexivity.
      * cbn [concat]. rewrite filter_app.
        rewrite IH by (unfold split_measure in *; simpl in *;
                       rewrite length_skipn; lia).
        cbn [rev app]. rewrite (Hcut _ _ eq_refl), <- filter_app. reflexivity.
      * rewrite IH by (unfold split_measure in *; simpl in *; lia).
        cbn [rev]. rewrite <- !app_assoc. reflexivity.
Qed.

End Kept.

Lemma split_kept (P : ascii -> bool) (r : re) (s : str) :
  (forall c, alphabet r c = true -> P c = false) ->
  min_len r >= 1 ->
  filter P (concat (split r s)) = filter P s.
Proof.
  intros P_sep Hmin. unfold split. destruct s as [|x t].
  - destruct (exec_at r 0 []) as [m|] eqn:E; [|reflexivity].
    unfold exec_at in E.
    destruct (match_len r 0 []) as [[n c]|] eqn:E'; [|discriminate].
    apply match_len_sound in E'. simpl in E'. lia.
  - rewrite (@split_loop_kept P r (length (x :: t)) P_sep
               (split_measure [] (x :: t))) by lia.
    reflexivity.
Qed.

(** **** The accumulation loop *)

Section Accumulate.
Variable maxChars : nat.
Variable sep : str.

Section AccKept.
Variable P : ascii -> bool.
Hypothesis P_space : forall c, is_space c = true -> P c = false.
Hypothesis P_sep : filter P sep = [].

Lemma accumulate_kept (pieces : list str) :
  forall chunks current,
    filter P (concat (fst (accumulate maxChars sep pieces chunks current))
              ++ snd (accumulate maxChars sep pieces chunks current))
    = filter P (concat chunks ++ current ++ concat pieces).
Proof.
  induction pieces as [|piece t IH]; intros chunks current; simpl.
  - rewrite app_nil_r. reflexivity.
  - destruct ((maxChars <? length current + length piece)
              && (0 <? length current)).
    + rewrite IH. rewrite concat_app. cbn [concat].
      rewrite app_nil_r, !filter_app, (filter_trim P_space).
      rewrite <- !app_assoc. reflexivity.
    + rewrite IH. rewrite !filter_app.
      destruct (0 <? length current); rewrite ?P_sep; cbn [filter app];
        rewrite <- !app_assoc; reflexivity.
Qed.

Lemma pack_kept (pieces chunks : list str) :
  filter P (concat (pack maxChars sep pieces chunks))
  = filter P (concat chunks ++ concat pieces).
Proof.
  unfold pack.
  pose proof (accumulate_kept pieces chunks []) as H.
  destruct (accumulate maxChars sep pieces chunks []) as [chunks' current].
  cbn [fst snd app] in H. rewrite <- H.
  destruct (0 <? length (trim current)) eqn:E.
  - rewrite concat_app. cbn [concat]. rewrite app_nil_r.
    rewrite !filter_app, (filter_trim P_space). reflexivity.
  - rewrite filter_app. rewrite <- (filter_trim P_space current).
    apply Nat.ltb_ge in E.
    destruct (trim current); [|simpl in E; lia].
    rewrite app_nil_r. reflexivity.
Qed.
End AccKept.

(** A chunk within the budget and the separator joined last, or a
    single piece, trimmed. *)
Definition fits (all : list str) (chunk : str) : Prop :=
  length chunk <= maxChars + length sep \/
  exists piece, In piece all /\ chunk = trim piece.

(** The invariant of [current]. *)
Definition current_fits (all : list str) (current : str) : Prop :=
  length current <= maxChars + length sep \/ In current all.

Lemma fits_trim (all : list str) (current : str) :
  current_fits all current -> fits all (trim current).
Proof.
  intros [H|H].
  - left. pose proof (trim_length current). lia.
  - right. exists current. split; [exact H | reflexivity].
Qed.

Lemma accumulate_fits (Q : str -> Prop) (all pieces : list str) :
  (forall chunk, fits all chunk -> Q chunk) ->
  incl pieces all ->
  forall chunks current,
    Forall Q chunks -> current_fits all current ->
    Forall Q (fst (accumulate maxChars sep pieces chunks current)) /\
    current_fits all (snd (accumulate maxChars sep pieces chunks current)).
Proof.
  intro HQ.
  induction pieces as [|piece t IH]; intros Hin chunks current Hc Hcur;
    simpl; [split; assumption|].
  assert (Ht : incl t all) by (intros p Hp; apply Hin; right; exact Hp).
  assert (Hp : In piece all) by (apply Hin; left; reflexivity).
  destruct (maxChars <? length current + length piece) eqn:E1;
    destruct (0 <? length current) eqn:E2; cbn [andb].
  - apply IH; [exact Ht | | right; exact Hp].
    apply Forall_app. split; [exact Hc|].
    constructor; [apply HQ, fits_trim; exact Hcur | constructor].
  - apply IH; [exact Ht | exact Hc |].
    apply Nat.ltb_ge in E2. destruct current; [|simpl in E2; lia].
    right. exact Hp.
  - apply IH; [exact Ht | exact Hc |].
    left. apply Nat.ltb_ge in E1. rewrite !length_app. lia.
  - apply IH; [exact Ht | exact Hc |].
    apply Nat.ltb_ge in E2. destruct current; [|simpl in E2; lia].
    right. exact Hp.
Qed.

Lemma pack_fits (Q : str -> Prop) (all pieces chunks : list str) :
  (forall chunk, fits all chunk -> Q chunk) ->
  incl pieces all ->
  Forall Q chunks ->
  Forall Q (pack maxChars sep pieces chunks).
Proof.
  intros HQ Hin Hc. unfold pack.
  destruct (@accumulate_fits Q all pieces HQ Hin chunks [] Hc) as [H1 H2];
    [left; simpl; lia|].
  destruct (accumulate maxChars sep pieces chunks []) as [chunks' current].
  cbn [fst snd] in *.
  destruct (0 <? length (trim current)); [|exact H1].
  apply Forall_app. split; [exact H1|].
  constructor; [apply HQ, fits_trim; exact H2 | constructor].
Qed.

(** The room the pieces take when a separator precedes each. *)
Definition weight (pieces : list str) : nat :=
  fold_right (fun piece n => length sep + length piece + n) 0 pieces.

(** Under the budget nothing is flushed. *)
Lemma accumulate_under (pieces : list str) :
  forall chunks current,
    length current + weight pieces <= maxChars ->
    fst (accumulate maxChars sep pieces chunks current) = chunks /\
    length (snd (accumulate maxChars sep pieces chunks current))
    <= maxChars.
Proof.
  induction pieces as [|piece t IH]; intros chunks current H; simpl in *.
  - split; [reflexivity | lia].
  - assert (E : (maxChars <? length current + length piece) = false)
      by (apply Nat.ltb_ge; lia).
    rewrite E. cbn [andb]. apply IH.
    rewrite !length_app. destruct (0 <? length current); simpl; lia.
Qed.

Lemma pack_under (pieces : list str) :
  weight pieces <= maxChars + length sep ->
  pack maxChars sep pieces [] = [] \/
  exists chunk,
    pack maxChars sep pieces [] = [chunk] /\ length chunk <= maxChars.
Proof.
  intro H. unfold pack.
  assert (Hacc :
    fst (accumulate maxChars sep pieces [] []) = [] /\
    length (snd (accumulate maxChars sep pieces [] [])) <= maxChars).
  { destruct pieces as [|piece t]; [simpl; split; [reflexivity | lia]|].
    cbn [accumulate length]. rewrite andb_false_r. cbn [app Nat.ltb Nat.leb].
    apply accumulate_under. simpl in H. lia. }
  destruct (accumulate maxChars sep pieces [] []) as [chunks current].
  cbn [fst snd] in Hacc. destruct Hacc as [-> Hlen].
  destruct (0 <? length (trim current)); [|left; reflexivity].
  right. exists (trim current). split; [reflexivity|].
  pose proof (trim_length current). lia.
Qed.
End Accumulate.

(** **** The weight of the pieces of a split *)

Lemma split_loop_weight (sep : str) (r : re) (size : nat) (n : nat) :
  1 <= length sep -> length sep <= min_len r ->
  forall piece s,
    split_measure piece s <= n ->
    weight sep (split_loop r size piece s)
    <= length sep + length piece + length s.
Proof.
  intros Hsep Hmin. unfold weight.
  induction n as [|n IH]; intros piece s Hn.
  - destruct s; [|unfold split_measure in Hn; simpl in Hn; lia].
    simp split_loop. simpl. rewrite length_rev. lia.
  - destruct s as [|x t].
    + simp split_loop. simpl. rewrite length_rev. lia.
    + destruct piece as [|p piece]; simp split_loop;
        destruct (match_len r size (x :: t)) as [[[|m] c]|] eqn:E;
        try (apply match_len_sound in E; destruct E as [E1 [E2 _]]);
        try lia.
      * cbn [fold_right].
        specialize (IH [] (skipn m t)).
        rewrite length_skipn in IH. cbn [length] in *.
        assert (H : split_measure [] (skipn m t) <= n)
          by (unfold split_measure in *; rewrite length_skipn;
              simpl in *; lia).
        specialize (IH H). lia.
      * specialize (IH [x] t). cbn [length] in *.
        assert (H : split_measure [x] t <= n)
          by (unfold split_measure in *; simpl in *; lia).
        specialize (IH H). lia.
      * cbn [fold_right].
        specialize (IH [] (skipn m t)).
        rewrite length_skipn in IH. rewrite length_rev. cbn [length] in *.
        assert (H : split_measure [] (skipn m t) <= n)
          by (unfold split_measure in *; rewrite length_skipn;
              simpl in *; lia).
        specialize (IH H). lia.
      * specialize (IH (x :: p :: piece) t). cbn [length] in *.
        assert (H : split_measure (x :: p :: piece) t <= n)
          by (unfold split_measure in *; simpl in *; lia).
        specialize (IH H). lia.
Qed.

Lemma split_weight (sep : str) (r : re) (s : str) :
  1 <= length sep -> length sep <= min_len r ->
  weight sep (split r s) <= length sep + length s.
Proof.
  intros Hsep Hmin. unfold split. destruct s as [|x t].
  - destruct (exec_at r 0 []); simpl; lia.
  - pose proof (@split_loop_weight sep r (length (x :: t))
                  (split_measure [] (x :: t)) Hsep Hmin [] (x :: t)
                  (le_n _)) as H.
    cbn [length] in *. lia.
Qed.

(** **** The patterns of the two splits *)

Definition nonspace (c : ascii) : bool := negb (is_space c).

(** What is neither white space nor the punctuation that ends a
    sentence. *)
Definition content_char (c : ascii) : bool :=
  negb (is_space c || one_of ".!?" c).

Lemma paragraph_alphabet (c : ascii) :
  alphabet re_paragraph c = true -> is_space c = true.
Proof.
  unfold re_paragraph, cat. cbn [fold_right alphabet]. unfold ch.
  rewrite orb_false_r.
  destruct (Ascii.eqb LF c) eqn:E.
  - apply Ascii.eqb_eq in E. subst c. reflexivity.
  - cbn [orb]. rewrite orb_false_r. tauto.
Qed.

Lemma sentence_alphabet (c : ascii) :
  alphabet re_sentence c = true ->
  is_space c = true \/ one_of ".!?" c = true.
Proof.
  unfold re_sentence, cat, Plus. cbn [fold_right alphabet].
  rewrite orb_false_r, !orb_diag. intro H.
  apply orb_true_iff in H. tauto.
Qed.

Lemma nonspace_space (c : ascii) : is_space c = true -> nonspace c = false.
Proof. unfold nonspace. intros ->. reflexivity. Qed.

Lemma content_space (c : ascii) : is_space c = true -> content_char c = false.
Proof. unfold content_char. intros ->. reflexivity. Qed.

Lemma content_sentence (c : ascii) :
  alphabet re_sentence c = true -> content_char c = false.
Proof.
  intro H. apply sentence_alphabet in H. unfold content_char.
  destruct H as [-> | ->]; [reflexivity | rewrite orb_true_r; reflexivity].
Qed.

Lemma content_paragraph (c : ascii) :
  alphabet re_paragraph c = true -> content_char c = false.
Proof. intro H. apply content_space, paragraph_alphabet, H. Qed.

(** **** splitTextIntoChunks *)

Section Chunks.
Variable maxTokens : nat.
Let maxChars := maxTokens * 4.

(** The chunks of the first loop. *)
Definition paragraph_chunks (text : str) : list str :=
  pack maxChars paragraph_sep (split re_paragraph text) [].

Lemma splitTextIntoChunks_unfold (text : str) :
  splitTextIntoChunks text maxTokens
  = fold_left (resplit maxChars) (paragraph_chunks text) [].
Proof. reflexivity. Qed.

Lemma fold_resplit_kept (chunks : list str) :
  forall finalChunks,
    filter content_char
      (concat (fold_left (resplit maxChars) chunks finalChunks))
    = filter content_char (concat finalChunks ++ concat chunks).
Proof.
  induction chunks as [|chunk t IH]; intro finalChunks; simpl.
  - rewrite app_nil_r. reflexivity.
  - rewrite IH. unfold resplit.
    destruct (maxChars <? length chunk).
    + rewrite filter_app, (pack_kept maxChars content_space);
        [|reflexivity].
      rewrite !filter_app, (split_kept chunk content_sentence);
        [|simpl; lia].
      rewrite <- !app_assoc. reflexivity.
    + rewrite concat_app. cbn [concat]. rewrite app_nil_r.
      rewrite !filter_app, <- !app_assoc. reflexivity.
Qed.

(** The chunks hold the text, white space and the punctuation that
    ends sentences apart. *)
Lemma chunks_content (text : str) :
  filter content_char (concat (splitTextIntoChunks text maxTokens))
  = filter content_char text.
Proof.
  rewrite splitTextIntoChunks_unfold, fold_resplit_kept. cbn [concat app].
  unfold paragraph_chunks.
  rewrite (pack_kept maxChars content_space); [|reflexivity].
  cbn [concat app]. apply split_kept; [exact content_paragraph|].
  simpl. lia.
Qed.

(** A chunk of the result: within the budget and one separator, or a
    single sentence of a chunk of the first loop, trimmed. *)
Definition chunk_fits (text : str) (chunk : str) : Prop :=
  length chunk <= maxChars + 2 \/
  exists paragraphs sentence,
    In paragraphs (paragraph_chunks text) /\
    maxChars < length paragraphs /\
    In sentence (split re_sentence paragraphs) /\
    chunk = trim sentence.

Lemma fold_resplit_fits (text : str) (chunks : list str) :
  incl chunks (paragraph_chunks text) ->
  forall finalChunks,
    Forall (chunk_fits text) finalChunks ->
    Forall (chunk_fits text) (fold_left (resplit maxChars) chunks finalChunks).
Proof.
  induction chunks as [|chunk t IH]; intros Hin finalChunks Hf; simpl;
    [exact Hf|].
  apply IH; [intros c Hc; apply Hin; right; exact Hc|].
  unfold resplit. destruct (maxChars <? length chunk) eqn:E.
  - apply Nat.ltb_lt in E.
    apply (@pack_fits maxChars sentence_sep (chunk_fits text)
             (split re_sentence chunk));
      [|apply incl_refl | exact Hf].
    intros c [H|[piece [Hp ->]]]; [left; exact H|].
    right. exists chunk, piece.
    repeat split; try assumption. apply Hin. left. reflexivity.
  - apply Forall_app. split; [exact Hf|].
    constructor; [|constructor]. left. apply Nat.ltb_ge in E. lia.
Qed.

(** Every chunk is within the budget and one separator, unless it is
    a single sentence. *)
Lemma chunks_fit (text : str) :
  Forall (chunk_fits text) (splitTextIntoChunks text maxTokens).
Proof.
  rewrite splitTextIntoChunks_unfold.
  apply fold_resplit_fits; [apply incl_refl | constructor].
Qed.

(** A text under the budget makes at most one chunk, which is the
    text up to white space. *)
Lemma chunks_under_budget (text : str) :
  length text <= maxChars ->
  (splitTextIntoChunks text maxTokens = [] \/
   exists chunk, splitTextIntoChunks text maxTokens = [chunk]) /\
  filter nonspace (concat (splitTextIntoChunks text maxTokens))
  = filter nonspace text.
Proof.
  intro Hlen. rewrite splitTextIntoChunks_unfold.
  assert (Hw : weight paragraph_sep (split re_paragraph text)
               <= maxChars + length paragraph_sep).
  { pose proof (@split_weight paragraph_sep re_paragraph text) as H.
    simpl in H. simpl. lia. }
  assert (Hk : filter nonspace (concat (paragraph_chunks text))
               = filter nonspace text).
  { unfold paragraph_chunks.
    rewrite (pack_kept maxChars nonspace_space); [|reflexivity].
    cbn [concat app]. apply split_kept; [|simpl; lia].
    intros c Hc. apply nonspace_space, paragraph_alphabet, Hc. }
  destruct (pack_under Hw) as [H|[chunk [H Hc]]];
    fold (paragraph_chunks text) in H; rewrite H in *.
  - split; [left; reflexivity | exact Hk].
  - assert (E : (maxChars <? length chunk) = false)
      by (apply Nat.ltb_ge; exact Hc).
    cbn [fold_left]. unfold resplit. rewrite E. cbn [app].
    split; [right; exists chunk; reflexivity | exact Hk].
Qed.
End Chunks.

(** **** Texts that hold no separator *)

Lemma split_loop_whole (r : re) (size : nat) (s : str) :
  Forall (fun x => forall t, match_len r size (x :: t) = None) s ->
  forall piece, split_loop r size piece s = [rev piece ++ s].
Proof.
  induction 1 as [|x t Hx Ht IH]; intro piece.
  - simp split_loop. rewrite app_nil_r. reflexivity.
  - destruct piece as [|p piece]; simp split_loop; rewrite Hx, IH;
      cbn [rev app]; rewrite <- ?app_assoc; reflexivity.
Qed.

Lemma split_whole (r : re) (s : str) :
  s <> [] ->
  Forall (fun x => forall t, match_len r (length s) (x :: t) = None) s ->
  split r s = [s].
Proof.
  intros Hne H. unfold split. destruct s as [|x t]; [contradiction|].
  rewrite (split_loop_whole H). reflexivity.
Qed.

Lemma paragraph_head (size : nat) (x : ascii) (t : str) :
  Ascii.eqb LF x = false -> match_len re_paragraph size (x :: t) = None.
Proof.
  intro H. unfold match_len, re_paragraph, cat. cbn [fold_right mtch].
  unfold ch. rewrite H. reflexivity.
Qed.

Lemma sentence_head (size : nat) (x : ascii) (t : str) :
  one_of ".!?" x = false -> match_len re_sentence size (x :: t) = None.
Proof.
  intro H. unfold match_len, re_sentence, cat, Plus. cbn [fold_right mtch].
  rewrite H. reflexivity.
Qed.

Lemma pack_single (maxChars : nat) (sep text : str) :
  text <> [] -> trim text = text ->
  pack maxChars sep [text] [] = [text].
Proof.
  intros Hne Ht. unfold pack. cbn [accumulate length].
  rewrite andb_false_r. cbn [app Nat.ltb Nat.leb]. rewrite Ht.
  destruct text; [contradiction | reflexivity].
Qed.

Lemma trimStart_id (s : str) :
  (forall c t, s = c :: t -> is_space c = false) -> trimStart s = s.
Proof.
  destruct s as [|c t]; intro H; [reflexivity|].
  simpl. rewrite (H c t eq_refl). reflexivity.
Qed.

Lemma trim_nospace (s : str) :
  Forall (fun c => is_space c = false) s -> trim s = s.
Proof.
  intro H. unfold trim, trimEnd.
  rewrite (@trimStart_id s).
  2:{ intros c t ->. inversion H; assumption. }
  rewrite (@trimStart_id (rev s)); [apply rev_involutive|].
  intros c t E. rewrite Forall_forall in H. apply H.
  apply in_rev. rewrite E. left. reflexivity.
Qed.

Section Whole.
Variable maxTokens : nat.

(** A text of one paragraph, trimmed, under the budget: one chunk,
    the text. *)
Lemma chunks_one_paragraph (text : str) :
  text <> [] -> trim text = text ->
  Forall (fun c => Ascii.eqb LF c = false) text ->
  length text <= maxTokens * 4 ->
  splitTextIntoChunks text maxTokens = [text].
Proof.
  intros Hne Ht Hlf Hlen. unfold splitTextIntoChunks.
  rewrite (@split_whole re_paragraph text Hne).
  2:{ eapply Forall_impl; [|exact Hlf]. intros x Hx t.
      apply paragraph_head. exact Hx. }
  rewrite (pack_single _ _ Hne Ht). cbn [fold_left]. unfold resplit.
  replace (maxTokens * 4 <? length text) with false
    by (symmetry; apply Nat.ltb_ge; exact Hlen).
  reflexivity.
Qed.

(** A text without white space and without the punctuation that ends
    a sentence is one chunk, whatever its length. *)
Lemma chunks_one_word (text : str) :
  text <> [] ->
  Forall (fun c => is_space c = false) text ->
  Forall (fun c => one_of ".!?" c = false) text ->
  splitTextIntoChunks text maxTokens = [text].
Proof.
  intros Hne Hs Hp. unfold splitTextIntoChunks.
  pose proof (trim_nospace Hs) as Ht.
  rewrite (@split_whole re_paragraph text Hne).
  2:{ eapply Forall_impl; [|exact Hs]. intros x Hx t.
      apply paragraph_head.
      destruct (Ascii.eqb LF x) eqn:E; [|reflexivity].
      apply Ascii.eqb_eq in E. subst x. discriminate. }
  rewrite (pack_single _ _ Hne Ht). cbn [fold_left]. unfold resplit.
  destruct (maxTokens * 4 <? length text); [|reflexivity].
  rewrite (@split_whole re_sentence text Hne).
  2:{ eapply Forall_impl; [|exact Hp]. intros x Hx t.
      apply sentence_head. exact Hx. }
  apply pack_single; assumption.
Qed.
End Whole.

(** *** The chunks of a text *)

(** C4.  With a budget of [maxTokens] tokens, that is
    [maxTokens * 4] characters (25000 and 100000 in the pipeline):
    - a text under the budget yields at most one chunk, which holds the
      text up to white space (none when the text is blank);
    - a non-empty text under the budget with no line feed and no white
      space at either end yields exactly one chunk, the text itself;
    - the chunks of any text, put together, hold the characters of the
      text in order, white space and the marks that end a sentence set
      aside (the splitter drops them and joins sentences with a full
      stop and a space);
    - every chunk is at most two characters (a paragraph separator)
      above the budget, or is one trimmed sentence of a paragraph chunk
      that is over the budget. *)
Theorem splitTextIntoChunks_chunks (maxTokens : nat) (text : str) :
  (length text <= maxTokens * 4 ->
   (splitTextIntoChunks text maxTokens = [] \/
    exists chunk, splitTextIntoChunks text maxTokens = [chunk]) /\
   filter nonspace (concat (splitTextIntoChunks text maxTokens))
   = filter nonspace text) /\
  (text <> [] -> trim text = text ->
   Forall (fun c => Ascii.eqb LF c = false) text ->
   length text <= maxTokens * 4 ->
   splitTextIntoChunks text maxTokens = [text]) /\
  filter content_char (concat (splitTextIntoChunks text maxTokens))
  = filter content_char text /\
  Forall (chunk_fits maxTokens text) (splitTextIntoChunks text maxTokens).
Proof.
  split; [apply chunks_under_budget|].
  split; [apply chunks_one_paragraph|].
  split; [apply chunks_content | apply chunks_fit].
Qed.

Definition report_body : str := lit "Report body".

Lemma splitTextIntoChunks_chunks_witness :
  splitTextIntoChunks report_body maxTokensPerChunk = [report_body].
Proof.
  apply (proj1 (proj2 (splitTextIntoChunks_chunks maxTokensPerChunk report_body))).
  - discriminate.
  - reflexivity.
  - apply Forall_forallb. reflexivity.
  - apply Nat.leb_le. vm_compute. reflexivity.
Defined.

(** A text under the budget that starts with a space is not returned
    as it is, and a word of one character more than the budget is a
    chunk above the budget. *)
Lemma splitTextIntoChunks_not_exact :
  splitTextIntoChunks (lit " a") 25000 <> [lit " a"] /\
  exists chunk,
    In chunk (splitTextIntoChunks (repeat "a"%char (S (25000 * 4))) 25000) /\
    25000 * 4 < length chunk.
Proof.
  split.
  - vm_compute. discriminate.
  - exists (repeat "a"%char (S (25000 * 4))).
    rewrite chunks_one_word.
    + split; [left; reflexivity|]. rewrite repeat_length. lia.
    + cbn [repeat]. discriminate.
    + apply Forall_forall. intros c Hc. apply repeat_spec in Hc. subst c.
      reflexivity.
    + apply Forall_forall. intros c Hc. apply repeat_spec in Hc. subst c.
      reflexivity.
Qed.

End ChunkProofs.

(** * Decimal numerals *)

Module NumeralProofs.

Definition is_digit (c : ascii) : bool :=
  (48 <=? code c) && (code c <=? 57).

Lemma digits_of_uint (d : Decimal.uint) :
  Forall (fun c => is_digit c = true) (lit (NilEmpty.string_of_uint d)).
Proof.
  unfold lit. induction d; cbn [NilEmpty.string_of_uint list_ascii_of_string];
    constructor; try assumption; reflexivity.
Qed.

Lemma nat_to_str_digits (n : nat) :
  Forall (fun c => is_digit c = true) (nat_to_str n).
Proof.
  unfold nat_to_str, NilZero.string_of_uint.
  destruct (Nat.to_uint n); try apply digits_of_uint.
  repeat constructor.
Qed.

Lemma to_uint_nonnil (n : nat) : Nat.to_uint n <> Decimal.Nil.
Proof.
  rewrite <- (DecimalNat.Unsigned.of_to n) at 1. rewrite DecimalNat.Unsigned.to_of.
  apply DecimalFacts.unorm_nonnil.
Qed.

Lemma nat_to_str_inj (n m : nat) : nat_to_str n = nat_to_str m -> n = m.
Proof.
  unfold nat_to_str, lit. intro H.
  apply (f_equal string_of_list_ascii) in H.
  rewrite !string_of_list_ascii_of_string in H.
  apply (f_equal NilZero.uint_of_string) in H.
  rewrite !NilZero.usu in H by apply to_uint_nonnil.
  injection H as H. apply DecimalNat.Unsigned.to_uint_inj. exact H.
Qed.

(** Two numerals followed by a character that is no digit, and more. *)
Lemma numeral_prefix (a a' b b' : str) (c : ascii) :
  Forall (fun x => is_digit x = true) a ->
  Forall (fun x => is_digit x = true) a' ->
  is_digit c = false ->
  a ++ c :: b = a' ++ c :: b' -> a = a' /\ b = b'.
Proof.
  intros Ha. revert a'. induction Ha as [|x a Hx Ha IH]; intros a' Ha' Hc E.
  - destruct Ha' as [|y a' Hy Ha']; cbn [app] in E.
    + injection E as ->. split; reflexivity.
    + injection E as -> _. congruence.
  - destruct Ha' as [|y a' Hy Ha']; cbn [app] in E.
    + injection E as -> _. congruence.
    + injection E as -> E. destruct (IH a' Ha' Hc E) as [-> ->].
      split; reflexivity.
Qed.

End NumeralProofs.

(** * Properties of the pages and of their tables *)

Module PageProofs.
Import PDFProcessor TableProofs PDFDocument NumeralProofs.

(** **** The grouper keeps every item, once *)

Lemma place_permutation (item : TextItem) (rows : list Row) :
  Permutation (concat (place item rows)) (item :: concat rows).
Proof.
  induction rows as [|row rest IH]; simpl; [reflexivity|].
  assert (Hskip : Permutation (row ++ concat (place item rest))
                              (item :: row ++ concat rest)).
  { rewrite IH. symmetry. apply Permutation_middle. }
  destruct row as [|r0 row']; [exact Hskip|].
  destruct (Qle_bool _ _); [|exact Hskip].
  cbn [concat]. rewrite <- app_assoc. cbn [app].
  symmetry. apply (Permutation_middle (r0 :: row') (concat rest) item).
Qed.

Lemma fold_place_permutation (items : list TextItem) :
  forall rows,
    Permutation (concat (fold_left (fun rows item => place item rows) items rows))
                (items ++ concat rows).
Proof.
  induction items as [|item t IH]; intro rows; simpl; [reflexivity|].
  rewrite IH, place_permutation. symmetry. apply Permutation_middle.
Qed.

Section SortFacts.
Variable A : Type.
Variable le : A -> A -> bool.

Lemma insert_sorted_permutation (x : A) (l : list A) :
  Permutation (insert_sorted le x l) (x :: l).
Proof.
  induction l as [|y t IH]; simpl; [reflexivity|].
  destruct (le x y); [reflexivity|].
  rewrite IH. apply perm_swap.
Qed.

Lemma sort_permutation (l : list A) : Permutation (sort le l) l.
Proof.
  induction l as [|x t IH]; simpl; [reflexivity|].
  rewrite insert_sorted_permutation. constructor. exact IH.
Qed.
End SortFacts.

Lemma concat_permutation (A : Type) (l1 l2 : list (list A)) :
  Permutation l1 l2 -> Permutation (concat l1) (concat l2).
Proof.
  induction 1; simpl.
  - reflexivity.
  - apply Permutation_app_head. assumption.
  - rewrite !app_assoc. apply Permutation_app_tail. apply Permutation_app_comm.
  - etransitivity; eassumption.
Qed.

Lemma concat_map_permutation (A : Type) (f : list A -> list A) (l : list (list A)) :
  (forall x, Permutation (f x) x) ->
  Permutation (concat (map f l)) (concat l).
Proof.
  intro H. induction l as [|x t IH]; simpl; [reflexivity|].
  apply Permutation_app; [apply H | exact IH].
Qed.

(** The rows of [place]: none is empty, and the items of a row lie
    within the tolerance of its first item. *)
Definition anchored (row : Row) : Prop :=
  exists anchor,
    In anchor row /\
    Forall (fun item =>
              (Qabs (item_y item - item_y anchor) <= yTolerance)%Q) row.

Lemma within_self (item : TextItem) :
  (Qabs (item_y item - item_y item) <= yTolerance)%Q.
Proof.
  setoid_replace (item_y item - item_y item)%Q with 0%Q by ring.
  vm_compute. discriminate.
Qed.

Definition headed (row : Row) : Prop :=
  match row with
  | [] => False
  | r0 :: _ =>
      Forall (fun item =>
                (Qabs (item_y item - item_y r0) <= yTolerance)%Q) row
  end.

Lemma place_headed (item : TextItem) (rows : list Row) :
  Forall headed rows -> Forall headed (place item rows).
Proof.
  induction rows as [|row rest IH]; intro H; cbn [place].
  - constructor; [|constructor]. cbn [headed].
    constructor; [apply within_self | constructor].
  - inversion H as [|? ? Hrow Hrest]; subst.
    destruct row as [|r0 row']; [contradiction|].
    destruct (Qle_bool (Qabs (item_y item - item_y r0)) yTolerance) eqn:E.
    + constructor; [|exact Hrest]. cbn [headed app]. cbn [headed] in Hrow.
      apply (proj2 (Forall_app _ (r0 :: row') [item])). split; [exact Hrow|].
      constructor; [|constructor]. apply Qle_bool_iff. exact E.
    + constructor; [exact Hrow | apply IH; exact Hrest].
Qed.

Lemma fold_place_headed (items : list TextItem) :
  forall rows,
    Forall headed rows ->
    Forall headed (fold_left (fun rows item => place item rows) items rows).
Proof.
  induction items as [|item t IH]; intros rows H; simpl; [exact H|].
  apply IH, place_headed, H.
Qed.

Lemma headed_anchored (row row' : Row) :
  headed row -> Permutation row row' -> anchored row'.
Proof.
  destruct row as [|r0 t]; [contradiction|]. simpl. intros H Hp.
  exists r0. split.
  - apply (Permutation_in _ Hp). left. reflexivity.
  - apply (Permutation_Forall Hp). exact H.
Qed.

(** The grouper loses and repeats no item: its rows, put together, are
    the items up to their order; no row is empty; and the items of a
    row lie within the tolerance of 3 of one of them (the first one
    placed in the row). *)
Theorem groupTextItemsIntoRows_partition (textItems : list TextItem) :
  Permutation (concat (groupTextItemsIntoRows textItems)) textItems /\
  Forall anchored (groupTextItemsIntoRows textItems).
Proof.
  unfold groupTextItemsIntoRows. cbv zeta. split.
  - rewrite concat_map_permutation by (apply sort_permutation).
    rewrite (concat_permutation (sort_permutation rows_le _)).
    rewrite fold_place_permutation. simpl. rewrite app_nil_r. reflexivity.
  - apply Forall_forall. intros row' H. apply in_map_iff in H.
    destruct H as [row [<- H]].
    apply (Permutation_in _ (sort_permutation rows_le _)) in H.
    pose proof (fold_place_headed textItems (Forall_nil headed)) as Hh.
    rewrite Forall_forall in Hh.
    apply (headed_anchored (Hh row H)).
    symmetry. apply sort_permutation.
Qed.

(** **** The cells of a table are the items of its rows *)

Definition cell_of (item : TextItem) (cell : TableCell) : Prop :=
  cell_text cell = item_str item /\
  cell_x cell = item_x item /\ cell_y cell = item_y item /\
  cell_width cell = or_zero (item_width item) /\
  cell_height cell = or_zero (item_height item).

Lemma row_cells_items (r : nat) (row : Row) :
  forall c0,
    length (row_cells r c0 row) = length row /\
    Forall (fun cell => exists item, In item row /\ cell_of item cell)
           (row_cells r c0 row).
Proof.
  induction row as [|item t IH]; intro c0; cbn [row_cells length].
  - split; [reflexivity | constructor].
  - destruct (IH (S c0)) as [Hl Hf]. split; [rewrite Hl; reflexivity|].
    constructor.
    + exists item. split; [left; reflexivity|]. repeat split.
    + revert Hf. apply Forall_impl. intros cell [i [Hi Hc]].
      exists i. split; [right; exact Hi | exact Hc].
Qed.

Lemma all_cells_items (rows : list Row) :
  forall r0,
    length (all_cells r0 rows) = length (concat rows) /\
    Forall (fun cell => exists item, In item (concat rows) /\ cell_of item cell)
           (all_cells r0 rows).
Proof.
  induction rows as [|row t IH]; intro r0; cbn [all_cells concat].
  - split; [reflexivity | constructor].
  - destruct (IH (S r0)) as [Hl Hf].
    destruct (row_cells_items r0 row 0) as [Hl0 Hf0].
    split; [rewrite !length_app, Hl, Hl0; reflexivity|].
    apply Forall_app. split.
    + revert Hf0. apply Forall_impl. intros cell [i [Hi Hc]].
      exists i. split; [apply in_or_app; left; exact Hi | exact Hc].
    + revert Hf. apply Forall_impl. intros cell [i [Hi Hc]].
      exists i. split; [apply in_or_app; right; exact Hi | exact Hc].
Qed.

Lemma qualifying_length (row : Row) :
  isTableRow row = true -> MIN_TABLE_COLS <= length row.
Proof.
  intro H. destruct (le_lt_dec MIN_TABLE_COLS (length row)) as [Hl|Hl];
    [exact Hl|]. rewrite (isTableRow_short Hl) in H. discriminate.
Qed.

Lemma concat_length_lower (rows : list Row) (n : nat) :
  Forall (fun row => n <= length row) rows ->
  length rows * n <= length (concat rows).
Proof.
  induction 1 as [|row t H Ht IH]; cbn [concat length]; [lia|].
  rewrite length_app. lia.
Qed.

(** The candidates of a page, each with the place it has among the rows. *)
Lemma detected_run (rows : list Row) (c : Candidate) :
  In c (detectTableStructures rows) ->
  exists pre post,
    rows = pre ++ cand_rows c ++ post /\
    Forall (fun row => isTableRow row = true) (cand_rows c) /\
    MIN_TABLE_ROWS <= length (cand_rows c).
Proof.
  unfold detectTableStructures. intro H.
  apply (@detect_from_spec (length rows) rows (le_n _) []
           (or_introl (fun p' r E => match app_cons_not_nil _ _ _ E with end)))
    in H.
  destruct H as [[pre [post [E [Hq _]]]] [Hl _]].
  exists pre, post. repeat split; assumption.
Qed.

(** A table of a page belongs to that page, has at least nine cells
    (three rows of three items or more), no more cells than the page
    has items with text, and each of its cells holds the text and the
    origin of such an item. *)
Theorem extractTablesFromPage_cells
    (items : list TextItem) (pageNum : nat) (table : Table) :
  In table (extractTablesFromPage items pageNum) ->
  pageNumber table = pageNum /\
  9 <= length (cells table) <= length (filter has_text items) /\
  Forall (fun cell =>
            exists item,
              In item items /\ has_text item = true /\ cell_of item cell)
         (cells table).
Proof.
  unfold extractTablesFromPage.
  destruct (length (filter has_text items) =? 0); [intros []|]. cbv zeta.
  intro H. apply (tables_of_spec pageNum _ 0) in H.
  destruct H as [k [c [Hk [Hc _]]]].
  apply nth_error_In in Hk. apply detected_run in Hk.
  destruct Hk as [pre [post [E [Hq Hl]]]].
  unfold createTableFromCandidate in Hc.
  destruct (length (cand_rows c) =? 0); [discriminate|].
  injection Hc as <-. cbn [pageNumber cells].
  destruct (all_cells_items (cand_rows c) 0) as [Hlen Hcells].
  destruct (groupTextItemsIntoRows_partition (filter has_text items))
    as [Hperm _].
  rewrite E in Hperm. rewrite !concat_app in Hperm.
  split; [reflexivity|]. split; [split|].
  - rewrite Hlen.
    assert (H3 : length (cand_rows c) * 3 <= length (concat (cand_rows c))).
    { apply concat_length_lower. revert Hq. apply Forall_impl.
      intros row Hr. apply qualifying_length in Hr. exact Hr. }
    unfold MIN_TABLE_ROWS in Hl. lia.
  - rewrite Hlen. apply Permutation_length in Hperm.
    rewrite !length_app in Hperm. lia.
  - revert Hcells. apply Forall_impl. intros cell [item [Hi Hcell]].
    exists item.
    assert (Hin : In item (filter has_text items)).
    { apply (Permutation_in _ Hperm). apply in_or_app. right.
      apply in_or_app. left. exact Hi. }
    apply filter_In in Hin. destruct Hin as [H1 H2].
    repeat split; try assumption; apply Hcell.
Qed.

(** **** The bounds of a table *)










(** **** convertTableToArray on the table of a candidate *)

(** The text found at an address of a list of cells. *)
Definition text_at (l : list TableCell) (row col : nat) : str :=
  match find (fun c => (cell_row c =? row) && (cell_col c =? col)) l with
  | Some cell => cell_text cell
  | None => []
  end.

Lemma text_at_app (l1 l2 : list TableCell) (row col : nat) :
  text_at (l1 ++ l2) row col =
  match find (fun c => (cell_row c =? row) && (cell_col c =? col)) l1 with
  | Some cell => cell_text cell
  | None => text_at l2 row col
  end.
Proof.
  unfold text_at. induction l1 as [|c t IH]; cbn [app find]; [reflexivity|].
  destruct ((cell_row c =? row) && (cell_col c =? col)); [reflexivity | exact IH].
Qed.

Lemma find_none (A : Type) (f : A -> bool) (l : list A) :
  (forall x, In x l -> f x = false) -> find f l = None.
Proof.
  induction l as [|x t IH]; intro H; cbn [find]; [reflexivity|].
  rewrite (H x (or_introl eq_refl)). apply IH. intros y Hy. apply H.
  right. exact Hy.
Qed.

(** Padding a row of texts with empty texts up to [n] columns. *)
Definition padded (n : nat) (texts : list str) : list str :=
  texts ++ repeat [] (n - length texts).

Lemma row_texts (r : nat) (row : Row) :
  forall c0 n,
    map (text_at (row_cells r c0 row) r) (seq c0 n)
    = firstn n (map item_str row) ++ repeat [] (n - length row).
Proof.
  induction row as [|item t IH]; intros c0 n.
  - cbn [row_cells map firstn length app]. rewrite firstn_nil, Nat.sub_0_r.
    cbn [app]. generalize c0. induction n as [|n IHn]; intro c; cbn [seq map repeat];
      [reflexivity|]. rewrite IHn. reflexivity.
  - destruct n as [|n]; [reflexivity|].
    cbn [seq map row_cells firstn length app Nat.sub].
    f_equal.
    + unfold text_at. cbn [find cell_row cell_col cell_text].
      rewrite !Nat.eqb_refl. reflexivity.
    + rewrite <- (IH (S c0) n). apply map_ext_in. intros col Hcol.
      apply in_seq in Hcol. unfold text_at. cbn [find cell_row cell_col].
      replace (c0 =? col) with false by (symmetry; apply Nat.eqb_neq; lia).
      rewrite andb_false_r. reflexivity.
Qed.

Lemma row_cells_miss (r r' : nat) (row : Row) (c0 col : nat) :
  r <> r' -> 
  find (fun c => (cell_row c =? r') && (cell_col c =? col)) (row_cells r c0 row)
  = None.
Proof.
  intro H. apply find_none. intros cell Hc.
  apply row_cells_address in Hc. destruct Hc as [-> _].
  replace (r =? r') with false by (symmetry; apply Nat.eqb_neq; exact H).
  reflexivity.
Qed.

Lemma all_cells_miss (rows : list Row) (r0 r col : nat) :
  r < r0 -> text_at (all_cells r0 rows) r col = [].
Proof.
  intro H. unfold text_at. rewrite find_none; [reflexivity|].
  intros cell Hc. apply all_cells_address in Hc. destruct Hc as [Hr _].
  replace (cell_row cell =? r) with false by (symmetry; apply Nat.eqb_neq; lia).
  reflexivity.
Qed.

Lemma all_cells_texts (n : nat) (rows : list Row) :
  Forall (fun row => length row <= n) rows ->
  forall r0,
    map (fun r => map (text_at (all_cells r0 rows) r) (seq 0 n))
        (seq r0 (length rows))
    = map (fun row => padded n (map item_str row)) rows.
Proof.
  induction 1 as [|row t Hrow Ht IH]; intro r0; [reflexivity|].
  cbn [length seq map all_cells]. f_equal.
  - unfold padded. rewrite length_map.
    rewrite <- (firstn_all2 (n := n) (map item_str row))
      by (rewrite length_map; exact Hrow).
    rewrite <- (row_texts r0 row 0 n). apply map_ext_in. intros col Hcol.
    rewrite text_at_app.
    fold (text_at (row_cells r0 0 row) r0 col). unfold text_at at 2.
    destruct (find _ (row_cells r0 0 row)) eqn:E; [reflexivity|].
    apply all_cells_miss. lia.
  - rewrite <- (IH (S r0)). apply map_ext_in. intros r Hr.
    apply in_seq in Hr. apply map_ext. intro col.
    rewrite text_at_app. rewrite row_cells_miss by lia. reflexivity.
Qed.

(** The array of the table of a candidate has one row for each row of
    the candidate: the texts of its items in their order, then empty
    texts up to the number of columns of the table. *)
Theorem convertTableToArray_rows
    (candidate : Candidate) (pageNum index : nat) (table : Table) :
  createTableFromCandidate candidate pageNum index = Some table ->
  convertTableToArray table
  = map (fun row => padded (table_columns table) (map item_str row))
        (cand_rows candidate).
Proof.
  unfold createTableFromCandidate.
  destruct (length (cand_rows candidate) =? 0); [discriminate|].
  intro H. injection H as <-.
  unfold convertTableToArray, find_cell.
  cbn [cells table_rows table_columns].
  apply (@all_cells_texts (maxCols (cand_rows candidate)) (cand_rows candidate)).
  apply Forall_forall. intros row Hr. apply maxCols_upper. exact Hr.
Qed.

(** **** The length of the raw text, and the tables kept for the prompt *)

Lemma join_length (sep : str) (l : list str) :
  l <> [] ->
  length (join sep l) + length sep
  = length (concat l) + length l * length sep.
Proof.
  induction l as [|x t IH]; intro H; [contradiction|].
  destruct t as [|y t']; [cbn [join concat length]; rewrite app_nil_r; lia|].
  change (join sep (x :: y :: t')) with (x ++ sep ++ join sep (y :: t')).
  cbn [concat]. rewrite !length_app.
  assert (Hne : y :: t' <> []) by discriminate.
  specialize (IH Hne). cbn [concat] in IH. rewrite length_app in IH.
  cbn [length] in *. lia.
Qed.

Lemma all_cells_text_length (rows : list Row) :
  forall r0,
    length (concat (map cell_text (all_cells r0 rows)))
    = length (concat (map (fun row => concat (map item_str row)) rows)).
Proof.
  assert (Hrow : forall r row c0,
    concat (map cell_text (row_cells r c0 row)) = concat (map item_str row)).
  { intros r row. induction row as [|item t IH]; intro c0; cbn; [reflexivity|].
    rewrite IH. reflexivity. }
  induction rows as [|row t IH]; intro r0; cbn [all_cells map concat];
    [reflexivity|].
  rewrite map_app, concat_app, !length_app, Hrow, IH. reflexivity.
Qed.

Lemma rawText_length (rows : list Row) :
  rows <> [] -> Forall (fun row => row <> []) rows ->
  length (join newline (map (fun row => join tab (map item_str row)) rows)) + 1
  = length (concat (map (fun row => concat (map item_str row)) rows))
    + length (concat rows).
Proof.
  intros Hne Hrows.
  pose proof (@join_length newline
                (map (fun row => join tab (map item_str row)) rows)) as H.
  rewrite length_map in H. change (length newline) with 1 in H.
  rewrite H by (destruct rows; [contradiction | discriminate]).
  clear H Hne. induction Hrows as [|row t Hr Ht IH]; [reflexivity|].
  cbn [map concat length]. rewrite !length_app.
  pose proof (@join_length tab (map item_str row)) as H.
  rewrite length_map in H. change (length tab) with 1 in H.
  assert (Hm : map item_str row <> [])
    by (destruct row; [contradiction | discriminate]).
  specialize (H Hm). lia.
Qed.

(** The characters of the cells of a table. *)
Definition text_size (table : Table) : nat :=
  length (concat (map cell_text (cells table))).

(** A table of a page is given to the model exactly when its texts and
    its cells, one character for each, count more than 51. *)
Lemma extracted_relevant
    (items : list TextItem) (pageNum : nat) (table : Table) :
  In table (extractTablesFromPage items pageNum) ->
  relevant table = (51 <? text_size table + length (cells table)).
Proof.
  unfold extractTablesFromPage.
  destruct (length (filter has_text items) =? 0); [intros []|]. cbv zeta.
  intro H. apply (tables_of_spec pageNum _ 0) in H.
  destruct H as [k [c [Hk [Hc [Hrows Hcols]]]]].
  apply nth_error_In in Hk. apply detected_run in Hk.
  destruct Hk as [pre [post [E [Hq Hl]]]].
  unfold relevant, text_size.
  unfold MIN_TABLE_ROWS, MIN_TABLE_COLS in *.
  replace (2 <=? table_rows table) with true
    by (symmetry; apply Nat.leb_le; lia).
  replace (2 <=? table_columns table) with true
    by (symmetry; apply Nat.leb_le; lia).
  cbn [andb].
  unfold createTableFromCandidate in Hc.
  destruct (length (cand_rows c) =? 0) eqn:E0; [discriminate|].
  injection Hc as <-. cbn [rawText cells].
  destruct (all_cells_items (cand_rows c) 0) as [Hlen _].
  pose proof (@rawText_length (cand_rows c)) as Hraw.
  rewrite all_cells_text_length, Hlen.
  assert (Hne : cand_rows c <> [])
    by (intro H0; rewrite H0 in E0; discriminate).
  assert (Hrs : Forall (fun row : Row => row <> []) (cand_rows c)).
  { revert Hq. apply Forall_impl. intros row Hr Hnil.
    apply qualifying_length in Hr. rewrite Hnil in Hr.
    unfold MIN_TABLE_COLS in Hr. simpl in Hr. lia. }
  specialize (Hraw Hne Hrs).
  destruct (50 <? _) eqn:E1; symmetry.
  - apply Nat.ltb_lt in E1. apply Nat.ltb_lt. lia.
  - apply Nat.ltb_ge in E1. apply Nat.ltb_ge. lia.
Qed.

Lemma getTablesAsStructuredData_empty (tables : list Table) :
  getTablesAsStructuredData tables = [] <->
  Forall (fun table => relevant table = false) tables.
Proof.
  unfold getTablesAsStructuredData.
  destruct (length tables =? 0) eqn:E.
  - apply Nat.eqb_eq in E. destruct tables; [|discriminate].
    split; [constructor | reflexivity].
  - destruct (length (filter relevant tables) =? 0) eqn:E1.
    + apply Nat.eqb_eq in E1. split; [|reflexivity]. intros _.
      apply Forall_forall. intros t Ht.
      destruct (relevant t) eqn:Er; [|reflexivity].
      assert (Hin : In t (filter relevant tables))
        by (apply filter_In; split; assumption).
      destruct (filter relevant tables); [destruct Hin | discriminate].
    + apply Nat.eqb_neq in E1. split; [discriminate|]. intro H.
      exfalso. apply E1. clear E E1.
      induction H as [|t l Ht Hl IH]; [reflexivity|].
      cbn [filter]. rewrite Ht. exact IH.
Qed.

(** **** The identifiers of the tables *)

Definition id_of (pageNum index : nat) : str :=
  lit "table_" ++ nat_to_str pageNum ++ lit "_" ++ nat_to_str index.

Lemma id_of_inj (p i p' i' : nat) :
  id_of p i = id_of p' i' -> p = p' /\ i = i'.
Proof.
  unfold id_of. intro H. apply app_inv_head in H.
  change (lit "_") with ["_"%char] in H. cbn [app] in H.
  apply numeral_prefix in H;
    [| apply nat_to_str_digits | apply nat_to_str_digits | reflexivity].
  destruct H as [H1 H2]. split; apply nat_to_str_inj; assumption.
Qed.

(** The identifiers of the tables of a page are those of the page, at
    candidate indices that increase. *)
Definition page_ids (pageNum from : nat) (ids : list str) : Prop :=
  exists indices,
    ids = map (id_of pageNum) indices /\
    StronglySorted lt indices /\ Forall (le from) indices.

Lemma tables_of_ids (pageNum : nat) (cands : list Candidate) :
  forall index,
    page_ids pageNum index (map table_id (tables_of pageNum index cands)).
Proof.
  induction cands as [|c t IH]; intro index; cbn [tables_of].
  - exists []. repeat split; constructor.
  - destruct (IH (S index)) as [ks [E [Hs Hf]]].
    assert (Hskip : page_ids pageNum index
                      (map table_id (tables_of pageNum (S index) t))).
    { exists ks. repeat split; try assumption.
      revert Hf. apply Forall_impl. intros; lia. }
    destruct (createTableFromCandidate c pageNum index) as [table|] eqn:Ec;
      [|exact Hskip].
    destruct ((MIN_TABLE_ROWS <=? table_rows table)
              && (MIN_TABLE_COLS <=? table_columns table)); [|exact Hskip].
    exists (index :: ks). cbn [map]. split; [|split].
    + rewrite E. f_equal. unfold createTableFromCandidate in Ec.
      destruct (length (cand_rows c) =? 0); [discriminate|].
      injection Ec as <-. reflexivity.
    + constructor; [exact Hs|]. revert Hf. apply Forall_impl. intros; lia.
    + constructor; [lia|]. revert Hf. apply Forall_impl. intros; lia.
Qed.

Lemma page_ids_NoDup (pageNum from : nat) (ids : list str) :
  page_ids pageNum from ids -> NoDup ids.
Proof.
  intros [ks [-> [Hs _]]]. induction Hs as [|k ks Hs IH Hk]; cbn [map];
    constructor; [|exact IH].
  intro H. apply in_map_iff in H. destruct H as [k' [E Hin]].
  apply id_of_inj in E. destruct E as [_ ->].
  rewrite Forall_forall in Hk. specialize (Hk k Hin). lia.
Qed.

(** **** The pages of a document *)

Definition page_tables (pageNum : nat) (page : result (list TextItem))
  : list Table :=
  match page with
  | Ok items => extractTablesFromPage items pageNum
  | Throw _ => []
  end.

(** The tables of the pages numbered from [pageNum]. *)
Fixpoint tables_from (pageNum : nat) (pages : list (result (list TextItem)))
  : list Table :=
  match pages with
  | [] => []
  | page :: rest => page_tables pageNum page ++ tables_from (S pageNum) rest
  end.

Lemma read_pages_tables (pages : list (result (list TextItem))) :
  forall pageNum fullText allTables,
    snd (read_pages pages pageNum fullText allTables)
    = allTables ++ tables_from pageNum pages.
Proof.
  induction pages as [|page rest IH]; intros pageNum fullText allTables;
    cbn [read_pages tables_from].
  - rewrite app_nil_r. reflexivity.
  - destruct page as [items|e]; rewrite IH; cbn [page_tables];
      [rewrite app_assoc|]; reflexivity.
Qed.

Lemma tables_from_In (pages : list (result (list TextItem))) :
  forall pageNum table,
    In table (tables_from pageNum pages) <->
    exists k items,
      nth_error pages k = Some (Ok items) /\
      In table (extractTablesFromPage items (pageNum + k)).
Proof.
  induction pages as [|page rest IH]; intros pageNum table;
    cbn [tables_from].
  - split; [intros [] | intros [[|k] [items [H _]]]; discriminate].
  - rewrite in_app_iff, IH. split.
    + intros [H|[k [items [Hk H]]]].
      * destruct page as [items|e]; [|destruct H].
        exists 0, items. rewrite Nat.add_0_r. split; [reflexivity | exact H].
      * exists (S k), items. split; [exact Hk|].
        rewrite Nat.add_succ_r. exact H.
    + intros [[|k] [items [Hk H]]].
      * left. cbn [nth_error] in Hk. injection Hk as ->.
        rewrite Nat.add_0_r in H. exact H.
      * right. exists k, items. split; [exact Hk|].
        rewrite Nat.add_succ_r in H. exact H.
Qed.

Lemma extracted_ids (items : list TextItem) (pageNum : nat) :
  page_ids pageNum 0 (map table_id (extractTablesFromPage items pageNum)).
Proof.
  unfold extractTablesFromPage.
  destruct (length (filter has_text items) =? 0); [|apply tables_of_ids].
  exists []. repeat split; constructor.
Qed.

Lemma tables_from_ids (pages : list (result (list TextItem))) :
  forall pageNum,
    NoDup (map table_id (tables_from pageNum pages)) /\
    forall id, In id (map table_id (tables_from pageNum pages)) ->
               exists p i, pageNum <= p /\ id = id_of p i.
Proof.
  induction pages as [|page rest IH]; intro pageNum; cbn [tables_from].
  - split; [constructor | intros id []].
  - destruct (IH (S pageNum)) as [Hn Hids]. rewrite map_app.
    assert (Hpage : page_ids pageNum 0 (map table_id (page_tables pageNum page))).
    { destruct page as [items|e]; [apply extracted_ids|].
      exists []. repeat split; constructor. }
    split.
    + apply NoDup_app; [exact (page_ids_NoDup Hpage) | exact Hn |].
      intros id H1 H2. destruct Hpage as [ks [E _]]. rewrite E in H1.
      apply in_map_iff in H1. destruct H1 as [k [<- _]].
      destruct (Hids _ H2) as [p [i [Hp E2]]].
      apply id_of_inj in E2. lia.
    + intros id H. apply in_app_iff in H. destruct H as [H|H].
      * destruct Hpage as [ks [E _]]. rewrite E in H.
        apply in_map_iff in H. destruct H as [k [<- _]].
        exists pageNum, k. split; [lia | reflexivity].
      * destruct (Hids _ H) as [p [i [Hp E2]]]. exists p, i.
        split; [lia | exact E2].
Qed.

(** [processPDF] fails exactly when the document cannot be loaded, a
    page that cannot be read being reported in the text only.  Of a
    loaded document it counts every page, and gives the tables of the
    pages that can be read, each with the number (from 1) of its page,
    the pages in their order. *)
Theorem processPDF_pages (loaded : result Document) :
  (forall error,
     processPDF loaded = Throw error <->
     exists cause, loaded = Throw cause /\ error = processing_error cause) /\
  (forall pdf, loaded = Ok pdf ->
     exists info,
       processPDF loaded = Ok info /\
       totalPages info = length (doc_pages pdf) /\
       tables info = tables_from 1 (doc_pages pdf) /\
       forall table,
         In table (tables info) <->
         exists k items,
           nth_error (doc_pages pdf) k = Some (Ok items) /\
           In table (extractTablesFromPage items (S k))).
Proof.
  split.
  - intro error. destruct loaded as [pdf|cause]; cbn [processPDF].
    + destruct (read_pages _ _ _ _). split; [discriminate|].
      intros [c [H _]]. discriminate.
    + split.
      * intro H. injection H as <-. exists cause. split; reflexivity.
      * intros [c [H ->]]. injection H as ->. reflexivity.
  - intros pdf ->. cbn [processPDF].
    pose proof (read_pages_tables (doc_pages pdf) 1 [] []) as H.
    destruct (read_pages (doc_pages pdf) 1 [] []) as [fullText allTables].
    cbn [snd app] in H. subst allTables.
    eexists. split; [reflexivity|]. cbn [totalPages tables].
    split; [reflexivity|]. split; [reflexivity|].
    intro table. apply (tables_from_In (doc_pages pdf) 1 table).
Qed.

(** The tables of a document have pairwise distinct identifiers. *)
Theorem processPDF_table_ids (loaded : result Document) (info : PDFInfo) :
  processPDF loaded = Ok info -> NoDup (map table_id (tables info)).
Proof.
  destruct loaded as [pdf|cause]; [|discriminate]. cbn [processPDF].
  pose proof (read_pages_tables (doc_pages pdf) 1 [] []) as H.
  destruct (read_pages (doc_pages pdf) 1 [] []) as [fullText allTables].
  cbn [snd app] in H. subst allTables.
  intro E. injection E as <-. cbn [tables].
  apply tables_from_ids.
Qed.

(** The tables of a document are left out of the text for the model
    exactly when none of them has more than 51 characters, one being
    counted for each cell besides those of the texts. *)
Theorem getTablesAsStructuredData_document
    (loaded : result Document) (info : PDFInfo) :
  processPDF loaded = Ok info ->
  (getTablesAsStructuredData (tables info) = [] <->
   Forall (fun table => text_size table + length (cells table) <= 51)
          (tables info)).
Proof.
  destruct loaded as [pdf|cause]; [|discriminate]. cbn [processPDF].
  pose proof (read_pages_tables (doc_pages pdf) 1 [] []) as H.
  destruct (read_pages (doc_pages pdf) 1 [] []) as [fullText allTables].
  cbn [snd app] in H. subst allTables.
  intro E. injection E as <-. cbn [tables].
  rewrite getTablesAsStructuredData_empty.
  rewrite !Forall_forall. split; intros H table Ht.
  - specialize (H table Ht).
    apply (tables_from_In (doc_pages pdf) 1 table) in Ht.
    destruct Ht as [k [items [_ Ht]]].
    rewrite (extracted_relevant Ht) in H. apply Nat.ltb_ge in H. exact H.
  - specialize (H table Ht).
    apply (tables_from_In (doc_pages pdf) 1 table) in Ht.
    destruct Ht as [k [items [_ Ht]]].
    rewrite (extracted_relevant Ht). apply Nat.ltb_ge. exact H.
Qed.

End PageProofs.

(** * Laws of the merge and of the findings *)

Module MergeLaws.
Import OpenRouterAPI MergeProofs NumeralProofs.

(** **** The identifiers seen *)

(** [v] is the identifier of one of [earlier]. *)
Definition seen_in (earlier : list value) (v : value) : bool :=
  existsb (fun e => same_value_zero v (declared_id e)) earlier.

Lemma seen_in_app (a b : list value) (v : value) :
  seen_in (a ++ b) v = seen_in a v || seen_in b v.
Proof. apply existsb_app. Qed.

Lemma seen_in_same (earlier : list value) (v w : value) :
  same_value_zero v w = true -> seen_in earlier w = true ->
  seen_in earlier v = true.
Proof.
  intros Hvw H. apply existsb_exists in H. destruct H as [e [He Hw]].
  apply existsb_exists. exists e. split; [exact He|].
  exact (same_value_zero_trans Hvw Hw).
Qed.

(** Adding a finding whose identifier is seen changes nothing. *)
Lemma seen_in_absorb (earlier : list value) (item : value) (v : value) :
  seen_in earlier (declared_id item) = true ->
  seen_in (earlier ++ [item]) v = seen_in earlier v.
Proof.
  intro H. rewrite seen_in_app. cbn [seen_in existsb]. rewrite orb_false_r.
  destruct (same_value_zero v (declared_id item)) eqn:E;
    [|apply orb_false_r].
  rewrite (seen_in_same E H). reflexivity.
Qed.

Lemma keep_first_from_ext (items : list value) :
  forall e1 e2,
    (forall v, seen_in e1 v = seen_in e2 v) ->
    keep_first_from e1 items = keep_first_from e2 items.
Proof.
  induction items as [|item t IH]; intros e1 e2 H; cbn [keep_first_from];
    [reflexivity|].
  fold (seen_in e1 (declared_id item)). fold (seen_in e2 (declared_id item)).
  rewrite (H (declared_id item)).
  rewrite (IH (e1 ++ [item]) (e2 ++ [item])); [reflexivity|].
  intro v. rewrite !seen_in_app, H. reflexivity.
Qed.

Lemma keep_first_from_app (a b : list value) :
  forall earlier,
    keep_first_from earlier (a ++ b)
    = keep_first_from earlier a ++ keep_first_from (earlier ++ a) b.
Proof.
  induction a as [|item t IH]; intro earlier; cbn [app keep_first_from].
  - rewrite app_nil_r. reflexivity.
  - rewrite IH, <- app_assoc. cbn [app].
    destruct (existsb _ earlier); reflexivity.
Qed.

(** What is kept carries the identifiers of the whole. *)
Lemma keep_first_from_seen (items : list value) :
  forall earlier v,
    seen_in (earlier ++ keep_first_from earlier items) v
    = seen_in (earlier ++ items) v.
Proof.
  induction items as [|item t IH]; intros earlier v; cbn [keep_first_from];
    [reflexivity|].
  fold (seen_in earlier (declared_id item)).
  replace (earlier ++ item :: t) with ((earlier ++ [item]) ++ t)
    by (rewrite <- app_assoc; reflexivity).
  rewrite <- IH.
  destruct (seen_in earlier (declared_id item)) eqn:E.
  - rewrite !seen_in_app. rewrite <- (seen_in_app earlier [item]).
    rewrite (seen_in_absorb v E). reflexivity.
  - replace (earlier ++ item :: keep_first_from (earlier ++ [item]) t)
      with ((earlier ++ [item]) ++ keep_first_from (earlier ++ [item]) t)
      by (rewrite <- app_assoc; reflexivity).
    reflexivity.
Qed.

(** Filtering what was filtered against fewer identifiers. *)
Lemma keep_first_from_twice (items : list value) :
  forall e f,
    (forall v, seen_in f v = true -> seen_in e v = true) ->
    keep_first_from e (keep_first_from f items) = keep_first_from e items.
Proof.
  induction items as [|item t IH]; intros e f H; cbn [keep_first_from];
    [reflexivity|].
  fold (seen_in f (declared_id item)). fold (seen_in e (declared_id item)).
  assert (Hnext : forall v, seen_in (f ++ [item]) v = true ->
                            seen_in (e ++ [item]) v = true).
  { intro v. rewrite !seen_in_app. intro Hv. apply orb_true_iff in Hv.
    apply orb_true_iff. destruct Hv as [Hv|Hv]; [left; apply H | right];
      exact Hv. }
  destruct (seen_in f (declared_id item)) eqn:Ef.
  - rewrite (H _ Ef).
    rewrite (@keep_first_from_ext t (f ++ [item]) f)
      by (intro v; apply seen_in_absorb; exact Ef).
    rewrite (@keep_first_from_ext t (e ++ [item]) e)
      by (intro v; apply seen_in_absorb; apply H; exact Ef).
    apply IH. exact H.
  - cbn [keep_first_from]. fold (seen_in e (declared_id item)).
    destruct (seen_in e (declared_id item)); rewrite (IH _ _ Hnext);
      reflexivity.
Qed.

Lemma keep_first_concat (lists : list (list value)) :
  forall earlier,
    keep_first_from earlier (concat (map keep_first lists))
    = keep_first_from earlier (concat lists).
Proof.
  induction lists as [|l t IH]; intro earlier; cbn [map concat];
    [reflexivity|].
  rewrite !keep_first_from_app. f_equal.
  - apply keep_first_from_twice. intros v H. discriminate.
  - rewrite <- IH. apply keep_first_from_ext. intro v.
    rewrite seen_in_app, (seen_in_app earlier l).
    pose proof (keep_first_from_seen l [] v) as H. cbn [app] in H.
    unfold keep_first. rewrite H. reflexivity.
Qed.

(** **** The summaries *)

Lemma first_truthy_kept (start : value) (summaries : list value) :
  truthy start = true -> first_truthy start summaries = start.
Proof.
  intro H. induction summaries as [|s t IH]; cbn [first_truthy];
    [reflexivity|].
  rewrite H. cbn [negb]. rewrite andb_false_r. exact IH.
Qed.

Lemma first_truthy_Null (summaries : list value) :
  first_truthy Null summaries = Null \/
  truthy (first_truthy Null summaries) = true.
Proof.
  induction summaries as [|s t IH]; cbn [first_truthy]; [left; reflexivity|].
  cbn [truthy negb]. rewrite andb_true_r.
  destruct (truthy s) eqn:E; [|exact IH].
  right. rewrite (first_truthy_kept t E). exact E.
Qed.

Lemma first_truthy_app (a b : list value) :
  forall start,
    first_truthy start (a ++ b) = first_truthy (first_truthy start a) b.
Proof.
  induction a as [|s t IH]; intro start; cbn [app first_truthy];
    [reflexivity|].
  destruct (truthy s && negb (truthy start)); apply IH.
Qed.

Lemma first_truthy_groups (groups : list (list value)) :
  first_truthy Null (map (first_truthy Null) groups)
  = first_truthy Null (concat groups).
Proof.
  induction groups as [|g t IH]; cbn [map concat first_truthy];
    [reflexivity|].
  rewrite first_truthy_app. cbn [truthy negb]. rewrite andb_true_r.
  destruct (first_truthy_Null g) as [E|E].
  - rewrite E. cbn [truthy]. exact IH.
  - rewrite E. rewrite !(first_truthy_kept _ E). reflexivity.
Qed.

Lemma concat_groups (A B : Type) (f : A -> list B) (groups : list (list A)) :
  concat (map (fun g => concat (map f g)) groups)
  = concat (map f (concat groups)).
Proof.
  induction groups as [|g t IH]; cbn [map concat]; [reflexivity|].
  rewrite map_app, concat_app, IH. reflexivity.
Qed.

Lemma keep_first_groups (A : Type) (f : A -> list value)
    (groups : list (list A)) :
  keep_first (concat (map (fun g => keep_first (concat (map f g))) groups))
  = keep_first (concat (map f (concat groups))).
Proof.
  rewrite <- concat_groups.
  rewrite <- (map_map (fun g => concat (map f g)) keep_first).
  apply (keep_first_concat _ []).
Qed.

Lemma first_truthy_of_groups (A : Type) (f : A -> value)
    (groups : list (list A)) :
  first_truthy Null (map (fun g => first_truthy Null (map f g)) groups)
  = first_truthy Null (map f (concat groups)).
Proof.
  rewrite <- (map_map (map f) (first_truthy Null)).
  rewrite first_truthy_groups, <- concat_map. reflexivity.
Qed.

Section Groups.
Variable number_toString : Q -> str.


Lemma combine_value (results : list Analysis) :
  results <> [] ->
  Forall (successful number_toString) results ->
  combineChunkResults number_toString results
  = transformSOC1Result number_toString (merged_record (first_truthy Null (map summary_of results))
                             results).
Proof.
  intros Hne Hs. unfold combineChunkResults.
  destruct results as [|r0 t]; [contradiction|].
  change (length (r0 :: t) =? 0) with false. cbv iota.
  rewrite fold_combine
    by (eapply Forall_impl; [|exact Hs]; intros r; apply successful_truthy).
  cbn [c_executiveSummary c_controlFailures c_exclusions c_carveOuts app].
  fold key_id.
  rewrite !removeDuplicates_keep
    by (apply (concat_present (number_toString := number_toString)); auto).
  cbn [bind]. reflexivity.
Qed.

Lemma combine_nonempty (results : list Analysis) (merged : Analysis) :
  combineChunkResults number_toString results = Ok merged -> results <> [].
Proof. intros H ->. discriminate. Qed.

(** What a merge returns is a successful result, with the lists and the
    summary of the merge. *)
Lemma combine_merged (results : list Analysis) (merged : Analysis) :
  Forall (successful number_toString) results ->
  combineChunkResults number_toString results = Ok merged ->
  successful number_toString merged /\
  summary_of merged = first_truthy Null (map summary_of results) /\
  (forall key,
     key = key_controlFailures \/ key = key_exclusions \/
     key = key_carveOuts ->
     category_of key merged
     = keep_first (concat (map (category_of key) results))).
Proof.
  intros Hs H. pose proof (combine_nonempty H) as Hne.
  rewrite (combine_value Hne Hs) in H.
  pose proof (transform_rawResult H) as Hraw. split; [|split].
  - eexists. split; [|exact H]. reflexivity.
  - unfold summary_of. rewrite Hraw. reflexivity.
  - intros key Hk. unfold category_of. rewrite Hraw.
    destruct Hk as [ -> | [ -> | -> ] ]; reflexivity.
Qed.

Lemma Forall2_merged (groups : list (list Analysis)) (merged : list Analysis) :
  Forall (Forall (successful number_toString)) groups ->
  Forall2 (fun group m => combineChunkResults number_toString group = Ok m) groups merged ->
  Forall (successful number_toString) merged /\
  map summary_of merged
  = map (fun g => first_truthy Null (map summary_of g)) groups /\
  (forall key,
     key = key_controlFailures \/ key = key_exclusions \/
     key = key_carveOuts ->
     map (category_of key) merged
     = map (fun g => keep_first (concat (map (category_of key) g))) groups) /\
  (groups = [] <-> merged = []) /\
  (groups <> [] -> concat groups <> []).
Proof.
  intros Hs H. induction H as [|g m gs ms Hg Hrest IH].
  - repeat split; try constructor; try reflexivity. intro H; contradiction.
  - inversion Hs as [|? ? Hsg Hsgs]; subst.
    destruct (IH Hsgs) as [H1 [H2 [H3 _]]].
    destruct (combine_merged Hsg Hg) as [G1 [G2 G3]].
    split; [constructor; assumption|].
    split; [cbn [map]; rewrite G2, H2; reflexivity|].
    split; [intros key Hk; cbn [map]; rewrite (G3 key Hk), (H3 key Hk);
            reflexivity|].
    split; [split; discriminate|].
    intros _. pose proof (combine_nonempty Hg) as Hne.
    destruct g; [contradiction | discriminate].
Qed.

(** Merging in two stages is merging at once: the merge of the merges
    of groups of successful chunk results is the merge of all the
    results; in particular the merge of one merged result is that
    result. *)
Theorem combineChunkResults_groups
    (groups : list (list Analysis)) (merged : list Analysis) :
  Forall (Forall (successful number_toString)) groups ->
  Forall2 (fun group m => combineChunkResults number_toString group = Ok m) groups merged ->
  combineChunkResults number_toString merged = combineChunkResults number_toString (concat groups).
Proof.
  intros Hs H.
  destruct (Forall2_merged Hs H) as [Hm [Hsum [Hcat [Hnil Hne]]]].
  destruct groups as [|g gs].
  - rewrite (proj1 Hnil eq_refl). reflexivity.
  - assert (Hmne : merged <> []) by (intro E; apply Hnil in E; discriminate).
    assert (Hall : Forall (successful number_toString) (concat (g :: gs))).
    { clear - Hs. induction Hs as [|x l Hx Hl IH]; cbn [concat];
        [constructor | apply Forall_app; split; assumption]. }
    rewrite (combine_value Hmne Hm).
    rewrite (combine_value (Hne ltac:(discriminate)) Hall).
    f_equal. unfold merged_record.
    rewrite Hsum, first_truthy_of_groups.
    rewrite (Hcat key_controlFailures), (Hcat key_exclusions),
      (Hcat key_carveOuts) by auto.
    rewrite !keep_first_groups. reflexivity.
Qed.

End Groups.

(** **** removeDuplicates *)

Lemma removeDuplicates_from_throws (items : list value) :
  forall seen,
    (exists error, removeDuplicates_from seen items key_id = Throw error) <->
    Exists (fun item => nullish item = true) items.
Proof.
  induction items as [|item t IH]; intro seen; cbn [removeDuplicates_from].
  - split; [intros [e H]; discriminate | intro H; inversion H].
  - destruct (nullish item) eqn:En.
    + split; [intros _; left; exact En|]. intros _.
      destruct item; try discriminate; cbn [get bind]; eauto.
    + rewrite (@get_present item key_id En). cbn [bind].
      assert (Hex : Exists (fun i => nullish i = true) (item :: t) <->
                    Exists (fun i => nullish i = true) t).
      { split; [|intro H; right; exact H]. intro H.
        inversion H; subst; [congruence | assumption]. }
      rewrite Hex.
      destruct (existsb _ seen); [apply IH|].
      rewrite <- (IH (get_own item key_id :: seen)).
      destruct (removeDuplicates_from (get_own item key_id :: seen) t key_id)
        as [rest|err];
        cbn [bind]; split; intros [e' H]; try discriminate; eauto.
Qed.

Definition distinct_ids (a b : value) : Prop :=
  same_value_zero (declared_id a) (declared_id b) = false.

Lemma keep_first_from_distinct (items : list value) :
  forall earlier,
    Forall (fun x => seen_in earlier (declared_id x) = false)
           (keep_first_from earlier items) /\
    ForallOrdPairs distinct_ids (keep_first_from earlier items).
Proof.
  induction items as [|item t IH]; intro earlier; cbn [keep_first_from].
  - split; constructor.
  - destruct (IH (earlier ++ [item])) as [Hf Hp].
    assert (Hf' : Forall (fun x => seen_in earlier (declared_id x) = false)
                         (keep_first_from (earlier ++ [item]) t)).
    { revert Hf. apply Forall_impl. intros x Hx.
      rewrite seen_in_app in Hx. apply orb_false_iff in Hx. apply Hx. }
    fold (seen_in earlier (declared_id item)).
    destruct (seen_in earlier (declared_id item)) eqn:E;
      [split; assumption|].
    split; [constructor; assumption|].
    constructor; [|exact Hp].
    revert Hf. apply Forall_impl. intros x Hx.
    rewrite seen_in_app in Hx. apply orb_false_iff in Hx.
    destruct Hx as [_ Hx]. cbn [seen_in existsb] in Hx.
    rewrite orb_false_r in Hx. unfold distinct_ids.
    rewrite same_value_zero_sym. exact Hx.
Qed.

(** [removeDuplicates] (on the field [id]) throws exactly when an entry
    is [null] or [undefined].  Otherwise it returns entries of the
    list, no two of them with the same identifier, that carry every
    identifier of the list; and it returns them unchanged when it is
    given them again. *)
Theorem removeDuplicates_distinct (items : list value) :
  ((exists error, removeDuplicates items key_id = Throw error) <->
   Exists (fun item => nullish item = true) items) /\
  (Forall present items ->
   exists kept,
     removeDuplicates items key_id = Ok kept /\
     incl kept items /\
     ForallOrdPairs distinct_ids kept /\
     (forall v, seen_in kept v = seen_in items v) /\
     removeDuplicates kept key_id = Ok kept).
Proof.
  split; [apply removeDuplicates_from_throws|].
  intro H. exists (keep_first items).
  split; [apply removeDuplicates_keep; exact H|].
  split; [intros x Hx; exact (keep_first_from_incl Hx)|].
  split; [apply keep_first_from_distinct|].
  split; [intro v; exact (keep_first_from_seen items [] v)|].
  rewrite removeDuplicates_keep by (apply keep_first_present; exact H).
  f_equal. apply keep_first_from_twice. intros v Hv. discriminate.
Qed.

(** **** The findings of transformSOC1Result *)

Definition control_id (index : nat) : str :=
  lit "control-failure-" ++ nat_to_str index.
Definition exclusion_id (index : nat) : str :=
  lit "exclusion-" ++ nat_to_str index.
Definition carveOut_id (index : nat) : str :=
  lit "carveout-" ++ nat_to_str index.
Definition summary_id : str := lit "executive-summary".

Section Findings.
Variable number_toString : Q -> str.

Lemma forEach_push_ids (f : value -> nat -> result Finding)
    (name : nat -> str) (P : Finding -> Prop) :
  (forall item index finding,
     f item index = Ok finding -> finding_id finding = name index /\ P finding) ->
  forall items index fs,
    forEach_push f items index = Ok fs ->
    map finding_id fs = map name (seq index (length items)) /\ Forall P fs.
Proof.
  intros Hf items. induction items as [|item t IH]; intros index fs H;
    cbn [forEach_push] in H.
  - injection H as <-. split; [reflexivity | constructor].
  - apply bind_Ok in H. destruct H as [finding [Hi H]].
    apply bind_Ok in H. destruct H as [rest [Ht H]]. injection H as <-.
    destruct (Hf _ _ _ Hi) as [Hid HP]. destruct (IH _ _ Ht) as [Hids HPs].
    cbn [map length seq]. rewrite Hid, Hids.
    split; [reflexivity | constructor; assumption].
Qed.

Lemma findings_of_ids (f : value -> nat -> result Finding)
    (name : nat -> str) (P : Finding -> Prop) :
  (forall item index finding,
     f item index = Ok finding -> finding_id finding = name index /\ P finding) ->
  forall v fs,
    findings_of f v = Ok fs ->
    map finding_id fs = map name (seq 0 (length (entries_of v))) /\
    Forall P fs.
Proof.
  intros Hf v fs H. destruct v; cbn [findings_of entries_of length seq map] in *;
    try (injection H as <-; split; [reflexivity | constructor]).
  exact (forEach_push_ids Hf H).
Qed.

(** What a finding of each kind looks like. *)
Definition control_shaped (f : Finding) : Prop :=
  category f = lit "Control Failures".
Definition plain_shaped (f : Finding) : Prop := critical f = false.

Lemma controlFailure_shape (item : value) (index : nat) (finding : Finding) :
  controlFailure_finding item index = Ok finding ->
  finding_id finding = control_id index /\ control_shaped finding.
Proof.
  unfold controlFailure_finding. intro H.
  repeat (apply bind_Ok in H; destruct H as [? [_ H]]).
  injection H as <-. split; reflexivity.
Qed.

Lemma exclusion_shape (item : value) (index : nat) (finding : Finding) :
  exclusion_finding item index = Ok finding ->
  finding_id finding = exclusion_id index /\ plain_shaped finding.
Proof.
  unfold exclusion_finding. intro H.
  repeat (apply bind_Ok in H; destruct H as [? [_ H]]).
  injection H as <-. split; reflexivity.
Qed.

Lemma carveOut_shape (item : value) (index : nat) (finding : Finding) :
  carveOut_finding number_toString item index = Ok finding ->
  finding_id finding = carveOut_id index /\ plain_shaped finding.
Proof.
  unfold carveOut_finding. intro H.
  repeat (apply bind_Ok in H; destruct H as [? [_ H]]).
  injection H as <-. split; reflexivity.
Qed.

(** The identifiers of the findings, by the three lists and the
    summary of the record. *)
Definition finding_ids (raw : value) : list str :=
  map control_id
      (seq 0 (length (entries_of (get_own raw key_controlFailures))))
  ++ map exclusion_id
         (seq 0 (length (entries_of (get_own raw key_exclusions))))
  ++ map carveOut_id
         (seq 0 (length (entries_of (get_own raw key_carveOuts))))
  ++ (if truthy (get_own raw key_summary) then [summary_id] else []).

Lemma transform_findings (raw : value) (r : Analysis) :
  transformSOC1Result number_toString raw = Ok r ->
  map finding_id (findings r) = finding_ids raw /\
  Forall (fun f => critical f = true -> category f = lit "Control Failures")
         (findings r) /\
  categories r = all_categories.
Proof.
  intro H.
  assert (Hp : present raw).
  { apply (proj1 (transform_Ok_iff number_toString raw)). eauto. }
  unfold transformSOC1Result in H.
  rewrite !(get_present _ Hp) in H. cbn [bind] in H.
  apply bind_Ok in H. destruct H as [f1 [H1 H]].
  apply bind_Ok in H. destruct H as [f2 [H2 H]].
  apply bind_Ok in H. destruct H as [f3 [H3 H]].
  injection H as <-. cbn [findings categories].
  destruct (findings_of_ids controlFailure_shape H1) as [E1 P1].
  destruct (findings_of_ids exclusion_shape H2) as [E2 P2].
  destruct (findings_of_ids carveOut_shape H3) as [E3 P3].
  split; [|split; [|reflexivity]].
  - rewrite !map_app, E1, E2, E3. unfold finding_ids.
    unfold key_controlFailures, key_exclusions, key_carveOuts, key_summary.
    repeat f_equal.
    destruct (truthy (get_own raw (lit "executiveSummary"))); reflexivity.
  - repeat (apply Forall_app; split).
    + revert P1. apply Forall_impl. intros f Hf _. exact Hf.
    + revert P2. apply Forall_impl. unfold plain_shaped. intros f Hf Hc.
      congruence.
    + revert P3. apply Forall_impl. unfold plain_shaped. intros f Hf Hc.
      congruence.
    + destruct (truthy _); repeat constructor. cbn. discriminate.
Qed.

End Findings.

(** The identifiers are pairwise distinct. *)

Lemma NoDup_map_injective (A B : Type) (f : A -> B) (l : list A) :
  (forall x y, f x = f y -> x = y) -> NoDup l -> NoDup (map f l).
Proof.
  intros Hf H. induction H as [|x l Hx Hl IH]; cbn [map]; constructor;
    [|exact IH].
  intro Hin. apply in_map_iff in Hin. destruct Hin as [y [E Hy]].
  apply Hf in E. subst y. contradiction.
Qed.

Lemma numbered_NoDup (prefix : str) (n : nat) :
  NoDup (map (fun i => prefix ++ nat_to_str i) (seq 0 n)).
Proof.
  apply NoDup_map_injective; [|apply seq_NoDup].
  intros i j H. apply app_inv_head in H. apply nat_to_str_inj. exact H.
Qed.

(** The first three characters tell the kinds apart. *)
Definition kind_of (id : str) : str := firstn 3 id.

Lemma finding_ids_NoDup (raw : value) : NoDup (finding_ids raw).
Proof.
  unfold finding_ids.
  set (n1 := length _). set (n2 := length _). set (n3 := length _).
  assert (K1 : forall id, In id (map control_id (seq 0 n1)) ->
                          kind_of id = lit "con").
  { intros id H. apply in_map_iff in H. destruct H as [i [<- _]]. reflexivity. }
  assert (K2 : forall id, In id (map exclusion_id (seq 0 n2)) ->
                          kind_of id = lit "exc").
  { intros id H. apply in_map_iff in H. destruct H as [i [<- _]]. reflexivity. }
  assert (K3 : forall id, In id (map carveOut_id (seq 0 n3)) ->
                          kind_of id = lit "car").
  { intros id H. apply in_map_iff in H. destruct H as [i [<- _]]. reflexivity. }
  assert (K4 : forall id,
             In id (if truthy (get_own raw key_summary) then [summary_id] else []) ->
             kind_of id = lit "exe").
  { intros id H. destruct (truthy _); [|destruct H].
    destruct H as [<-|[]]. reflexivity. }
  apply NoDup_app; [apply (numbered_NoDup (lit "control-failure-")) | |].
  - apply NoDup_app; [apply (numbered_NoDup (lit "exclusion-")) | |].
    + apply NoDup_app; [apply (numbered_NoDup (lit "carveout-")) | |].
      * destruct (truthy _); repeat constructor. intros [].
      * intros id H3 H4. apply K3 in H3. apply K4 in H4.
        rewrite H3 in H4. discriminate.
    + intros id H2 H. apply K2 in H2. apply in_app_iff in H.
      destruct H as [H|H]; [apply K3 in H | apply K4 in H];
        rewrite H2 in H; discriminate.
  - intros id H1 H. apply K1 in H1. apply in_app_iff in H.
    destruct H as [H|H]; [apply K2 in H; rewrite H1 in H; discriminate|].
    apply in_app_iff in H.
    destruct H as [H|H]; [apply K3 in H | apply K4 in H];
      rewrite H1 in H; discriminate.
Qed.

(** The findings of a structured record are those of its three lists,
    in the order control failures, exclusions, carve-outs, numbered
    from 0 within each list, and then the executive summary when the
    record has one: their identifiers are pairwise distinct, and only a
    control failure can be critical. *)
Theorem transformSOC1Result_findings
    (number_toString : Q -> str) (raw : value) (r : Analysis) :
  transformSOC1Result number_toString raw = Ok r ->
  map finding_id (findings r) = finding_ids raw /\
  NoDup (map finding_id (findings r)) /\
  Forall (fun f => critical f = true -> category f = lit "Control Failures")
         (findings r) /\
  categories r = all_categories.
Proof.
  intro H. destruct (transform_findings H) as [E [Hc Hk]].
  split; [exact E|]. split; [rewrite E; apply finding_ids_NoDup|].
  split; assumption.
Qed.

End MergeLaws.

(** * Properties of an analysis as a whole *)

Module AnalysisProofs.
Import OpenRouterAPI MergeProofs ParseProofs MergeLaws.

(** **** The errors of a single analysis *)




Section Errors.
Variable number_toString : Q -> str.
Variable useLocalModel : bool.
Variable request : str -> str -> result value.












(** **** normalizeContent gives a text *)




(** **** The route of analyzeSOC1Report *)

Lemma estimatedTokens_le (pdfText : str) (n : nat) :
  estimatedTokens pdfText <= n <-> length pdfText <= n * 4.
Proof.
  unfold estimatedTokens.
  pose proof (Nat.div_mod_eq (length pdfText + 3) 4) as E.
  pose proof (Nat.mod_upper_bound (length pdfText + 3) 4) as Hm.
  lia.
Qed.

(** A text of at most [maxTokensPerChunk * 4] = 100000 characters is
    analysed in one request, a longer one chunk by chunk. *)
Theorem analyzeSOC1Report_route (pdfText modelId : str) :
  (length pdfText <= maxTokensPerChunk * 4 ->
   analyzeSOC1Report number_toString useLocalModel request pdfText modelId
   = analyzeSingleChunk number_toString useLocalModel request pdfText modelId)
  /\
  (maxTokensPerChunk * 4 < length pdfText ->
   analyzeSOC1Report number_toString useLocalModel request pdfText modelId
   = fst (analyzeMultipleChunks number_toString useLocalModel request
            pdfText modelId)).
Proof.
  unfold analyzeSOC1Report. split; intro H.
  - replace (estimatedTokens pdfText <=? maxTokensPerChunk) with true;
      [reflexivity|].
    symmetry. apply Nat.leb_le. apply estimatedTokens_le. exact H.
  - replace (estimatedTokens pdfText <=? maxTokensPerChunk) with false;
      [reflexivity|].
    symmetry. apply Nat.leb_gt.
    destruct (le_lt_dec (estimatedTokens pdfText) maxTokensPerChunk) as [L|L];
      [|exact L].
    apply estimatedTokens_le in L. lia.
Qed.

End Errors.

Section Report.
Variable number_toString : Q -> str.
Variable useLocalModel : bool.
Variable request : str -> str -> result value.

Lemma analyzeMultipleChunks_successful (pdfText modelId : str) (r : Analysis) :
  fst (analyzeMultipleChunks number_toString useLocalModel request
         pdfText modelId) = Ok r ->
  successful number_toString r.
Proof.
  unfold analyzeMultipleChunks.
  pose proof (analyze_chunks_spec number_toString useLocalModel request modelId
                (splitTextIntoChunks pdfText maxTokensPerChunk) 0) as H.
  destruct (analyze_chunks number_toString useLocalModel request
              (splitTextIntoChunks pdfText maxTokensPerChunk) modelId 0)
    as [chunkResults warnings].
  destruct H as [Hs _]. cbn [fst]. intro H.
  exact (proj1 (combine_merged Hs H)).
Qed.

(** Whatever the service answers, an analysis that is returned is the
    transform of a record: its findings have pairwise distinct
    identifiers, only a control failure among them can be critical, and
    its categories are the four fixed ones. *)
Theorem analyzeSOC1Report_result (pdfText modelId : str) (r : Analysis) :
  analyzeSOC1Report number_toString useLocalModel request pdfText modelId
  = Ok r ->
  (exists raw,
     truthy raw = true /\ transformSOC1Result number_toString raw = Ok r) /\
  NoDup (map finding_id (findings r)) /\
  Forall (fun f => critical f = true -> category f = lit "Control Failures")
         (findings r) /\
  categories r = all_categories.
Proof.
  unfold analyzeSOC1Report. intro H.
  assert (Hs : successful number_toString r).
  { destruct (estimatedTokens pdfText <=? maxTokensPerChunk).
    - exact (analyzeSingleChunk_successful H).
    - exact (analyzeMultipleChunks_successful H). }
  split; [exact Hs|]. destruct Hs as [raw [_ Hr]].
  destruct (transform_findings Hr) as [E [Hc Hk]].
  split; [rewrite E; apply finding_ids_NoDup|]. split; assumption.
Qed.

End Report.

(** **** Texts that are not blank *)




Section Normalize.
Variable number_toString : Q -> str.






End Normalize.

End AnalysisProofs.

(** * Properties of the configuration and of the rejected responses *)

Module ConfigProofs.
Import Config.

Section Validity.
Variable URL_parses : str -> bool.

(** A configuration is valid exactly when, for a local model, the
    endpoint and the model name are given and the endpoint parses as a
    URL (no API key is asked for), and, for the service, the API key is
    given (the local properties are not looked at). *)
Theorem validateConfig_valid (config : APIConfig) :
  isValid (validateConfig URL_parses config) = true <->
  (if flag (useLocalModel config)
   then given (localEndpointUrl config) = true /\
        given (localModelName config) = true /\
        URL_parses (or_empty (localEndpointUrl config)) = true
   else given (apiKey config) = true).
Proof.
  unfold validateConfig, push_if. cbn [isValid].
  destruct (flag (useLocalModel config)), (given (apiKey config)),
    (given (localEndpointUrl config)), (given (localModelName config)),
    (URL_parses (or_empty (localEndpointUrl config)));
    cbn [negb andb app length Nat.eqb]; intuition discriminate.
Qed.

Lemma push_if_incl (condition : bool) (error : str) (errors all : list str) :
  incl errors all -> (condition = true -> In error all) ->
  incl (push_if condition error errors) all.
Proof.
  intros H1 H2. unfold push_if. destruct condition; [|exact H1].
  apply incl_app; [exact H1|]. intros e [<-|[]]. apply H2. reflexivity.
Qed.

Lemma when_set_given (v : option str) (base : option str) :
  given base = true -> given (spread_field base (when_set v)) = true.
Proof.
  intro H. destruct v as [s|]; cbn [when_set]; [|exact H].
  destruct (length s =? 0) eqn:E; cbn [spread_field given]; [exact H|].
  rewrite E. reflexivity.
Qed.

(** The configuration read from the environment, nothing overridden: a
    variable that is unset or empty leaves the default in place, so the
    endpoint and the model name are always given; the flag is true
    unless the variable is set to something other than "true" or "1";
    and validation can only report a missing API key or an endpoint
    that is no URL. *)
Theorem getAPIConfig_env (env : Env) :
  let config := getAPIConfig env no_overrides in
  useLocalModel config
  = Some (match VITE_USE_LOCAL_MODEL env with
          | Some s => str_eqb s (lit "true") || str_eqb s (lit "1")
          | None => true
          end) /\
  apiKey config = Some (or_empty (VITE_API_KEY env)) /\
  given (localEndpointUrl config) = true /\
  given (localModelName config) = true /\
  incl (errors (validateConfig URL_parses config))
       [lit "API key is required for OpenRouter";
        lit "Invalid local endpoint URL format"].
Proof.
  cbv zeta. unfold getAPIConfig. cbv zeta.
  assert (Hurl : given (localEndpointUrl
                   (spread (spread DEFAULT_CONFIG (getConfigFromEnv env))
                           no_overrides)) = true).
  { cbn [spread no_overrides localEndpointUrl spread_field p_localEndpointUrl
         getConfigFromEnv DEFAULT_CONFIG].
    apply when_set_given. reflexivity. }
  assert (Hname : given (localModelName
                    (spread (spread DEFAULT_CONFIG (getConfigFromEnv env))
                            no_overrides)) = true).
  { cbn [spread no_overrides localModelName spread_field p_localModelName
         getConfigFromEnv DEFAULT_CONFIG].
    apply when_set_given. reflexivity. }
  split; [|split; [|split; [exact Hurl | split; [exact Hname|]]]].
  - cbn [spread no_overrides useLocalModel spread_field p_useLocalModel
         getConfigFromEnv DEFAULT_CONFIG].
    destruct (VITE_USE_LOCAL_MODEL env); reflexivity.
  - cbn [spread no_overrides apiKey spread_field p_apiKey
         getConfigFromEnv DEFAULT_CONFIG].
    destruct (VITE_API_KEY env) as [s|]; cbn [when_set or_empty];
      [|reflexivity].
    destruct (length s =? 0) eqn:E; [|reflexivity].
    apply Nat.eqb_eq in E. destruct s; [reflexivity | discriminate].
  - unfold validateConfig. cbn [errors]. rewrite Hurl, Hname.
    cbn [negb push_if].
    destruct (flag _).
    + apply push_if_incl; [|intros _; right; left; reflexivity].
      apply push_if_incl; [intros e [] | intros _; left; reflexivity].
    + apply push_if_incl; [intros e [] | intros _; left; reflexivity].
Qed.

End Validity.
End ConfigProofs.

Module HttpProofs.
Import OpenRouterAPI Http.

Section Rejected.
Variable number_toString : Q -> str.
Variable useLocalModel : bool.
Variable fetch : str -> str -> result Response.

(** The words of the two tests on the message of a 400 response. *)
Definition long_words : list str :=
  [lit "token"; lit "length"; lit "context"; lit "too long"; lit "exceeded"].
Definition rate_words : list str := [lit "rate"; lit "limit"].

Definition mentions (m : str) (words : list str) : bool :=
  existsb (includes m) words.

Lemma or_includes_Str (m : str) (words : list str) :
  forall found,
    fold_left
      (fun found text =>
         f <- found ;;
         if (f : bool) then Ok true else includes_of (Str m) text)
      words (Ok found)
    = Ok (found || mentions m words).
Proof.
  induction words as [|w t IH]; intro found; cbn [fold_left mentions existsb].
  - rewrite orb_false_r. reflexivity.
  - cbn [bind]. destruct found; cbn [includes_of orb].
    + rewrite IH. reflexivity.
    + rewrite IH. reflexivity.
Qed.

Lemma or_includes_mentions (m : str) (words : list str) :
  or_includes (Str m) words = Ok (mentions m words).
Proof. unfold or_includes. apply or_includes_Str. Qed.

Lemma or_else_Str (m : str) : or_else (Str m) (Str []) = Str m.
Proof.
  unfold or_else. cbn [truthy]. destruct (length m =? 0) eqn:E; [|reflexivity].
  apply Nat.eqb_eq in E. destruct m; [reflexivity | discriminate].
Qed.

Definition analyze :=
  analyzeSingleChunk number_toString useLocalModel
    (request_of number_toString fetch).

(** A response that is not [ok]: with a status of 500 or more the
    analysis fails with the "temporarily unavailable" error, whatever
    the body; with the status 400 and an error message that is a
    string, it fails with the "too large" error when the message
    mentions a token, length or context limit, and with the "rate
    limit" error when it mentions none of those but a rate or a limit. *)
Theorem analyzeSingleChunk_rejected
    (pdfText modelId : str) (response : Response) :
  fetch pdfText modelId = Ok response ->
  ok response = false ->
  (500 <= status response ->
   analyze pdfText modelId = Throw unavailable) /\
  (forall data m,
     status response = 400 ->
     json response = Ok data ->
     error_message data = Ok (Str m) ->
     (mentions m long_words = true ->
      analyze pdfText modelId = Throw too_large) /\
     (mentions m long_words = false -> mentions m rate_words = true ->
      analyze pdfText modelId = Throw rate_limited)).
Proof.
  intros Hf Hok. unfold analyze, analyzeSingleChunk, request_of.
  rewrite Hf. cbn [bind]. unfold respond. rewrite Hok. split.
  - intro Hs. unfold reject.
    replace (status response =? 400) with false
      by (symmetry; apply Nat.eqb_neq; lia).
    cbn [bind].
    replace (500 <=? status response) with true
      by (symmetry; apply Nat.leb_le; exact Hs).
    reflexivity.
  - intros data m Hs Hj Hm. unfold reject. rewrite Hs, Hj.
    change (400 =? 400) with true. cbv iota. rewrite Hm. cbn [bind].
    rewrite or_else_Str, or_includes_mentions. cbn [bind].
    fold long_words. split.
    + intros ->. reflexivity.
    + intros -> Hr. rewrite or_includes_mentions. cbn [bind].
      fold rate_words. rewrite Hr. reflexivity.
Qed.

End Rejected.
End HttpProofs.

(** * Instances *)

Module Instances.
Import PDFProcessor OpenRouterAPI TableProofs MergeProofs RegexProofs.
Import ParseProofs PDFDocument Http HttpProofs PageProofs MergeLaws.
Import AnalysisProofs.

(** *** The grid page, again *)

Lemma extractTablesFromPage_cells_witness :
  pageNumber grid_table = 1 /\
  9 <= length (cells grid_table) <= length (filter has_text grid_items) /\
  Forall (fun cell =>
            exists item,
              In item grid_items /\ has_text item = true /\ cell_of item cell)
         (cells grid_table).
Proof.
  apply (@extractTablesFromPage_cells grid_items 1 grid_table).
  vm_compute. left. reflexivity.
Defined.

Lemma convertTableToArray_rows_witness :
  convertTableToArray even_table
  = map (fun row => padded (table_columns even_table) (map item_str row))
        (cand_rows even_candidate).
Proof.
  apply (@convertTableToArray_rows even_candidate 1 0 even_table).
  reflexivity.
Defined.


(** A document of three pages, the second of which cannot be read. *)
Definition grid_document : Document :=
  mkDocument [Ok grid_items; Throw (Error (lit "unreadable")); Ok grid_items]
             (Ok Null).

Definition grid_info : PDFInfo :=
  match processPDF (Ok grid_document) with
  | Ok info => info
  | Throw _ => mkInfo 0 [] [] Null
  end.

Lemma processPDF_table_ids_witness :
  NoDup (map table_id (tables grid_info)).
Proof.
  apply (@processPDF_table_ids (Ok grid_document) grid_info). reflexivity.
Defined.

Lemma getTablesAsStructuredData_document_witness :
  getTablesAsStructuredData (tables grid_info) = [] <->
  Forall (fun table => text_size table + length (cells table) <= 51)
         (tables grid_info).
Proof.
  apply (@getTablesAsStructuredData_document (Ok grid_document) grid_info).
  reflexivity.
Defined.

(** *** Merging in two stages *)

Definition merged_of (group : list Analysis) : Analysis :=
  match combineChunkResults print_integer group with
  | Ok merged => merged
  | Throw _ => mkAnalysis [] [] Null
  end.

Definition two_groups : list (list Analysis) :=
  [two_chunks; [analysis_of first_chunk_record]].

Lemma combineChunkResults_groups_witness :
  combineChunkResults print_integer (map merged_of two_groups)
  = combineChunkResults print_integer (concat two_groups).
Proof.
  apply (@combineChunkResults_groups print_integer two_groups
           (map merged_of two_groups)).
  - repeat constructor.
    + exists first_chunk_record. split; reflexivity.
    + exists second_chunk_record. split; reflexivity.
    + exists first_chunk_record. split; reflexivity.
  - repeat constructor.
Defined.

Lemma transformSOC1Result_findings_witness :
  map finding_id (findings (analysis_of second_chunk_record))
  = finding_ids second_chunk_record /\
  NoDup (map finding_id (findings (analysis_of second_chunk_record))) /\
  Forall (fun f => critical f = true -> category f = lit "Control Failures")
         (findings (analysis_of second_chunk_record)) /\
  categories (analysis_of second_chunk_record) = all_categories.
Proof.
  apply (@transformSOC1Result_findings print_integer second_chunk_record
           (analysis_of second_chunk_record)).
  reflexivity.
Defined.

(** *** Requests that fail *)




Definition overloaded (pdfText modelId : str) : result Response :=
  Ok (mkResponse false 503 (lit "Service Unavailable")
        (Throw (Error (lit "Unexpected end of JSON input")))).

Definition overloaded_response : Response :=
  mkResponse false 503 (lit "Service Unavailable")
    (Throw (Error (lit "Unexpected end of JSON input"))).

Lemma analyzeSingleChunk_rejected_witness :
  (500 <= status overloaded_response ->
   analyze print_integer false overloaded [] [] = Throw unavailable) /\
  (forall data m,
     status overloaded_response = 400 ->
     json overloaded_response = Ok data ->
     error_message data = Ok (Str m) ->
     (mentions m long_words = true ->
      analyze print_integer false overloaded [] [] = Throw too_large) /\
     (mentions m long_words = false -> mentions m rate_words = true ->
      analyze print_integer false overloaded [] [] = Throw rate_limited)).
Proof.
  apply (@analyzeSingleChunk_rejected print_integer false overloaded [] []
           overloaded_response); reflexivity.
Defined.

(** A service that answers with a record in prose. *)
Definition answering (pdfText modelId : str) : result value :=
  Ok (Obj [(lit "choices",
            Arr [Obj [(lit "message",
                       Obj [(lit "content",
                             Str (prose_before
                                  ++ (open_brace :: result_fields
                                      ++ [close_brace])
                                  ++ prose_after))])]])]).

Definition answered : Analysis :=
  match analyzeSOC1Report print_integer false answering
          (lit "report") (lit "model") with
  | Ok r => r
  | Throw _ => mkAnalysis [] [] Null
  end.

Lemma analyzeSOC1Report_result_witness :
  (exists raw,
     truthy raw = true /\ transformSOC1Result print_integer raw = Ok answered)
  /\
  NoDup (map finding_id (findings answered)) /\
  Forall (fun f => critical f = true -> category f = lit "Control Failures")
         (findings answered) /\
  categories answered = all_categories.
Proof.
  apply (@analyzeSOC1Report_result print_integer false answering
           (lit "report") (lit "model") answered).
  vm_compute. reflexivity.
Defined.


End Instances.
